(** * mcp-sumologic: time-range resolution and PII masking

    A shallow embedding of the two pure transforms of the repository:
    [parseTimeToken] / [parseTimeRange] (src/utils/time.ts) and
    [isMaskingEnabled] / [maskSensitiveInfo] (src/utils/pii.ts), together
    with the JavaScript primitives they rely on (string comparison,
    [toLowerCase], truthiness, regular-expression matching and
    [String.prototype.replace] with a global pattern). *)

From Stdlib Require Import ZArith NArith List Ascii String Bool Lia Arith.
Import ListNotations.


(** ** JavaScript strings

    A JavaScript string is a sequence of UTF-16 code units.  The model keeps
    the code units U+0000..U+00FF, one [ascii] each; every pattern, keyword
    and placeholder of the program lies in that range. *)
Module Js.

Definition str := list ascii.

Definition lit (s : string) : str := list_ascii_of_string s.

Definition code (c : ascii) : N := N_of_ascii c.

Definition inRange (lo hi c : ascii) : bool :=
  (code lo <=? code c)%N && (code c <=? code hi)%N.

Definition isDigit (c : ascii) : bool := inRange "0" "9" c.
Definition isUpper (c : ascii) : bool := inRange "A" "Z" c.
Definition isLower (c : ascii) : bool := inRange "a" "z" c.

(** [\w] of a non-unicode pattern: [A-Za-z0-9_]. *)
Definition isWord (c : ascii) : bool :=
  isDigit c || isUpper c || isLower c || Ascii.eqb c "_".

(** [\s] restricted to the modelled code units: TAB, LF, VT, FF, CR, SPACE
    and NO-BREAK SPACE (U+00A0). *)
Definition isSpace (c : ascii) : bool :=
  let n := code c in
  ((9 <=? n) && (n <=? 13))%N || (n =? 32)%N || (n =? 160)%N.

(** The upper-case letters of U+00C0..U+00DE (all but the sign U+00D7). *)
Definition isUpperLatin1 (c : ascii) : bool :=
  ((192 <=? code c) && (code c <=? 222) && negb (code c =? 215))%N.

(** [toLowerCase] of one code unit of the modelled range. *)
Definition toLowerChar (c : ascii) : ascii :=
  if isUpper c || isUpperLatin1 c then ascii_of_N (code c + 32) else c.

(** Upper case of an ASCII letter, as used to compare characters under the
    [i] flag of a pattern: there a code unit outside ASCII is never the same
    as an ASCII one. *)
Definition toUpperChar (c : ascii) : ascii :=
  if isLower c then ascii_of_N (code c - 32) else c.

Definition toLowerCase (s : str) : str := map toLowerChar s.

Fixpoint str_eqb (a b : str) : bool :=
  match a, b with
  | [], [] => true
  | x :: a', y :: b' => Ascii.eqb x y && str_eqb a' b'
  | _, _ => false
  end.

(** The relational operator [a < b] on two strings: lexicographic on code
    units. *)
Fixpoint str_ltb (a b : str) : bool :=
  match a, b with
  | _, [] => false
  | [], _ :: _ => true
  | x :: a', y :: b' =>
      if (code x <? code y)%N then true
      else if (code y <? code x)%N then false
      else str_ltb a' b'
  end.

(** [a > b]. *)
Definition str_gtb (a b : str) : bool := str_ltb b a.

(** Truthiness of a value of type [string | undefined]. *)
Definition truthy (v : option str) : bool :=
  match v with
  | Some (_ :: _) => true
  | _ => false
  end.

(** [Array.prototype.includes] on an array of strings. *)
Definition includes (l : list str) (s : str) : bool := existsb (str_eqb s) l.

(** [parseInt(s, 10)] on a run of decimal digits: the integer they write.
    JavaScript returns the double nearest to it, which is the integer itself
    below 2^53; a larger amount takes every subtraction of the resolver out
    of the range of a [Date], where the rounding cannot be observed (lemma
    [subtract_beyond_range]). *)
Definition digitVal (c : ascii) : Z := Z.of_N (code c - 48).

Definition parseInt (s : str) : Z :=
  fold_left (fun acc c => 10 * acc + digitVal c)%Z s 0%Z.

End Js.

Import Js.

(** ** The moment.js operations used by the resolver

    A moment wraps a JavaScript [Date]: its time value, in milliseconds
    since the Unix epoch and at most [maxTime] in absolute value, or an
    invalid date ([NaN]), written [None].  The moments of the resolver are
    in local mode: their fields and their offset are those of the zone of
    the process at the instant they denote.  [format] is moment's default
    format [YYYY-MM-DDTHH:mm:ssZ]. *)
Module Moment.

Local Open Scope Z_scope.

(** The largest time value of a [Date], and [TimeClip]. *)
Definition maxTime : Z := 8640000000000000.

Definition timeClip (t : Z) : option Z :=
  if Z.abs t <=? maxTime then Some t else None.

(** The zone of the process:
    - [localTZA t]: offset of local time from UTC at the instant [t], in
      milliseconds ([LocalTZA(t, true)]);
    - [localTZAofLocal l]: the offset by which the local time value [l] is
      turned into an instant ([LocalTZA(l, false)]: where a local time
      repeats or is skipped, the offset before the transition);
    - [utcOffsetAt t]: moment's [utcOffset()] at the instant [t], in whole
      minutes, east positive (the rounded [-getTimezoneOffset()]). *)
Record Zone := mkZone {
  localTZA : Z -> Z;
  localTZAofLocal : Z -> Z;
  utcOffsetAt : Z -> Z
}.

(** A zone whose offset, [utcOffset] minutes, never changes. *)
Definition fixedZone (utcOffset : Z) : Zone :=
  mkZone (fun _ => utcOffset * 60000) (fun _ => utcOffset * 60000)
         (fun _ => utcOffset).

Inductive DurationUnit := seconds | minutes | hours | days | weeks.

Definition unitMs (u : DurationUnit) : Z :=
  match u with
  | seconds => 1000
  | minutes => 60000
  | hours => 3600000
  | days => 86400000
  | weeks => 604800000
  end.

(** The parts of the duration [amount] of [unit]: whole days (a week is
    seven of them) and milliseconds.  With no unit ([undefined]) the amount
    is a number of milliseconds. *)
Definition durationDays (amount : Z) (unit : option DurationUnit) : Z :=
  match unit with
  | Some days => amount
  | Some weeks => amount * 7
  | _ => 0
  end.

Definition durationMs (amount : Z) (unit : option DurationUnit) : Z :=
  match unit with
  | Some days | Some weeks => 0
  | Some u => amount * unitMs u
  | None => amount
  end.

(** [setDate(getDate() - n)] on a local-mode date: the local time value
    moves by whole days and is turned back into an instant. *)
Definition subtractDays (zone : Zone) (t n : Z) : option Z :=
  let local := t + localTZA zone t in
  let newDate := local - n * 86400000 in
  timeClip (newDate - localTZAofLocal zone newDate).

(** [moment(m).subtract(amount, unit)]: the days of the duration are taken
    off the date of the month in local time, its milliseconds off the time
    value; a part that is zero is skipped, an invalid moment stays
    invalid. *)
Definition subtract (zone : Zone) (m : option Z) (amount : Z)
  (unit : option DurationUnit) : option Z :=
  match m with
  | None => None
  | Some t =>
      let n := durationDays amount unit in
      let ms := durationMs amount unit in
      let afterDays := if n =? 0 then Some t else subtractDays zone t n in
      match afterDays with
      | Some t' => if ms =? 0 then Some t' else timeClip (t' - ms)
      | None => None
      end
  end.

(** Year, within a 400-year era that starts on 1 March, of the day number
    [doe] of the era, and the day number of the first day of such a year. *)
Definition yearOfEra (doe : Z) : Z :=
  (doe - doe / 1460 + doe / 36524 - doe / 146096) / 365.

Definition yearStart (yoe : Z) : Z := 365 * yoe + yoe / 4 - yoe / 100.

(** Month and day of the month of the day number [doy] of a year that
    starts on 1 March, preceded by 1 when the month (January, February)
    belongs to the next calendar year. *)
Definition monthDay (doy : Z) : Z * Z * Z :=
  let mp := (5 * doy + 2) / 153 in
  let d := doy - (153 * mp + 2) / 5 + 1 in
  let m := if mp <? 10 then mp + 3 else mp - 9 in
  ((if m <=? 2 then 1 else 0), m, d).

(** Date of the day number [doe] of an era: year within the era, month,
    day of the month. *)
Definition civilOfEraDay (doe : Z) : Z * Z * Z :=
  let yoe := yearOfEra doe in
  let '(next, m, d) := monthDay (doe - yearStart yoe) in
  (yoe + next, m, d).

(** Proleptic Gregorian date of a day number counted from 1970-01-01. *)
Definition civil (day : Z) : Z * Z * Z :=
  let z := day + 719468 in
  let era := z / 146097 in
  let '(y, m, d) := civilOfEraDay (z - era * 146097) in
  (y + era * 400, m, d).

Definition digitChar (d : Z) : ascii := ascii_of_N (48 + Z.to_N d).

Fixpoint digitsOf (fuel : nat) (n : Z) (acc : str) : str :=
  match fuel with
  | O => acc
  | S fuel' =>
      let acc' := digitChar (n mod 10) :: acc in
      if n <? 10 then acc' else digitsOf fuel' (n / 10) acc'
  end.

(** Decimal digits of the absolute value of [n] (['' + Math.abs(n)]). *)
Definition decimal (n : Z) : str :=
  digitsOf (S (Z.to_nat (Z.log2 (Z.abs n)))) (Z.abs n) [].

(** moment's [zeroFill(number, targetLength)] without forced sign. *)
Definition zeroFill (number : Z) (targetLength : nat) : str :=
  let absNumber := decimal number in
  let zerosToFill := (targetLength - List.length absNumber)%nat in
  ((if 0 <=? number then [] else lit "-")
     ++ repeat "0"%char zerosToFill ++ absNumber)%list.

Record Fields := mkFields {
  f_year : Z; f_month : Z; f_date : Z;
  f_hour : Z; f_minute : Z; f_second : Z
}.

(** The fields of a local time value. *)
Definition fieldsOfLocal (local : Z) : Fields :=
  let msod := local mod 86400000 in
  let '(y, m, d) := civil (local / 86400000) in
  mkFields y m d (msod / 3600000) ((msod / 60000) mod 60) ((msod / 1000) mod 60).

Section Offset.

(** Offset from UTC, in minutes, east positive. *)
Variable utcOffset : Z.

Definition fields (t : Z) : Fields := fieldsOfLocal (t + utcOffset * 60000).

Definition offsetText : str :=
  ((if utcOffset <? 0 then lit "-" else lit "+")
     ++ zeroFill (Z.abs utcOffset / 60) 2 ++ lit ":"
     ++ zeroFill (Z.abs utcOffset mod 60) 2)%list.

Definition render (f : Fields) : str :=
  (zeroFill (f_year f) 4 ++ lit "-" ++ zeroFill (f_month f) 2 ++ lit "-"
     ++ zeroFill (f_date f) 2 ++ lit "T" ++ zeroFill (f_hour f) 2 ++ lit ":"
     ++ zeroFill (f_minute f) 2 ++ lit ":" ++ zeroFill (f_second f) 2
     ++ offsetText)%list.

(** The text of the instant [t] where the offset is [utcOffset]. *)
Definition formatAt (t : Z) : str := render (fields t).

End Offset.

Definition INVALID_DATE : str := lit "Invalid date".

(** [m.format()]: the fields of the local time of the instant, followed by
    the offset of the zone at that instant; [Invalid date] for an invalid
    moment. *)
Definition format (zone : Zone) (m : option Z) : str :=
  match m with
  | Some t => render (utcOffsetAt zone t) (fieldsOfLocal (t + localTZA zone t))
  | None => INVALID_DATE
  end.

End Moment.

Import Moment.

(** ** Outcome of a JavaScript computation: a value, or a thrown error. *)
Inductive Res (A : Type) : Type :=
| Ok (a : A)
| Throw (error : string).
Arguments Ok {A} a.
Arguments Throw {A} error.

Definition bind {A B : Type} (r : Res A) (f : A -> Res B) : Res B :=
  match r with
  | Ok a => f a
  | Throw e => Throw e
  end.

Notation "x <- r ;; k" := (bind r (fun x => k))
  (at level 61, r at next level, right associativity).

Definition isSome {A : Type} (o : option A) : bool :=
  match o with
  | Some _ => true
  | None => false
  end.

(** ** TimeRangeResolver (src/utils/time.ts) *)
Module Time.

(** [UNIT_MAP]: supported unit keys and their moment.js units. *)
Definition UNIT_MAP (key : ascii) : option DurationUnit :=
  if Ascii.eqb key "s" then Some seconds
  else if Ascii.eqb key "m" then Some minutes
  else if Ascii.eqb key "h" then Some hours
  else if Ascii.eqb key "d" then Some days
  else if Ascii.eqb key "w" then Some weeks
  else None.

Fixpoint splitLast (s : str) : option (str * ascii) :=
  match s with
  | [] => None
  | [c] => Some ([], c)
  | c :: s' =>
      match splitLast s' with
      | Some (init, l) => Some (c :: init, l)
      | None => None
      end
  end.

(** The character class [[smhdw]] under the [i] flag. *)
Definition isUnitKey (c : ascii) : bool :=
  existsb (Ascii.eqb (toLowerChar c)) ["s"; "m"; "h"; "d"; "w"]%char.

(** [token.match(RELATIVE_REGEX)] with
    [RELATIVE_REGEX = /^-([0-9]+)([smhdw])$/i]: the two capture groups of
    the match, or [None] for [null]. *)
Definition matchRelative (token : str) : option (str * ascii) :=
  match token with
  | "-"%char :: rest =>
      match splitLast rest with
      | Some (c :: ds, u) =>
          if forallb isDigit (c :: ds) && isUnitKey u
          then Some (c :: ds, u) else None
      | _ => None
      end
  | _ => None
  end.

Record TimeRangeInput := mkInput {
  from : option str;
  to : option str
}.

Record TimeRangeResolved := mkResolved {
  r_from : option str;
  r_to : option str
}.

Section Resolver.

(** The zone of the process. *)
Variable zone : Zone.

(** [moment(token)] followed by [isValid()]: the time value of the parsed
    moment (a valid date), or [None] when moment does not accept the
    string. *)
Variable momentParse : str -> option Z.

Definition fmt (m : option Z) : str := format zone m.

Definition parseTimeToken (token : option str) (now : Z) : option str :=
  match token with
  | None => None
  | Some [] => None
  | Some tok =>
      let calendar :=
        match momentParse tok with
        | Some parsed => Some (fmt (Some parsed))
        | None => None
        end in
      if str_eqb (toLowerCase tok) (lit "now") then Some (fmt (Some now))
      else
        match matchRelative tok with
        | Some (g1, g2) =>
            let amount := parseInt g1 in
            let unitKey := toLowerChar g2 in
            match UNIT_MAP unitKey with
            | Some unit =>
                Some (fmt (subtract zone (Some now) amount (Some unit)))
            | None => calendar
            end
        | None => calendar
        end
  end.

(** [parseTimeRange(range)], with the clock reading of [moment()], the
    time value of a valid date, passed in as [now].  The only operation that can throw is the indexing of the
    non-null-asserted [to.match(RELATIVE_REGEX)!]. *)
Definition parseTimeRange (now : Z) (range : TimeRangeInput)
  : Res TimeRangeResolved :=
  let resolvedFrom := parseTimeToken (from range) now in
  let resolvedTo := parseTimeToken (to range) now in
  let finalFrom := resolvedFrom in
  let finalTo :=
    if truthy finalFrom && negb (truthy (to range))
    then Some (fmt (Some now)) else resolvedTo in
  let windowOnly :=
    match to range with
    | Some t =>
        negb (truthy (from range)) && truthy (Some t)
        && isSome (matchRelative t)
        && negb (truthy resolvedFrom)
    | None => false
    end in
  finals <-
    (if windowOnly then
       match to range with
       | Some t =>
           match matchRelative t with
           | Some (g1, g2) =>
               let amount := parseInt g1 in
               let unit := UNIT_MAP (toLowerChar g2) in
               Ok (Some (fmt (subtract zone (Some now) amount unit)),
                   Some (fmt (Some now)))
           | None => Throw "TypeError: Cannot read properties of null"
           end
       | None => Throw "TypeError: Cannot read properties of undefined"
       end
     else Ok (finalFrom, finalTo)) ;;
  let '(finalFrom, finalTo) := finals in
  if truthy finalFrom && truthy finalTo
     && (match finalFrom, finalTo with
         | Some f, Some t => str_gtb f t
         | _, _ => false
         end)
  then Ok (mkResolved finalTo finalFrom)
  else Ok (mkResolved finalFrom finalTo).

End Resolver.

End Time.

Import Time.

(** *** A calendar parser for extended ISO 8601 date-times

    An instance of [momentParse] for strings of the form
    [YYYY-MM-DDTHH:mm:ss] followed by [Z] or by an offset [+HH:mm] or
    [-HH:mm], read as moment.js reads them: the instant that has this wall
    clock time at this offset.  Every other string is rejected by this
    instance (moment.js accepts more formats). *)
Module Iso.

Local Open Scope Z_scope.

(** Day number, counted from 1970-01-01, of a proleptic Gregorian date. *)
Definition daysFromCivil (y m d : Z) : Z :=
  let y' := if m <=? 2 then y - 1 else y in
  let era := y' / 400 in
  let yoe := y' - era * 400 in
  let doy := (153 * (if 2 <? m then m - 3 else m + 9) + 2) / 5 + d - 1 in
  let doe := yoe * 365 + yoe / 4 - yoe / 100 + doy in
  era * 146097 + doe - 719468.

(** The number written by the [len] characters of [s] from position [pos]. *)
Definition numberAt (s : str) (pos len : nat) : option Z :=
  let part := firstn len (skipn pos s) in
  if (List.length part =? len)%nat && forallb isDigit part
  then Some (parseInt part) else None.

Definition charAt (s : str) (pos : nat) (c : ascii) : bool :=
  match nth_error s pos with
  | Some x => Ascii.eqb x c
  | None => false
  end.

(** Offset from UTC, in minutes, written by the zone suffix. *)
Definition zoneMinutes (z : str) : option Z :=
  match z with
  | [c] => if Ascii.eqb c "Z" then Some 0 else None
  | sign :: _ =>
      match numberAt z 1 2, numberAt z 4 2 with
      | Some h, Some m =>
          if charAt z 3 ":" && (List.length z =? 6)%nat then
            if Ascii.eqb sign "+" then Some (h * 60 + m)
            else if Ascii.eqb sign "-" then Some (- (h * 60 + m))
            else None
          else None
      | _, _ => None
      end
  | [] => None
  end.

Definition isLeapYear (y : Z) : bool :=
  (y mod 4 =? 0) && (negb (y mod 100 =? 0) || (y mod 400 =? 0)).

Definition daysInMonth (y m : Z) : Z :=
  if m =? 2 then (if isLeapYear y then 29 else 28)
  else if (m =? 4) || (m =? 6) || (m =? 9) || (m =? 11) then 30 else 31.

(** The fields must be in range: the day exists in its month, and the hour
    24 is accepted for midnight at the end of the day only. *)
Definition isoParse (s : str) : option Z :=
  match numberAt s 0 4, numberAt s 5 2, numberAt s 8 2,
        numberAt s 11 2, numberAt s 14 2, numberAt s 17 2,
        zoneMinutes (skipn 19 s) with
  | Some y, Some mo, Some d, Some h, Some mi, Some sec, Some zone =>
      if charAt s 4 "-" && charAt s 7 "-" && charAt s 10 "T"
         && charAt s 13 ":" && charAt s 16 ":"
         && (1 <=? mo) && (mo <=? 12) && (1 <=? d) && (d <=? daysInMonth y mo)
         && ((h <=? 23) || ((h =? 24) && (mi =? 0) && (sec =? 0)))
         && (mi <=? 59) && (sec <=? 59)
      then Some (((daysFromCivil y mo d * 24 + h) * 60 + mi - zone) * 60000
                 + sec * 1000)
      else None
  | _, _, _, _, _, _, _ => None
  end.

End Iso.

Import Iso.

(** A calendar parser that accepts nothing, for runs in which no calendar
    string occurs. *)
Definition noCalendar (_ : str) : option Z := None.

(** 2026-11-03T12:00:00Z *)
Definition clock2026 : Z := 1793707200000.

(** The zone of a process that runs in UTC. *)
Definition utc : Zone := fixedZone 0.

(** A zone four hours behind UTC until 2026-11-01T06:00:00Z and five hours
    behind from then on (the end of daylight saving time in New York); the
    local hour from 01:00 to 02:00 of that day occurs twice. *)
Definition fallBack2026 : Z := 1793512800000.

Definition fallBackZone : Zone :=
  mkZone
    (fun t => if (t <? fallBack2026)%Z then -14400000 else -18000000)%Z
    (fun l => if (l <? fallBack2026 - 14400000)%Z
              then -14400000 else -18000000)%Z
    (fun t => if (t <? fallBack2026)%Z then -240 else -300)%Z.


(** ** Regular expressions

    The fragment of ECMAScript patterns that occurs in the program: character
    classes, [\b], [$], sequencing, alternation and greedy or lazy counted
    repetition, matched by backtracking with the priorities of the language
    (leftmost alternative first, greedy repetitions longest first). *)
Module Regex.

Inductive ClassItem :=
| One (c : ascii)
| Range (lo hi : ascii)
| ClsDigit    (* \d *)
| ClsSpace.   (* \s *)

Inductive regex :=
| Eps
| Class (negated : bool) (items : list ClassItem)
| WordB                                   (* \b *)
| EndOfInput                              (* $ without the m flag *)
| Cat (r1 r2 : regex)
| Alt (r1 r2 : regex)
| Rep (greedy : bool) (min : nat) (max : option nat) (r : regex).

Definition itemHas (it : ClassItem) (c : ascii) : bool :=
  match it with
  | One x => Ascii.eqb x c
  | Range lo hi => inRange lo hi c
  | ClsDigit => isDigit c
  | ClsSpace => isSpace c
  end.

(** Membership of [c] in a class; under the [i] flag two characters are the
    same when their upper-case forms are. *)
Definition classHas (ignoreCase negated : bool) (items : list ClassItem)
  (c : ascii) : bool :=
  let has x := existsb (fun it => itemHas it x) items in
  xorb negated
    (if ignoreCase then has c || has (toUpperChar c) || has (toLowerChar c)
     else has c).

Definition isWordAt (c : option ascii) : bool :=
  match c with
  | Some x => isWord x
  | None => false
  end.

(** A matcher state is the character before the current position (if any)
    and the rest of the input; a continuation returns the rest of the input
    after the whole match. *)
Definition Cont := option ascii -> str -> option str.

(** RepeatMatcher: [fuel] bounds the number of iterations; an iteration that
    consumes nothing once [min] is exhausted is rejected. *)
Fixpoint repeatMatcher (body : option ascii -> str -> Cont -> option str)
  (fuel : nat) (greedy : bool) (min : nat) (max : option nat)
  (prev : option ascii) (s : str) (k : Cont) : option str :=
  match fuel with
  | O => None
  | S fuel' =>
      match max with
      | Some O => k prev s
      | _ =>
          let iterate :=
            body prev s (fun prev' s' =>
              if (min =? 0)%nat && (List.length s' =? List.length s)%nat
              then None
              else repeatMatcher body fuel' greedy (Nat.pred min)
                     (option_map Nat.pred max) prev' s' k) in
          match min with
          | S _ => iterate
          | O =>
              if greedy then
                match iterate with
                | Some r => Some r
                | None => k prev s
                end
              else
                match k prev s with
                | Some r => Some r
                | None => iterate
                end
          end
      end
  end.

Fixpoint matcher (ignoreCase : bool) (r : regex) (prev : option ascii)
  (s : str) (k : Cont) {struct r} : option str :=
  match r with
  | Eps => k prev s
  | Class negated items =>
      match s with
      | c :: s' =>
          if classHas ignoreCase negated items c then k (Some c) s' else None
      | [] => None
      end
  | WordB =>
      if xorb (isWordAt prev) (isWordAt (hd_error s)) then k prev s else None
  | EndOfInput =>
      match s with
      | [] => k prev s
      | _ :: _ => None
      end
  | Cat r1 r2 =>
      matcher ignoreCase r1 prev s
        (fun prev' s' => matcher ignoreCase r2 prev' s' k)
  | Alt r1 r2 =>
      match matcher ignoreCase r1 prev s k with
      | Some res => Some res
      | None => matcher ignoreCase r2 prev s k
      end
  | Rep greedy min max r1 =>
      repeatMatcher (matcher ignoreCase r1) (S (min + List.length s))
        greedy min max prev s k
  end.

(** A compiled pattern: its body and its [i] flag. *)
Record RegExp := mkRegExp { body : regex; ignoreCase : bool }.

(** Match attempt at one position: the length of the match. *)
Definition matchAt (re : RegExp) (prev : option ascii) (s : str)
  : option nat :=
  match matcher (ignoreCase re) (body re) prev s (fun _ rest => Some rest) with
  | Some rest => Some (List.length s - List.length rest)%nat
  | None => None
  end.

(** [re.test(s)] for a pattern without the [g] flag: is there a match
    starting at some position of [s]? *)
Fixpoint searchFrom (re : RegExp) (prev : option ascii) (s : str) : bool :=
  match matchAt re prev s with
  | Some _ => true
  | None =>
      match s with
      | [] => false
      | c :: s' => searchFrom re (Some c) s'
      end
  end.

Definition test (re : RegExp) (s : str) : bool := searchFrom re None s.

(** [whole.replace(re, f)] for a pattern with the [g] flag, from the
    position [offset] whose remaining input is [s]; [skip] counts the
    characters still covered by the previous match.  The callback receives
    the matched text, its offset and the string being replaced. *)
Fixpoint replaceFrom (re : RegExp) (f : str -> nat -> str -> str)
  (whole : str) (prev : option ascii) (s : str) (offset skip : nat) : str :=
  match s with
  | [] =>
      match skip, matchAt re prev [] with
      | O, Some _ => f [] offset whole
      | _, _ => []
      end
  | c :: s' =>
      match skip with
      | S skip' => replaceFrom re f whole (Some c) s' (S offset) skip'
      | O =>
          match matchAt re prev s with
          | Some n =>
              (f (firstn n s) offset whole
                 ++ match n with
                    | O => c :: replaceFrom re f whole (Some c) s' (S offset) 0
                    | S n' => replaceFrom re f whole (Some c) s' (S offset) n'
                    end)%list
          | None => c :: replaceFrom re f whole (Some c) s' (S offset) 0
          end
      end
  end.

Definition replace (re : RegExp) (f : str -> nat -> str -> str) (s : str)
  : str := replaceFrom re f s None s 0 0.

(** Replacement by a fixed string (no [$] in it). *)
Definition replaceWith (re : RegExp) (replacement : str) (s : str) : str :=
  replace re (fun _ _ _ => replacement) s.

(** *** Pattern notation *)
Definition chr (c : ascii) : regex := Class false [One c].
Definition oneOf (items : list ClassItem) : regex := Class false items.
Definition noneOf (items : list ClassItem) : regex := Class true items.
Definition chars (s : string) : list ClassItem := map One (lit s).
Definition digit : regex := Class false [ClsDigit].          (* \d *)
Definition nonDigit : regex := Class true [ClsDigit].        (* \D *)
Definition space : regex := Class false [ClsSpace].          (* \s *)
Definition d09 : regex := Class false [Range "0" "9"].       (* [0-9] *)

Fixpoint cat (rs : list regex) : regex :=
  match rs with
  | [] => Eps
  | [r] => r
  | r :: rs' => Cat r (cat rs')
  end.

Fixpoint alt (rs : list regex) : regex :=
  match rs with
  | [] => Class false []
  | [r] => r
  | r :: rs' => Alt r (alt rs')
  end.

Definition word (s : string) : regex := cat (map chr (lit s)).
Definition times (n : nat) (r : regex) : regex := Rep true n (Some n) r.
Definition between (lo hi : nat) (r : regex) : regex := Rep true lo (Some hi) r.
Definition atLeast (lo : nat) (r : regex) : regex := Rep true lo None r.
Definition opt (r : regex) : regex := Rep true 0 (Some 1) r.
Definition plus (r : regex) : regex := Rep true 1 None r.
Definition star (r : regex) : regex := Rep true 0 None r.
Definition lazyStar (r : regex) : regex := Rep false 0 None r.

End Regex.

Import Regex.

(** ** PatternMasker (src/utils/pii.ts) *)
Module Pii.

(** [isMaskingEnabled()], with the value of the environment variable
    [MASK_SENSITIVE_INFO] ([None] when unset) passed in. *)
Definition isMaskingEnabled (v : option str) : bool :=
  if negb (truthy v) then true
  else
    match v with
    | None => true
    | Some v' =>
        let value := toLowerCase v' in
        if includes [lit "0"; lit "false"; lit "no"; lit "off"] value then false
        else if includes [lit "1"; lit "true"; lit "yes"; lit "on"] value then true
        else true
    end.

(** [str.replace(/\D/g, '')] has between 7 and 15 characters. *)
Definition isLikelyPhoneNumber (s : str) : bool :=
  let digitsOnly := replaceWith (mkRegExp nonDigit false) [] s in
  (7 <=? List.length digitsOnly)%nat && (List.length digitsOnly <=? 15)%nat.

Definition isPrefixOf := fix isPrefixOf (p s : str) : bool :=
  match p, s with
  | [], _ => true
  | x :: p', y :: s' => Ascii.eqb x y && isPrefixOf p' s'
  | _ :: _, [] => false
  end.

(** [s.indexOf(needle)]; [None] stands for -1. *)
Fixpoint indexOf (needle s : str) : option nat :=
  if isPrefixOf needle s then Some O
  else
    match s with
    | [] => None
    | _ :: s' => option_map S (indexOf needle s')
    end.

(** [/https?:\/\/[^\s]*$/] *)
Definition urlPrefixRegex : RegExp :=
  mkRegExp
    (cat [word "http"; opt (chr "s"); chr ":"; chr "/"; chr "/";
          star (noneOf [ClsSpace]); EndOfInput])
    false.

Definition isPartOfUrl (match_ fullText : str) : bool :=
  match indexOf match_ fullText with
  | None => false
  | Some matchIndex =>
      let textBeforeMatch := firstn matchIndex fullText in
      test urlPrefixRegex textBeforeMatch
  end.

Definition az : ClassItem := Range "a" "z".
Definition AZ : ClassItem := Range "A" "Z".
Definition n09 : ClassItem := Range "0" "9".

(** [/\b[A-Za-z0-9._%+-]+@[A-Za-z0-9.-]+\.[A-Z|a-z]{2,}\b/g] *)
Definition emailPattern : RegExp :=
  mkRegExp
    (cat [WordB; plus (oneOf ([AZ; az; n09] ++ chars "._%+-")); chr "@";
          plus (oneOf ([AZ; az; n09] ++ chars ".-")); chr ".";
          atLeast 2 (oneOf [AZ; One "|"; az]); WordB])
    false.

Definition creditCardPatterns : list RegExp :=
  map (fun r => mkRegExp r false)
  [ (* /\b4[0-9]{12}(?:[0-9]{3})?\b/g *)
    cat [WordB; chr "4"; times 12 d09; opt (times 3 d09); WordB];
    (* /\b(?:5[1-5][0-9]{2}|222[1-9]|22[3-9][0-9]|2[3-6][0-9]{2}|27[01][0-9]|2720)[0-9]{12}\b/g *)
    cat [WordB;
         alt [cat [chr "5"; oneOf [Range "1" "5"]; times 2 d09];
              cat [word "222"; oneOf [Range "1" "9"]];
              cat [word "22"; oneOf [Range "3" "9"]; d09];
              cat [chr "2"; oneOf [Range "3" "6"]; times 2 d09];
              cat [word "27"; oneOf (chars "01"); d09];
              word "2720"];
         times 12 d09; WordB];
    (* /\b3[47][0-9]{13}\b/g *)
    cat [WordB; chr "3"; oneOf (chars "47"); times 13 d09; WordB];
    (* /\b(?:6011|65[0-9]{2}|64[4-9][0-9]|6221[0-9]{2}|...|6229[0-9]{2})[0-9]{10,12}\b/g *)
    cat [WordB;
         alt [word "6011";
              cat [word "65"; times 2 d09];
              cat [word "64"; oneOf [Range "4" "9"]; d09];
              cat [word "6221"; times 2 d09];
              cat [word "6222"; times 2 d09];
              cat [word "6223"; times 2 d09];
              cat [word "6224"; times 2 d09];
              cat [word "6225"; times 2 d09];
              cat [word "6226"; times 2 d09];
              cat [word "6227"; times 2 d09];
              cat [word "6228"; times 2 d09];
              cat [word "6229"; times 2 d09]];
         between 10 12 d09; WordB];
    (* /\b(?:\d[ -]*?){13,16}\b/g *)
    cat [WordB; between 13 16 (Cat digit (lazyStar (oneOf (chars " -")))); WordB]
  ].

Definition sep3 : regex := opt (oneOf (chars " .-")).   (* [ .-]? *)
Definition sp : regex := oneOf (chars " ").             (* [ ] *)
Definition hy : regex := oneOf (chars "-").             (* [-] *)
Definition dd (lo hi : nat) : regex := between lo hi digit.   (* \d{lo,hi} *)
Definition dn (n : nat) : regex := times n digit.       (* \d{n} *)

Definition phonePatterns : list RegExp :=
  map (fun r => mkRegExp r false)
  [ (* /\b\+\d{1,4}[ .-]?\d{1,14}(?:[ .-]?\d{1,14})*\b/g *)
    cat [WordB; chr "+"; dd 1 4; sep3; dd 1 14; star (Cat sep3 (dd 1 14)); WordB];
    (* /\b\+\d{1,4}[ .-]?\(\d{1,4}\)[ .-]?\d{1,14}(?:[ .-]?\d{1,14})*\b/g *)
    cat [WordB; chr "+"; dd 1 4; sep3; chr "("; dd 1 4; chr ")"; sep3; dd 1 14;
         star (Cat sep3 (dd 1 14)); WordB];
    (* /\b\+\d{1,4}[ .-]?\d{1,4}[ .-]?\d{1,14}(?:\/\d{1,4})+\b/g *)
    cat [WordB; chr "+"; dd 1 4; sep3; dd 1 4; sep3; dd 1 14;
         plus (Cat (chr "/") (dd 1 4)); WordB];
    (* /\b1[ .-]?\(?\d{3}\)?[ .-]?\d{3}[ .-]?\d{4}\b/g *)
    cat [WordB; chr "1"; sep3; opt (chr "("); dn 3; opt (chr ")"); sep3; dn 3;
         sep3; dn 4; WordB];
    (* /\b\d{3}[.-]?\d{3}[.-]?\d{4}\b/g *)
    cat [WordB; dn 3; opt (oneOf (chars ".-")); dn 3; opt (oneOf (chars ".-"));
         dn 4; WordB];
    (* /\b\d{1,4}[ ]\d{1,4}[ ]\d{1,4}[ ]\d{1,4}\b/g *)
    cat [WordB; dd 1 4; sp; dd 1 4; sp; dd 1 4; sp; dd 1 4; WordB];
    (* /\b\d{6,10}(?:\/\d{1,4}){1,5}\b/g *)
    cat [WordB; dd 6 10; between 1 5 (Cat (chr "/") (dd 1 4)); WordB];
    (* /\b\(\d{3}\)[ .-]?\d{3}[ .-]?\d{4}\b/g *)
    cat [WordB; chr "("; dn 3; chr ")"; sep3; dn 3; sep3; dn 4; WordB];
    (* /\b\+\d{1,4}[ ]\d{4}[ ]\d{6}\b/g *)
    cat [WordB; chr "+"; dd 1 4; sp; dn 4; sp; dn 6; WordB];
    (* /\b\+\d{1,4}\(\d{3}\)\d{3}[-]?\d{4}\b/g *)
    cat [WordB; chr "+"; dd 1 4; chr "("; dn 3; chr ")"; dn 3; opt hy; dn 4; WordB];
    (* /\b\d{3}[-]\d{3}[-]\d{4}\b/g *)
    cat [WordB; dn 3; hy; dn 3; hy; dn 4; WordB];
    (* /\b\+\d{1,4}[ ]?\d{1,4}[ ]?\d{4}[ ]?\d{4}\b/g *)
    cat [WordB; chr "+"; dd 1 4; opt sp; dd 1 4; opt sp; dn 4; opt sp; dn 4; WordB];
    (* /\b\+[0-9]{10,15}\b/g *)
    cat [WordB; chr "+"; between 10 15 d09; WordB];
    (* /\b\+\d{1,4}[ ]?\d{1,4}[ ]?\d{1,4}[ ]?\d{1,4}\b/g *)
    cat [WordB; chr "+"; dd 1 4; opt sp; dd 1 4; opt sp; dd 1 4; opt sp; dd 1 4; WordB];
    (* /\b\d{1,4}[ -]?\d{1,4}[ -]?\d{1,4}[ -]?\d{1,4}\b/g *)
    cat [WordB; dd 1 4; opt (oneOf (chars " -")); dd 1 4; opt (oneOf (chars " -"));
         dd 1 4; opt (oneOf (chars " -")); dd 1 4; WordB]
  ].

Definition addressPatterns : list RegExp :=
  [ (* /\b\d+\s+[A-Za-z0-9\s,.-]+(?:Avenue|Ave|Street|St|Road|Rd|Boulevard|Blvd|Lane|Ln|Drive|Dr|Court|Ct|Plaza|Plz|Square|Sq)\b/gi *)
    mkRegExp
      (cat [WordB; plus digit; plus space;
            plus (oneOf ([AZ; az; n09; ClsSpace] ++ chars ",.-"));
            alt (map word ["Avenue"; "Ave"; "Street"; "St"; "Road"; "Rd";
                           "Boulevard"; "Blvd"; "Lane"; "Ln"; "Drive"; "Dr";
                           "Court"; "Ct"; "Plaza"; "Plz"; "Square"; "Sq"]%string);
            WordB])
      true;
    (* /\bP\.?O\.?\s*Box\s+\d+\b/gi *)
    mkRegExp
      (cat [WordB; chr "P"; opt (chr "."); chr "O"; opt (chr "."); star space;
            word "Box"; plus space; plus digit; WordB])
      true;
    (* /\b[A-Z]{1,2}\d[A-Z\d]? \d[A-Z]{2}\b/g *)
    mkRegExp
      (cat [WordB; between 1 2 (oneOf [AZ]); digit; opt (oneOf [AZ; ClsDigit]);
            chr " "; digit; times 2 (oneOf [AZ]); WordB])
      false;
    (* /\b\d{5}(?:-\d{4})?\b/g *)
    mkRegExp (cat [WordB; dn 5; opt (Cat (chr "-") (dn 4)); WordB]) false
  ].

(** [/\b\d{3}[-]?\d{2}[-]?\d{4}\b/g] *)
Definition ssnPattern : RegExp :=
  mkRegExp (cat [WordB; dn 3; opt hy; dn 2; opt hy; dn 4; WordB]) false.

Definition EMAIL_REDACTED : str := lit "[EMAIL REDACTED]".
Definition CARD_REDACTED : str := lit "[CARD NUMBER REDACTED]".
Definition PHONE_REDACTED : str := lit "[PHONE REDACTED]".
Definition ADDRESS_REDACTED : str := lit "[ADDRESS REDACTED]".
Definition SSN_REDACTED : str := lit "[SSN REDACTED]".

(** The replacement callback of the phone patterns. *)
Definition phoneReplacer (match_ : str) (offset : nat) (string : str) : str :=
  if isPartOfUrl match_ string then match_
  else if isLikelyPhoneNumber match_ then PHONE_REDACTED else match_.

(** [phonePatterns.forEach(pattern => maskedText = maskedText.replace(...))] *)
Definition phonePass (maskedText : str) : str :=
  fold_left (fun text pattern => replace pattern phoneReplacer text)
    phonePatterns maskedText.

(** [while (previousMaskedText !== maskedText) { ... }]: [None] when the
    loop is still running after [fuel] iterations. *)
Fixpoint phoneLoop (fuel : nat) (previousMaskedText maskedText : str)
  : option str :=
  if str_eqb previousMaskedText maskedText then Some maskedText
  else
    match fuel with
    | O => None
    | S fuel' => phoneLoop fuel' maskedText (phonePass maskedText)
    end.

(** The stages of [maskSensitiveInfo] before and after the re-scan loop. *)
Definition maskBeforeLoop (text : str) : str :=
  let maskedText := text in
  let maskedText :=
    if test emailPattern text
    then replaceWith emailPattern EMAIL_REDACTED maskedText
    else maskedText in
  let maskedText :=
    fold_left (fun t pattern => replaceWith pattern CARD_REDACTED t)
      creditCardPatterns maskedText in
  phonePass maskedText.

Definition maskAfterLoop (maskedText : str) : str :=
  let maskedText :=
    fold_left (fun t pattern => replaceWith pattern ADDRESS_REDACTED t)
      addressPatterns maskedText in
  replaceWith ssnPattern SSN_REDACTED maskedText.

(** [maskSensitiveInfo(text)] for a [text] of type string (the guard
    [typeof text !== 'string'] never fires on it), with the environment value
    [env] of [MASK_SENSITIVE_INFO] passed in; [None] when the re-scan loop has
    not finished within [fuel] iterations. *)
Definition maskSensitiveInfo (fuel : nat) (env : option str) (text : str)
  : option str :=
  if negb (isMaskingEnabled env) then Some text
  else
    match phoneLoop fuel [] (maskBeforeLoop text) with
    | Some maskedText => Some (maskAfterLoop maskedText)
    | None => None
    end.

End Pii.

Import Pii.

(** ** Reference notions used to state the properties *)
Module Spec.

(** The explicit falsy values of the masking toggle, case-insensitively. *)
Definition explicitFalsy (v : option str) : bool :=
  match v with
  | Some s => includes [lit "0"; lit "false"; lit "no"; lit "off"] (toLowerCase s)
  | None => false
  end.

(** Number of maximal runs of decimal digits in [s], where [inRun] tells
    whether the character before [s] is a digit. *)
Fixpoint runsFrom (inRun : bool) (s : str) : nat :=
  match s with
  | [] => 0
  | c :: s' =>
      ((if isDigit c && negb inRun then 1 else 0) + runsFrom (isDigit c) s')%nat
  end.

Definition digitRuns (s : str) : nat := runsFrom false s.

(** [n] applications of the full phone pass. *)
Fixpoint passes (n : nat) (text : str) : str :=
  match n with
  | O => text
  | S n' => passes n' (phonePass text)
  end.

End Spec.

Import Spec.

(** *** Sample inputs *)

(** A ten-digit number that follows a five-digit path segment of a URL. *)
Definition urlThenZip : str := lit "http://a/12345/5551234567".

(** The same ten-digit number free-standing and, later, inside a URL. *)
Definition numberThenUrl : str := lit "5551234567 http://a/5551234567".

(** The number inside a URL first, free-standing afterwards. *)
Definition urlThenNumber : str := lit "http://a/5551234567 5551234567".

(** Dotted numbers [555.000.10kk]. *)
Definition dotted (k : nat) : string :=
  ("555.000.10"
     ++ String (ascii_of_nat (48 + k / 10))
          (String (ascii_of_nat (48 + k mod 10)) ""))%string.

(** [n] URLs, each holding the previous dotted number and a new one. *)
Fixpoint urlChain (n k : nat) : string :=
  match n with
  | O => ""%string
  | S n' =>
      (" http://h/" ++ dotted k ++ "/" ++ dotted (S k) ++ urlChain n' (S k))%string
  end.

Definition chainText (n : nat) : str := lit (dotted 0 ++ urlChain n 0).

(** ** Static analysis of patterns *)
Module Analysis.

(** The character before the position reached after reading [m]. *)
Fixpoint lastOr (prev : option ascii) (m : str) : option ascii :=
  match m with
  | [] => prev
  | c :: m' => lastOr (Some c) m'
  end.

Definition allAscii : list ascii := map ascii_of_nat (seq 0 256).

(** A counted repetition whose bounds are in order. *)
Definition repOk (min : nat) (max : option nat) : bool :=
  match max with
  | Some mx => (min <=? mx)%nat
  | None => true
  end.

(** [needs P ic r]: every match of [r] reads a character satisfying [P]. *)
Fixpoint needs (P : ascii -> bool) (ic : bool) (r : regex) : bool :=
  match r with
  | Class negated items =>
      forallb (fun c => implb (classHas ic negated items c) (P c)) allAscii
  | Cat r1 r2 => needs P ic r1 || needs P ic r2
  | Alt r1 r2 => needs P ic r1 && needs P ic r2
  | Rep _ min max r1 => (0 <? min)%nat && repOk min max && needs P ic r1
  | _ => false
  end.

(** The pattern ends with [\b]. *)
Fixpoint endsWordB (r : regex) : bool :=
  match r with
  | WordB => true
  | Cat _ r2 => endsWordB r2
  | _ => false
  end.

(** The pattern has the shape [\b ... \b]. *)
Definition bounded (r : regex) : bool :=
  match r with
  | Cat WordB r' => endsWordB r'
  | _ => false
  end.

(** Whether the last character of [m] is a digit ([b] when [m] is empty). *)
Fixpoint lastDigit (b : bool) (m : str) : bool :=
  match m with
  | [] => b
  | c :: m' => lastDigit (isDigit c) m'
  end.

(** [P] holds of the [n] integers from [z] on. *)
Fixpoint checkRange (n : nat) (z : Z) (P : Z -> bool) : bool :=
  match n with
  | O => true
  | S n' => P z && checkRange n' (z + 1)%Z P
  end.

Definition dateKey (ymd : Z * Z * Z) : Z :=
  let '(y, m, d) := ymd in (y * 10000 + m * 100 + d)%Z.

(** The month and day of a day of the year are well formed and precede the
    next day's. *)
Definition monthDayOk (doy : Z) : bool :=
  let '(next, m, d) := monthDay doy in
  ((1 <=? m) && (m <=? 12) && (1 <=? d) && (d <=? 31)
   && (301 <=? dateKey (next, m, d)) && (dateKey (next, m, d) <=? 10229)
   && ((doy =? 365) || (dateKey (next, m, d) <? dateKey (monthDay (doy + 1)))))%Z.

(** The fields of a moment as one number, in calendar order. *)
Definition stamp (f : Fields) : Z :=
  (dateKey (f_year f, f_month f, f_date f) * 1000000
   + f_hour f * 10000 + f_minute f * 100 + f_second f)%Z.

Definition fourDigitYear (f : Fields) : Prop := (0 <= f_year f <= 9999)%Z.

Definition twoDigitFields (f : Fields) : Prop :=
  (0 <= f_month f <= 99 /\ 0 <= f_date f <= 99 /\ 0 <= f_hour f <= 99 /\
   0 <= f_minute f <= 99 /\ 0 <= f_second f <= 99)%Z.

Definition pad2Ok (p : Z) : bool :=
  str_eqb (zeroFill p 2) [digitChar (p / 10); digitChar (p mod 10)].

Definition pad4Ok (y : Z) : bool :=
  str_eqb (zeroFill y 4) (zeroFill (y / 100) 2 ++ zeroFill (y mod 100) 2).

Definition isDigitAt (c : option ascii) : bool :=
  match c with
  | Some x => isDigit x
  | None => false
  end.

(** What a matcher returns comes from its continuation, called after
    reading a prefix [m] of the input; [nb] tells whether [m] must hold a
    character satisfying [P]. *)
Definition SoundBody (P : ascii -> bool)
  (body : option ascii -> str -> Cont -> option str) (nb : bool) : Prop :=
  forall prev s k res,
    body prev s k = Some res ->
    exists m s',
      s = (m ++ s')%list /\ k (lastOr prev m) s' = Some res /\
      (nb = true -> existsb P m = true).

(** Two continuations agree on every position at or behind [s]. *)
Definition agreeFrom (s : str) (k1 k2 : Cont) : Prop :=
  forall prev' s', (List.length s' <= List.length s)%nat ->
    k1 prev' s' = k2 prev' s'.

(** A matcher that only looks at its continuation at or behind the current
    position. *)
Definition Forward (body : option ascii -> str -> Cont -> option str) : Prop :=
  forall prev s k1 k2, agreeFrom s k1 k2 -> body prev s k1 = body prev s k2.

(** A pattern of the shape [\b ... \b] whose matches hold a digit. *)
Definition numeric (p : RegExp) : Prop :=
  bounded (body p) = true /\ needs isDigit (ignoreCase p) (body p) = true.

End Analysis.

Import Analysis.

(** ** Further notions used to state properties of the resolver *)
Module TimeSpec.

(** [RELATIVE_REGEX = /^-([0-9]+)([smhdw])$/i] as a pattern; the anchor [^]
    is rendered by matching at the start of the token only. *)
Definition RELATIVE_REGEX : RegExp :=
  mkRegExp (cat [chr "-"; plus d09; oneOf (chars "smhdw"); EndOfInput]) true.

(** The token has the shape [-<digits><unit>]. *)
Definition relativeShape (token digits : str) (u : ascii) : Prop :=
  token = ("-"%char :: digits ++ [u])%list /\ digits <> []
  /\ forallb isDigit digits = true /\ isUnitKey u = true.

(** At the instant [t] the zone is [o] minutes from UTC. *)
Definition offsetIs (zone : Zone) (t o : Z) : Prop :=
  localTZA zone t = (o * 60000)%Z /\ utcOffsetAt zone t = o.

(** The units whose durations are a number of milliseconds. *)
Definition isClockUnit (unit : DurationUnit) : bool :=
  match unit with
  | seconds | minutes | hours => true
  | days | weeks => false
  end.

(** No offset of the zone reaches a whole day. *)
Definition offsetsWithinADay (zone : Zone) : Prop :=
  forall t, (Z.abs (localTZA zone t) <= 86400000
             /\ Z.abs (localTZAofLocal zone t) <= 86400000)%Z.

End TimeSpec.

Import TimeSpec.

(** ** Further static analysis of patterns *)
Module Analysis2.

(** [only Q ic r]: every character read by a match of [r] satisfies [Q]. *)
Fixpoint only (Q : ascii -> bool) (ic : bool) (r : regex) : bool :=
  match r with
  | Class negated items =>
      forallb (fun c => implb (classHas ic negated items c) (Q c)) allAscii
  | Cat r1 r2 => only Q ic r1 && only Q ic r2
  | Alt r1 r2 => only Q ic r1 && only Q ic r2
  | Rep _ _ _ r1 => only Q ic r1
  | _ => true
  end.

(** What a matcher returns comes from its continuation, called after
    reading a prefix [m] of the input; [nb] tells whether [m] must hold a
    character satisfying [P], [ob] whether all of [m] must satisfy [Q]. *)
Definition TraceBody (P Q : ascii -> bool)
  (body : option ascii -> str -> Cont -> option str) (nb ob : bool) : Prop :=
  forall prev s k res,
    body prev s k = Some res ->
    exists m s',
      s = (m ++ s')%list /\ k (lastOr prev m) s' = Some res /\
      (nb = true -> existsb P m = true) /\
      (ob = true -> forallb Q m = true).

(** Two classes have the same members. *)
Definition sameClass (ic : bool) (negated : bool) (items : list ClassItem)
  (p : ascii -> bool) : bool :=
  forallb (fun c => Bool.eqb (classHas ic negated items c) (p c)) allAscii.

(** The pattern holds no [$]. *)
Fixpoint noEnd (r : regex) : bool :=
  match r with
  | EndOfInput => false
  | Cat r1 r2 => noEnd r1 && noEnd r2
  | Alt r1 r2 => noEnd r1 && noEnd r2
  | Rep _ _ _ r1 => noEnd r1
  | _ => true
  end.

(** The match of [m] can be replayed: in front of another remainder that
    looks the same to a word boundary, after a character that looks the
    same, the matcher succeeds as soon as its continuation accepts the
    position behind [m]. *)
Definition Replay (body : option ascii -> str -> Cont -> option str)
  (prev : option ascii) (m s' : str) : Prop :=
  forall prev2 rest2 (k2 : Cont),
    isWordAt prev2 = isWordAt prev ->
    isWordAt (hd_error rest2) = isWordAt (hd_error s') ->
    k2 (lastOr prev2 m) rest2 <> None ->
    body prev2 (m ++ rest2)%list k2 <> None.

Definition ReplayBody (body : option ascii -> str -> Cont -> option str)
  (ok : bool) : Prop :=
  forall prev s k res,
    body prev s k = Some res ->
    exists m s',
      s = (m ++ s')%list /\ k (lastOr prev m) s' = Some res /\
      (ok = true -> Replay body prev m s').

End Analysis2.

Import Analysis2.

(** ** Further notions used to state properties of the masker *)
Module PiiSpec.

(** [m] occurs in [s] at index [i]. *)
Definition occursAt (m s : str) (i : nat) : Prop :=
  exists pre post, s = (pre ++ m ++ post)%list /\ List.length pre = i.

(** [i] is the index of the first occurrence of [m] in [s]. *)
Definition firstOccurrence (m s : str) (i : nat) : Prop :=
  occursAt m s i /\ forall j, (j < i)%nat -> ~ occursAt m s j.

Definition noSpace (v : str) : bool := forallb (fun c => negb (isSpace c)) v.

(** [pre] ends with [http://] or [https://] followed by characters none of
    which is white space. *)
Definition urlPrefixed (pre : str) : Prop :=
  exists u scheme v,
    pre = (u ++ scheme ++ v)%list /\
    (scheme = lit "http://" \/ scheme = lit "https://") /\
    noSpace v = true.

(** The text holds a redaction placeholder. *)
Definition redacted (s : str) : Prop :=
  exists a b, s = (a ++ lit " REDACTED]" ++ b)%list.

(** [a] is obtained from [b] by deleting characters. *)
Inductive subseq : str -> str -> Prop :=
| subseq_nil : subseq [] []
| subseq_skip (a : str) (c : ascii) (b : str) :
    subseq a b -> subseq a (c :: b)
| subseq_take (a : str) (c : ascii) (b : str) :
    subseq a b -> subseq (c :: a) (c :: b).

(** The decimal digits of a text, in order. *)
Definition digitsIn (s : str) : str := filter isDigit s.

(** [m] is what the pattern matches at some position of some text. *)
Definition matchedBy (re : RegExp) (m : str) : Prop :=
  exists prev rest, matchAt re prev (m ++ rest) = Some (List.length m).

(** [out] is obtained from [s] by replacing some disjoint pieces [m] of it,
    each satisfying [M], from left to right, by what the callback [f]
    returns for them. *)
Inductive Rewrites (M : str -> Prop) (f : str -> nat -> str -> str)
  (whole : str) : str -> str -> Prop :=
| rw_nil : Rewrites M f whole [] []
| rw_keep (c : ascii) (s out : str) :
    Rewrites M f whole s out -> Rewrites M f whole (c :: s) (c :: out)
| rw_repl (m s out : str) (off : nat) :
    M m ->
    Rewrites M f whole s out ->
    Rewrites M f whole (m ++ s) (f m off whole ++ out).

(** The characters a pattern of the masker can read: letters, digits, the
    underscore, white space and the signs [. % + - @ | ( ) / ,]. *)
Definition maskable (c : ascii) : bool :=
  isWord c || isSpace c || existsb (Ascii.eqb c) (lit ".%+-@|()/,").

(** The characters of a text that no pattern of the masker can read. *)
Definition unmaskableIn (s : str) : str :=
  filter (fun c => negb (maskable c)) s.

(** A digit or [@]: every match of a pattern of the masker holds one. *)
Definition isKey (c : ascii) : bool := isDigit c || Ascii.eqb c "@".

Definition PLACEHOLDERS : list str :=
  [EMAIL_REDACTED; CARD_REDACTED; PHONE_REDACTED; ADDRESS_REDACTED;
   SSN_REDACTED].

(** The patterns whose matches are all replaced, and all the patterns of
    the masker. *)
Definition fixedPatterns : list RegExp :=
  emailPattern :: creditCardPatterns ++ addressPatterns ++ [ssnPattern].

Definition allPatterns : list RegExp := fixedPatterns ++ phonePatterns.

(** What the patterns of the masker have in common: the shape [\b ... \b]
    without [$], matches that hold a digit or [@] and are made of maskable
    characters. *)
Definition stagePattern (p : RegExp) : bool :=
  bounded (body p) && needs isKey (ignoreCase p) (body p)
  && only maskable (ignoreCase p) (body p) && noEnd (body p).

(** The pattern matches at no position of the text. *)
Definition NoMatch (p : RegExp) (x : str) : Prop :=
  forall pre post,
    x = (pre ++ post)%list -> matchAt p (lastOr None pre) post = None.

(** None of the patterns [S] matches in the text. *)
Definition Stable (S : list RegExp) (x : str) : Prop :=
  forall q, In q S -> NoMatch q x.

(** A global replacement as a scan: [Scan re f whole prev s out] when [out]
    is what the replacement writes for the rest [s] of the text, read after
    the character [prev]: a character where the pattern does not match is
    kept, a match [m] is replaced by what the callback returns. *)
Inductive Scan (re : RegExp) (f : str -> nat -> str -> str) (whole : str)
  : option ascii -> str -> str -> Prop :=
| scan_nil (prev : option ascii) : Scan re f whole prev [] []
| scan_keep (prev : option ascii) (c : ascii) (s out : str) :
    matchAt re prev (c :: s) = None ->
    Scan re f whole (Some c) s out ->
    Scan re f whole prev (c :: s) (c :: out)
| scan_repl (prev : option ascii) (m s out : str) (off : nat) :
    m <> [] ->
    matchAt re prev (m ++ s) = Some (List.length m) ->
    Scan re f whole (lastOr prev m) s out ->
    Scan re f whole prev (m ++ s) (f m off whole ++ out).

(** One round of redactions: some disjoint pieces of the text, each made
    of maskable characters and holding a digit or [@], are replaced by
    placeholders. *)
Inductive Redaction : str -> str -> Prop :=
| red_nil : Redaction [] []
| red_keep (c : ascii) (s s' : str) :
    Redaction s s' -> Redaction (c :: s) (c :: s')
| red_piece (m P s s' : str) :
    forallb maskable m = true -> existsb isKey m = true ->
    In P PLACEHOLDERS ->
    Redaction s s' -> Redaction (m ++ s) (P ++ s').

(** Any number of rounds of redactions. *)
Inductive RedactedFrom : str -> str -> Prop :=
| rf_refl (s : str) : RedactedFrom s s
| rf_step (s s' s'' : str) :
    RedactedFrom s s' -> Redaction s' s'' -> RedactedFrom s s''.

End PiiSpec.

Import PiiSpec.

(** ** The tool handler of [index.ts]: cleaning of the query *)
Module Index.

Definition LF : ascii := "010"%char.

(** [/\n/g] *)
Definition newlinePattern : RegExp := mkRegExp (chr LF) false.

(** [const cleanedQuery = query.replace(/\n/g, '')] *)
Definition cleanQuery (query : str) : str := replaceWith newlinePattern [] query.

End Index.

Import Index.

(** * Properties *)

Lemma str_eqb_refl (a : str) : str_eqb a a = true.
Proof.
  induction a as [|x a IH]; simpl; [reflexivity|].
  now rewrite Ascii.eqb_refl.
Qed.

Lemma str_eqb_eq (a b : str) : str_eqb a b = true <-> a = b.
Proof.
  split.
  - revert b; induction a as [|x a IH]; intros [|y b]; simpl; try congruence.
    intros H; apply andb_true_iff in H as [Hx Hr].
    apply Ascii.eqb_eq in Hx; f_equal; auto.
  - intros ->; apply str_eqb_refl.
Qed.

Lemma str_ltb_irrefl (a : str) : str_ltb a a = false.
Proof.
  induction a as [|x a IH]; simpl; [reflexivity|].
  now rewrite N.ltb_irrefl.
Qed.

Lemma str_ltb_asym (a b : str) : str_ltb a b = true -> str_ltb b a = false.
Proof.
  revert b; induction a as [|x a IH]; intros [|y b]; simpl; try congruence.
  destruct (code x <? code y)%N eqn:Hxy.
  - intros _. apply N.ltb_lt in Hxy.
    destruct (code y <? code x)%N eqn:Hyx; [apply N.ltb_lt in Hyx; lia|].
    reflexivity.
  - destruct (code y <? code x)%N eqn:Hyx; [congruence|].
    apply IH.
Qed.

Example format_epoch : format utc (Some 0%Z) = lit "1970-01-01T00:00:00+00:00".
Proof. reflexivity. Qed.

Example format_2025 :
  format (fixedZone 330) (Some 1736467200123%Z) = lit "2025-01-10T05:30:00+05:30".
Proof. vm_compute. reflexivity. Qed.

Example format_leap :
  format (fixedZone (-480)) (Some 1709251199000%Z)
  = lit "2024-02-29T15:59:59-08:00".
Proof. vm_compute. reflexivity. Qed.

Example format_bc :
  format utc (Some (-62167219200000 - 86400000)%Z)
  = lit "-0001-12-31T00:00:00+00:00".
Proof. vm_compute. reflexivity. Qed.

Example fmt_clock2026 : fmt utc (Some clock2026) = lit "2026-11-03T12:00:00+00:00".
Proof. vm_compute. reflexivity. Qed.

Example resolve_from_15m :
  parseTimeRange utc noCalendar clock2026 (mkInput (Some (lit "-15m")) None)
  = Ok (mkResolved (Some (lit "2026-11-03T11:45:00+00:00"))
                   (Some (lit "2026-11-03T12:00:00+00:00"))).
Proof. vm_compute. reflexivity. Qed.

Example resolve_to_2h :
  parseTimeRange utc noCalendar clock2026 (mkInput None (Some (lit "-2H")))
  = Ok (mkResolved (Some (lit "2026-11-03T10:00:00+00:00"))
                   (Some (lit "2026-11-03T12:00:00+00:00"))).
Proof. vm_compute. reflexivity. Qed.

Example resolve_nothing :
  parseTimeRange utc noCalendar clock2026 (mkInput None None)
  = Ok (mkResolved None None).
Proof. vm_compute. reflexivity. Qed.

Example mask_email :
  maskSensitiveInfo 5 None (lit "Contact test.user@example.com")
  = Some (lit "Contact [EMAIL REDACTED]").
Proof. vm_compute. reflexivity. Qed.

Example mask_phone :
  maskSensitiveInfo 5 None (lit "Call 833-376-1995")
  = Some (lit "Call [PHONE REDACTED]").
Proof. vm_compute. reflexivity. Qed.

Example mask_url :
  maskSensitiveInfo 5 None (lit "http://example.com/12345678901")
  = Some (lit "http://example.com/12345678901").
Proof. vm_compute. reflexivity. Qed.

Example mask_test_default :
  maskSensitiveInfo 5 None
    (lit "Contact me at test.user@example.com or +1 (555) 123-4567")
  = Some (lit "Contact me at [EMAIL REDACTED] or +[PHONE REDACTED]").
Proof. vm_compute. reflexivity. Qed.

(** ** The masking toggle *)

Lemma isMaskingEnabled_spec (v : option str) :
  isMaskingEnabled v = negb (explicitFalsy v).
Proof.
  destruct v as [[|c s]|]; try reflexivity.
  unfold isMaskingEnabled, explicitFalsy, truthy; cbn [negb].
  destruct (includes _ (toLowerCase (c :: s))); [reflexivity|].
  destruct (includes _ (toLowerCase (c :: s))); reflexivity.
Qed.

(** C7: the toggle is disabled exactly by an explicit falsy value ('0',
    'false', 'no', 'off', case-insensitive) and is enabled by every other
    value, absent, truthy or unrecognised; when it is disabled the masker
    returns its input unchanged. *)
Theorem masking_toggle_tristate (v : option str) (fuel : nat) (text : str) :
  isMaskingEnabled v = negb (explicitFalsy v) /\
  (explicitFalsy v = true -> maskSensitiveInfo fuel v text = Some text).
Proof.
  split; [apply isMaskingEnabled_spec|].
  intros Hf. unfold maskSensitiveInfo.
  now rewrite isMaskingEnabled_spec, Hf.
Qed.

Lemma masking_toggle_tristate_witness :
  explicitFalsy (Some (lit "OFF")) = true /\
  maskSensitiveInfo 0 (Some (lit "OFF")) (lit "mail test.user@example.com")
  = Some (lit "mail test.user@example.com").
Proof.
  split; [reflexivity|].
  apply (proj2 (masking_toggle_tristate (Some (lit "OFF")) 0
                  (lit "mail test.user@example.com"))).
  reflexivity.
Defined.

Example toggle_values :
  map isMaskingEnabled
    [None; Some []; Some (lit "0"); Some (lit "False"); Some (lit "NO");
     Some (lit "off"); Some (lit "1"); Some (lit "true"); Some (lit "yes");
     Some (lit "on"); Some (lit "weird")]
  = [true; true; false; false; false; false; true; true; true; true; true].
Proof. reflexivity. Qed.

(** ** Empty tokens *)

(** C10: an empty-string token behaves exactly like an omitted one: it
    parses to nothing, and replacing an omitted [from] or [to] by the empty
    string never changes the resolved range; in particular
    [from = ""], [to = "-2h"] takes the window rule. *)
Theorem empty_token_is_omitted (zone : Zone) (momentParse : str -> option Z)
  (now : Z) (other : option str) :
  parseTimeToken zone momentParse (Some []) now = None /\
  parseTimeRange zone momentParse now (mkInput (Some []) other)
  = parseTimeRange zone momentParse now (mkInput None other) /\
  parseTimeRange zone momentParse now (mkInput other (Some []))
  = parseTimeRange zone momentParse now (mkInput other None) /\
  parseTimeRange zone momentParse now (mkInput (Some []) (Some (lit "-2h")))
  = parseTimeRange zone momentParse now (mkInput None (Some (lit "-2h"))).
Proof.
  assert (Hfrom : forall o,
    parseTimeRange zone momentParse now (mkInput (Some []) o)
    = parseTimeRange zone momentParse now (mkInput None o))
    by reflexivity.
  split; [reflexivity|]. split; [apply Hfrom|]. split; [|apply Hfrom].
  unfold parseTimeRange; cbn [from to truthy negb andb].
  change (parseTimeToken zone momentParse (Some []) now) with (@None str).
  rewrite !andb_true_r, andb_false_r. reflexivity.
Qed.

(** ** The resolver never throws *)

Lemma if_Ok_returns (A : Type) (b : bool) (x y : A) :
  exists r, (if b then Ok x else Ok y) = Ok r.
Proof. destruct b; eauto. Qed.

Lemma parseTimeRange_returns (zone : Zone) (momentParse : str -> option Z)
  (now : Z) (range : TimeRangeInput) :
  exists r, parseTimeRange zone momentParse now range = Ok r.
Proof.
  unfold parseTimeRange.
  match goal with
  | |- exists r, bind ?e _ = _ => assert (Hf : exists p, e = Ok p)
  end.
  { destruct range as [f [t|]]; cbn [from to]; [|eauto].
    destruct (matchRelative t) as [[g1 g2]|]; cbn [isSome].
    - match goal with |- exists p, (if ?b then _ else _) = _ => destruct b end;
        eauto.
    - rewrite andb_false_r. cbn [andb]. eauto. }
  destruct Hf as [[finalFrom finalTo] ->]. cbn [bind].
  apply if_Ok_returns.
Qed.

(** ** Ordering of the resolved range *)

(** C1 (evaluation at the failing input): with the clock at
    2026-11-03T12:00:00Z, [from = "-150000w"] and [to = "-110000w"] resolve
    to instants in the years -0848 and -0082; their texts compare the wrong
    way round, so the resolver swaps a pair that was already in order and
    returns a [from] that is the later instant. *)
Theorem swap_compares_text_not_instants (momentParse : str -> option Z) :
  let fromInstant := (clock2026 - 150000 * unitMs weeks)%Z in
  let toInstant := (clock2026 - 110000 * unitMs weeks)%Z in
  subtract utc (Some clock2026) 150000 (Some weeks) = Some fromInstant /\
  subtract utc (Some clock2026) 110000 (Some weeks) = Some toInstant /\
  (fromInstant < toInstant)%Z /\
  fmt utc (Some fromInstant) = lit "-0848-01-15T12:00:00+00:00" /\
  fmt utc (Some toInstant) = lit "-0082-08-27T12:00:00+00:00" /\
  parseTimeRange utc momentParse clock2026
    (mkInput (Some (lit "-150000w")) (Some (lit "-110000w")))
  = Ok (mkResolved (Some (fmt utc (Some toInstant)))
                   (Some (fmt utc (Some fromInstant)))).
Proof.
  cbv zeta. split; [vm_compute; reflexivity|].
  split; [vm_compute; reflexivity|]. split; [reflexivity|].
  split; [vm_compute; reflexivity|].
  split; vm_compute; reflexivity.
Qed.

(** ** Masking: evaluations *)

(** C3 (evaluation at the failing input): the URL guard looks at the first
    occurrence of the matched text, not at the match itself.  The second
    occurrence of the number lies in a URL path (the text before it ends
    with an unterminated [http://] fragment), yet it is redacted; with the
    two occurrences the other way round, the free-standing number, ten
    digits long, is kept. *)
Theorem url_guard_checks_first_occurrence :
  test urlPrefixRegex (firstn 20 numberThenUrl) = true /\
  skipn 20 numberThenUrl = lit "5551234567" /\
  isPartOfUrl (lit "5551234567") numberThenUrl = false /\
  maskSensitiveInfo 2 None numberThenUrl
  = Some (lit "[PHONE REDACTED] http://a/[PHONE REDACTED]") /\
  maskSensitiveInfo 2 None urlThenNumber = Some urlThenNumber.
Proof. repeat split; vm_compute; reflexivity. Qed.



(** ** Soundness of the matcher

    Whatever a matcher returns comes from its continuation, called at a
    position reached by reading a prefix of the input. *)

Lemma lastOr_app (prev : option ascii) (m1 m2 : str) :
  lastOr prev (m1 ++ m2) = lastOr (lastOr prev m1) m2.
Proof. revert prev; induction m1 as [|c m1 IH]; intros; simpl; auto. Qed.

Lemma In_allAscii (c : ascii) : In c allAscii.
Proof.
  unfold allAscii. rewrite <- (ascii_nat_embedding c).
  apply in_map, in_seq. pose proof (nat_ascii_bounded c). lia.
Qed.

Section MatcherSound.

Variable P : ascii -> bool.
Variable ic : bool.

Lemma repeatMatcher_sound body nb (Hb : SoundBody P body nb) :
  forall fuel greedy min max prev s k res,
    repeatMatcher body fuel greedy min max prev s k = Some res ->
    exists m s',
      s = (m ++ s')%list /\ k (lastOr prev m) s' = Some res /\
      ((0 <? min)%nat && repOk min max && nb = true -> existsb P m = true).
Proof.
  induction fuel as [|fuel IH]; intros greedy min max prev s k res H;
    [discriminate|].
  assert (Hstop : k prev s = Some res -> (min = 0)%nat \/ max = Some 0%nat ->
    exists m s',
      s = (m ++ s')%list /\ k (lastOr prev m) s' = Some res /\
      ((0 <? min)%nat && repOk min max && nb = true -> existsb P m = true)).
  { intros Hk Hm. exists [], s. repeat split; auto.
    intros Hn. apply andb_true_iff in Hn as [Hn _].
    apply andb_true_iff in Hn as [Hpos Hok].
    apply Nat.ltb_lt in Hpos.
    destruct Hm as [->| ->]; [lia|]. simpl in Hok. apply Nat.leb_le in Hok. lia. }
  assert (Hiter :
    body prev s (fun prev' s' =>
      if (min =? 0)%nat && (List.length s' =? List.length s)%nat then None
      else repeatMatcher body fuel greedy (Nat.pred min)
             (option_map Nat.pred max) prev' s' k) = Some res ->
    exists m s',
      s = (m ++ s')%list /\ k (lastOr prev m) s' = Some res /\
      ((0 <? min)%nat && repOk min max && nb = true -> existsb P m = true)).
  { intros Hi. apply Hb in Hi as (m1 & s1 & -> & Hk & Hp).
    destruct ((min =? 0)%nat && _); [discriminate|].
    apply IH in Hk as (m2 & s2 & -> & Hk & _).
    exists (m1 ++ m2)%list, s2. rewrite lastOr_app, app_assoc.
    repeat split; auto.
    intros Hn. apply andb_true_iff in Hn as [_ Hn].
    rewrite existsb_app, (Hp Hn). reflexivity. }
  simpl in H.
  destruct max as [[|mx]|]; [apply Hstop; auto| |].
  - destruct min as [|min']; [|apply Hiter; exact H].
    destruct greedy.
    + match type of H with
      | match ?e with _ => _ end = _ => destruct e eqn:E
      end; [apply Hiter; congruence | apply Hstop; auto].
    + destruct (k prev s) eqn:E; [apply Hstop; [congruence | auto] |].
      apply Hiter; exact H.
  - destruct min as [|min']; [|apply Hiter; exact H].
    destruct greedy.
    + match type of H with
      | match ?e with _ => _ end = _ => destruct e eqn:E
      end; [apply Hiter; congruence | apply Hstop; auto].
    + destruct (k prev s) eqn:E; [apply Hstop; [congruence | auto] |].
      apply Hiter; exact H.
Qed.

Lemma matcher_sound (r : regex) : SoundBody P (matcher ic r) (needs P ic r).
Proof.
  induction r as [| negated items | | | r1 IH1 r2 IH2 | r1 IH1 r2 IH2
                 | greedy min max r1 IH1];
    intros prev s k res H; cbn [matcher] in H.
  - exists [], s; repeat split; auto; discriminate.
  - destruct s as [|c s']; [discriminate|].
    destruct (classHas ic negated items c) eqn:Hc; [|discriminate].
    exists [c], s'; repeat split; auto.
    cbn [needs]; intros Hn. rewrite forallb_forall in Hn.
    specialize (Hn c (In_allAscii c)). rewrite Hc in Hn. simpl in Hn.
    cbn [existsb]. now rewrite Hn.
  - destruct (xorb _ _); [|discriminate].
    exists [], s; repeat split; auto; discriminate.
  - destruct s; [|discriminate].
    exists [], []; repeat split; auto; discriminate.
  - apply IH1 in H as (m1 & s1 & -> & Hk & Hp1).
    apply IH2 in Hk as (m2 & s2 & -> & Hk & Hp2).
    exists (m1 ++ m2)%list, s2. rewrite lastOr_app, app_assoc.
    repeat split; auto.
    cbn [needs]; intros Hn. rewrite existsb_app.
    apply orb_true_iff in Hn as [Hn|Hn]; [rewrite (Hp1 Hn)|rewrite (Hp2 Hn)];
      auto using orb_true_r.
  - destruct (matcher ic r1 prev s k) eqn:E.
    + injection H as ->. apply IH1 in E as (m & s' & -> & Hk & Hp).
      exists m, s'; repeat split; auto.
      cbn [needs]; intros Hn. apply andb_true_iff in Hn as [Hn _]; auto.
    + apply IH2 in H as (m & s' & -> & Hk & Hp).
      exists m, s'; repeat split; auto.
      cbn [needs]; intros Hn. apply andb_true_iff in Hn as [_ Hn]; auto.
  - apply (repeatMatcher_sound _ _ IH1) in H as (m & s' & -> & Hk & Hp).
    exists m, s'; repeat split; auto.
Qed.

End MatcherSound.

(** *** The iteration bound of a repetition is never reached

    A matcher only calls its continuation at or behind the current position,
    so a repetition makes at most [min] iterations plus one per remaining
    character: more fuel than [S (min + length s)] changes nothing. *)

Lemma repeatMatcher_forward body (Hb : Forward body) :
  forall fuel greedy min max, Forward (fun prev s k =>
    repeatMatcher body fuel greedy min max prev s k).
Proof.
  induction fuel as [|fuel IH]; intros greedy min max prev s k1 k2 Hk;
    [reflexivity|].
  cbn [repeatMatcher].
  assert (Hi :
    body prev s (fun prev' s' =>
      if (min =? 0)%nat && (List.length s' =? List.length s)%nat then None
      else repeatMatcher body fuel greedy (Nat.pred min)
             (option_map Nat.pred max) prev' s' k1)
    = body prev s (fun prev' s' =>
      if (min =? 0)%nat && (List.length s' =? List.length s)%nat then None
      else repeatMatcher body fuel greedy (Nat.pred min)
             (option_map Nat.pred max) prev' s' k2)).
  { apply Hb. intros prev' s' Hs'.
    destruct ((min =? 0)%nat && _); [reflexivity|].
    apply (IH greedy (Nat.pred min) (option_map Nat.pred max)).
    intros p t Ht. apply Hk. lia. }
  rewrite Hi, (Hk prev s (le_n _)). reflexivity.
Qed.

Lemma matcher_forward (ic : bool) (r : regex) : Forward (matcher ic r).
Proof.
  induction r as [| negated items | | | r1 IH1 r2 IH2 | r1 IH1 r2 IH2
                 | greedy min max r1 IH1];
    intros prev s k1 k2 Hk; cbn [matcher].
  - apply Hk; lia.
  - destruct s as [|c s']; [reflexivity|].
    destruct (classHas ic negated items c); [|reflexivity].
    apply Hk. simpl. lia.
  - destruct (xorb _ _); [apply Hk; lia|reflexivity].
  - destruct s; [apply Hk; lia|reflexivity].
  - apply IH1. intros p1 s1 H1. apply IH2. intros p2 s2 H2. apply Hk. lia.
  - rewrite (IH1 prev s k1 k2 Hk), (IH2 prev s k1 k2 Hk). reflexivity.
  - apply (repeatMatcher_forward _ IH1). exact Hk.
Qed.

Lemma repeatMatcher_fuel body (Hb : Forward body) :
  forall fuel1 fuel2 greedy min max prev s k,
    (min + List.length s < fuel1)%nat ->
    (min + List.length s < fuel2)%nat ->
    repeatMatcher body fuel1 greedy min max prev s k
    = repeatMatcher body fuel2 greedy min max prev s k.
Proof.
  induction fuel1 as [|fuel1 IH]; intros fuel2 greedy min max prev s k H1 H2;
    [lia|].
  destruct fuel2 as [|fuel2]; [lia|]. cbn [repeatMatcher].
  assert (Hi :
    body prev s (fun prev' s' =>
      if (min =? 0)%nat && (List.length s' =? List.length s)%nat then None
      else repeatMatcher body fuel1 greedy (Nat.pred min)
             (option_map Nat.pred max) prev' s' k)
    = body prev s (fun prev' s' =>
      if (min =? 0)%nat && (List.length s' =? List.length s)%nat then None
      else repeatMatcher body fuel2 greedy (Nat.pred min)
             (option_map Nat.pred max) prev' s' k)).
  { apply Hb. intros prev' s' Hs'.
    destruct ((min =? 0)%nat && (List.length s' =? List.length s)%nat) eqn:E;
      [reflexivity|].
    apply IH.
    - apply andb_false_iff in E as [E|E];
        [apply Nat.eqb_neq in E | apply Nat.eqb_neq in E]; lia.
    - apply andb_false_iff in E as [E|E];
        [apply Nat.eqb_neq in E | apply Nat.eqb_neq in E]; lia. }
  rewrite Hi. reflexivity.
Qed.

(** The repetition of the matcher equals the repetition with any larger
    iteration bound. *)
Lemma matcher_Rep_fuel (ic greedy : bool) (min : nat) (max : option nat)
  (r : regex) (prev : option ascii) (s : str) (k : Cont) (extra : nat) :
  matcher ic (Rep greedy min max r) prev s k
  = repeatMatcher (matcher ic r) (S (min + List.length s) + extra)
      greedy min max prev s k.
Proof.
  cbn [matcher]. apply (repeatMatcher_fuel _ (matcher_forward ic r)); lia.
Qed.

Lemma endsWordB_sound (P : ascii -> bool) (ic : bool) (r : regex) :
  endsWordB r = true ->
  forall prev s k res,
    matcher ic r prev s k = Some res ->
    exists m s',
      s = (m ++ s')%list /\ k (lastOr prev m) s' = Some res /\
      xorb (isWordAt (lastOr prev m)) (isWordAt (hd_error s')) = true /\
      (needs P ic r = true -> existsb P m = true).
Proof.
  induction r as [| | | | r1 _ r2 IH2 | |]; intros He; try discriminate He;
    intros prev s k res H; cbn [matcher] in H.
  - destruct (xorb _ _) eqn:Hx; [|discriminate].
    exists [], s; repeat split; auto; discriminate.
  - apply (matcher_sound P ic) in H as (m1 & s1 & -> & Hk & Hp1).
    apply (IH2 He) in Hk as (m2 & s2 & -> & Hk & Hx & Hp2).
    exists (m1 ++ m2)%list, s2. rewrite lastOr_app, app_assoc.
    repeat split; auto.
    cbn [needs]; intros Hn. rewrite existsb_app.
    apply orb_true_iff in Hn as [Hn|Hn]; [rewrite (Hp1 Hn)|rewrite (Hp2 Hn)];
      auto using orb_true_r.
Qed.

Lemma app_length_minus (m s' : str) :
  (List.length (m ++ s') - List.length s')%nat = List.length m.
Proof. rewrite length_app. lia. Qed.

(** A match at a position reads a prefix of the remaining input. *)
Lemma matchAt_sound (P : ascii -> bool) (re : RegExp) (prev : option ascii)
  (s : str) (n : nat) :
  matchAt re prev s = Some n ->
  exists m s',
    s = (m ++ s')%list /\ n = List.length m /\
    (needs P (ignoreCase re) (body re) = true -> existsb P m = true).
Proof.
  unfold matchAt. destruct (matcher _ _ _ _ _) as [rest|] eqn:E; [|discriminate].
  intros [= <-]. apply (matcher_sound P _) in E as (m & s' & -> & [= <-] & Hp).
  exists m, s'. rewrite app_length_minus. auto.
Qed.

(** A match of a pattern of the shape [\b ... \b] starts and ends at a word
    boundary. *)
Lemma matchAt_bounded (P : ascii -> bool) (re : RegExp) (prev : option ascii)
  (s : str) (n : nat) :
  bounded (body re) = true ->
  matchAt re prev s = Some n ->
  exists m s',
    s = (m ++ s')%list /\ n = List.length m /\
    xorb (isWordAt prev) (isWordAt (hd_error s)) = true /\
    xorb (isWordAt (lastOr prev m)) (isWordAt (hd_error s')) = true /\
    (needs P (ignoreCase re) (body re) = true -> existsb P m = true).
Proof.
  unfold matchAt, bounded. destruct re as [r ic]; cbn [body ignoreCase].
  destruct r as [| | | | r1 r2 | |]; try discriminate.
  destruct r1; try discriminate. intros He.
  destruct (matcher _ _ _ _ _) as [rest|] eqn:E; [|discriminate].
  intros [= <-]. cbn [matcher] in E.
  destruct (xorb (isWordAt prev) _) eqn:Hx; [|discriminate].
  apply (endsWordB_sound P _ _ He) in E as (m & s' & -> & [= <-] & Hx' & Hp).
  exists m, s'. rewrite app_length_minus. repeat split; auto.
Qed.

Lemma firstn_app_length (m s' : str) : firstn (List.length m) (m ++ s') = m.
Proof.
  rewrite firstn_app, Nat.sub_diag, firstn_all. simpl. apply app_nil_r.
Qed.

Lemma skipn_app_length (m s' : str) : skipn (List.length m) (m ++ s') = s'.
Proof.
  rewrite skipn_app, Nat.sub_diag, skipn_all. reflexivity.
Qed.

(** ** Structure of a global replacement *)

Section ReplaceStructure.

Variable re : RegExp.
Variable f : str -> nat -> str -> str.
Variable whole : str.

Lemma replaceFrom_skip (k : nat) :
  forall s prev off,
    (k <= List.length s)%nat ->
    replaceFrom re f whole prev s off k
    = replaceFrom re f whole (lastOr prev (firstn k s)) (skipn k s) (off + k) 0.
Proof.
  induction k as [|k IH]; intros s prev off Hk.
  - simpl. now rewrite Nat.add_0_r.
  - destruct s as [|c s']; simpl in Hk; [lia|].
    cbn [replaceFrom firstn skipn lastOr].
    rewrite IH by lia. now rewrite Nat.add_succ_r.
Qed.

(** After a non-empty match [m] the replacement continues behind it. *)
Lemma replaceFrom_match (prev : option ascii) (m s' : str) (off : nat) :
  m <> [] ->
  matchAt re prev (m ++ s') = Some (List.length m) ->
  replaceFrom re f whole prev (m ++ s') off 0
  = (f m off whole
       ++ replaceFrom re f whole (lastOr prev m) s' (off + List.length m) 0)%list.
Proof.
  intros Hne Hm. destruct m as [|c m']; [congruence|].
  pose proof (firstn_app_length (c :: m') s') as F.
  cbn [app List.length] in Hm, F |- *. cbn [replaceFrom].
  rewrite Hm, F.
  rewrite replaceFrom_skip by (rewrite length_app; lia).
  rewrite firstn_app_length, skipn_app_length.
  cbn [lastOr]. now rewrite Nat.add_succ_r.
Qed.

(** Where no match of the pattern can start, nothing is replaced. *)
Lemma replaceFrom_no_match (Q : ascii -> bool) :
  needs Q (ignoreCase re) (body re) = true ->
  forall s prev off,
    existsb Q s = false ->
    replaceFrom re f whole prev s off 0 = s.
Proof.
  intros Hn.
  assert (Hnone : forall prev s, existsb Q s = false -> matchAt re prev s = None).
  { intros prev s Hs. destruct (matchAt re prev s) as [n|] eqn:E; [|reflexivity].
    apply (matchAt_sound Q) in E as (m & s' & -> & _ & Hp).
    rewrite existsb_app, (Hp Hn) in Hs. discriminate. }
  induction s as [|c s IH]; intros prev off Hs; cbn [replaceFrom].
  - now rewrite Hnone.
  - rewrite Hnone by exact Hs. f_equal. apply IH.
    simpl in Hs. now apply orb_false_iff in Hs.
Qed.

End ReplaceStructure.

(** ** Digit runs *)

Lemma runsFrom_app (b : bool) (m x : str) :
  runsFrom b (m ++ x) = (runsFrom b m + runsFrom (lastDigit b m) x)%nat.
Proof.
  revert b; induction m as [|c m IH]; intros b; cbn [app runsFrom lastDigit].
  - reflexivity.
  - rewrite IH. lia.
Qed.

Lemma lastDigit_lastOr (prev : option ascii) (m : str) :
  lastDigit (isDigitAt prev) m = isDigitAt (lastOr prev m).
Proof.
  revert prev; induction m as [|c m IH]; intros prev; cbn [lastDigit lastOr].
  - reflexivity.
  - apply (IH (Some c)).
Qed.

Lemma lastDigit_nonempty (b b' : bool) (m : str) :
  m <> [] -> lastDigit b m = lastDigit b' m.
Proof. destruct m; [congruence|reflexivity]. Qed.

Lemma runsFrom_no_digit (b : bool) (r : str) :
  existsb isDigit r = false -> runsFrom b r = 0%nat.
Proof.
  revert b; induction r as [|c r IH]; intros b H; cbn [runsFrom]; auto.
  simpl in H. apply orb_false_iff in H as [Hc Hr].
  rewrite Hc, (IH _ Hr). reflexivity.
Qed.

Lemma lastDigit_no_digit (b : bool) (r : str) :
  r <> [] -> existsb isDigit r = false -> lastDigit b r = false.
Proof.
  revert b; induction r as [|c r IH]; intros b Hne H; [congruence|].
  simpl in H. apply orb_false_iff in H as [Hc Hr]. cbn [lastDigit].
  destruct r as [|c' r']; [exact Hc|]. apply IH; [discriminate|exact Hr].
Qed.

Lemma runsFrom_head (b b' : bool) (x : str) :
  isDigitAt (hd_error x) = false -> runsFrom b x = runsFrom b' x.
Proof.
  destruct x as [|c x]; cbn [runsFrom hd_error isDigitAt]; auto.
  intros ->. reflexivity.
Qed.

Lemma runsFrom_pos (b : bool) (m : str) :
  existsb isDigit m = true ->
  b && isDigitAt (hd_error m) = false ->
  (1 <= runsFrom b m)%nat.
Proof.
  revert b; induction m as [|c m IH]; intros b He Hb; [discriminate|].
  cbn [runsFrom hd_error isDigitAt] in *.
  destruct (isDigit c) eqn:Hc.
  - destruct b; [discriminate|]. simpl. lia.
  - simpl in He. rewrite Hc in He. simpl in He.
    assert (1 <= runsFrom false m)%nat by (apply IH; auto).
    simpl. lia.
Qed.

Lemma isDigit_isWord (c : option ascii) : isDigitAt c = true -> isWordAt c = true.
Proof.
  destruct c as [c|]; [|discriminate]. cbn [isDigitAt isWordAt].
  unfold isWord. now intros ->.
Qed.

Lemma boundary_not_both_digits (p q : option ascii) :
  xorb (isWordAt p) (isWordAt q) = true -> isDigitAt p && isDigitAt q = false.
Proof.
  intros Hx. destruct (isDigitAt p) eqn:Hp; [|reflexivity].
  destruct (isDigitAt q) eqn:Hq; [|reflexivity].
  rewrite (isDigit_isWord _ Hp), (isDigit_isWord _ Hq) in Hx. discriminate.
Qed.

Lemma hd_error_app_nonempty (m x : str) :
  m <> [] -> hd_error (m ++ x) = hd_error m.
Proof. destruct m; [congruence|reflexivity]. Qed.

(** ** Digit runs under a global replacement

    A replacement whose pattern has the shape [\b ... \b], whose matches are
    never empty, and whose callback either keeps a match or puts a digit-free
    placeholder in its place, never adds a digit run; when it changes the
    text and every replaced match holds a digit, it removes one. *)
Section ReplaceMeasure.

Variable re : RegExp.
Variable f : str -> nat -> str -> str.
Variable whole : str.
Variable placeholder : str.
Variable Q : ascii -> bool.

Hypothesis Hbounded : bounded (body re) = true.
Hypothesis Hneeds : needs Q (ignoreCase re) (body re) = true.
Hypothesis Hplace : placeholder <> [] /\ existsb isDigit placeholder = false.
Hypothesis Hf : forall m off, f m off whole = m \/ f m off whole = placeholder.

Lemma match_shape (prev : option ascii) (s : str) (n : nat) :
  matchAt re prev s = Some n ->
  exists m s',
    s = (m ++ s')%list /\ m <> [] /\
    matchAt re prev (m ++ s') = Some (List.length m) /\
    xorb (isWordAt prev) (isWordAt (hd_error m)) = true /\
    xorb (isWordAt (lastOr prev m)) (isWordAt (hd_error s')) = true.
Proof.
  intros E. pose proof E as E'.
  apply (matchAt_bounded Q _ _ _ _ Hbounded) in E
    as (m & s' & -> & -> & Hs & He & Hq).
  assert (Hne : m <> []).
  { intros ->. specialize (Hq Hneeds). discriminate. }
  exists m, s'. repeat split; auto.
  now rewrite hd_error_app_nonempty in Hs.
Qed.

Lemma replaceFrom_head (s : str) (prev : option ascii) (off : nat) :
  isDigitAt (hd_error (replaceFrom re f whole prev s off 0)) = true ->
  isDigitAt (hd_error s) = true.
Proof.
  destruct (matchAt re prev s) as [n|] eqn:E.
  - apply match_shape in E as (m & s' & -> & Hne & Hm & _ & _).
    rewrite replaceFrom_match by assumption.
    rewrite (hd_error_app_nonempty m s' Hne).
    destruct (Hf m off) as [-> | ->].
    + now rewrite hd_error_app_nonempty.
    + destruct Hplace as [Hp Hd]. rewrite hd_error_app_nonempty by assumption.
      destruct placeholder as [|c r]; [congruence|].
      simpl in Hd. apply orb_false_iff in Hd as [Hc _].
      cbn [hd_error isDigitAt]. congruence.
  - destruct s as [|c s]; cbn [replaceFrom]; rewrite E; auto.
Qed.

Lemma replaced_tail_bound (b : bool) (prev : option ascii) (m s' rec : str) :
  m <> [] ->
  xorb (isWordAt (lastOr prev m)) (isWordAt (hd_error s')) = true ->
  (isDigitAt (hd_error rec) = true -> isDigitAt (hd_error s') = true) ->
  (forall b', runsFrom b' rec <= runsFrom b' s')%nat ->
  (runsFrom b (placeholder ++ rec) <= runsFrom (lastDigit b m) s')%nat.
Proof.
  intros Hne He Hhead IH. destruct Hplace as [Hp Hd].
  rewrite runsFrom_app, (runsFrom_no_digit _ _ Hd), (lastDigit_no_digit b _ Hp Hd).
  cbn [Nat.add].
  destruct (lastDigit b m) eqn:Hl; [|apply IH].
  rewrite (lastDigit_nonempty b (isDigitAt prev) _ Hne), lastDigit_lastOr in Hl.
  apply boundary_not_both_digits in He. rewrite Hl in He. cbn [andb] in He.
  assert (Hr : isDigitAt (hd_error rec) = false).
  { destruct (isDigitAt (hd_error rec)); [|reflexivity].
    rewrite Hhead in He; auto. }
  rewrite (runsFrom_head false true _ Hr). apply IH.
Qed.

Lemma replaceFrom_runs_le (len : nat) :
  forall s prev off b,
    (List.length s <= len)%nat ->
    (runsFrom b (replaceFrom re f whole prev s off 0) <= runsFrom b s)%nat.
Proof.
  induction len as [|len IH]; intros s prev off b Hlen.
  - destruct s; [|simpl in Hlen; lia].
    destruct (matchAt re prev []) as [n|] eqn:E.
    + apply match_shape in E as (m & s' & Hs & Hne & _).
      destruct m; [congruence|discriminate].
    + cbn [replaceFrom]. rewrite E. auto.
  - destruct (matchAt re prev s) as [n|] eqn:E.
    + apply match_shape in E as (m & s' & -> & Hne & Hm & _ & He).
      rewrite replaceFrom_match by assumption.
      assert (Hs' : (List.length s' <= len)%nat).
      { rewrite length_app in Hlen. destruct m; [congruence|]. simpl in Hlen. lia. }
      rewrite (runsFrom_app b m s').
      destruct (Hf m off) as [-> | ->].
      * rewrite runsFrom_app. apply Nat.add_le_mono_l. now apply IH.
      * etransitivity; [|apply Nat.le_add_l].
        apply replaced_tail_bound with (prev := prev);
          [exact Hne | exact He | apply replaceFrom_head
          | intros b'; now apply IH].
    + destruct s as [|c s]; cbn [replaceFrom]; rewrite E; [auto|].
      cbn [runsFrom]. apply Nat.add_le_mono_l. apply IH. simpl in Hlen. lia.
Qed.

Hypothesis Hdigit :
  forall m off, f m off whole <> m -> existsb isDigit m = true.

Lemma replaceFrom_runs_lt (len : nat) :
  forall s prev off,
    (List.length s <= len)%nat ->
    replaceFrom re f whole prev s off 0 <> s ->
    (runsFrom (isDigitAt prev) (replaceFrom re f whole prev s off 0)
     < runsFrom (isDigitAt prev) s)%nat.
Proof.
  induction len as [|len IH]; intros s prev off Hlen Hch.
  - destruct s; [|simpl in Hlen; lia].
    destruct (matchAt re prev []) as [n|] eqn:E.
    + apply match_shape in E as (m & s' & Hs & Hne & _).
      destruct m; [congruence|discriminate].
    + cbn [replaceFrom] in Hch. rewrite E in Hch. congruence.
  - destruct (matchAt re prev s) as [n|] eqn:E.
    + apply match_shape in E as (m & s' & -> & Hne & Hm & Hs & He).
      rewrite replaceFrom_match in Hch |- * by assumption.
      assert (Hs' : (List.length s' <= len)%nat).
      { rewrite length_app in Hlen. destruct m; [congruence|]. simpl in Hlen. lia. }
      rewrite (runsFrom_app (isDigitAt prev) m s').
      destruct (list_eq_dec ascii_dec (f m off whole) m) as [Hk|Hr].
      * rewrite Hk in Hch |- *. rewrite runsFrom_app.
        apply Nat.add_lt_mono_l. rewrite lastDigit_lastOr. apply IH; auto.
        intros Heq. apply Hch. now rewrite Heq.
      * destruct (Hf m off) as [Hk | Hp]; [congruence|]. rewrite Hp.
        assert (1 <= runsFrom (isDigitAt prev) m)%nat.
        { apply runsFrom_pos; [eapply Hdigit; eauto|].
          now apply boundary_not_both_digits. }
        assert (runsFrom (isDigitAt prev)
                  (placeholder ++ replaceFrom re f whole (lastOr prev m) s'
                                    (off + List.length m) 0)
                <= runsFrom (lastDigit (isDigitAt prev) m) s')%nat.
        { apply replaced_tail_bound with (prev := prev);
            [exact Hne | exact He | apply replaceFrom_head
            | intros b'; now apply (replaceFrom_runs_le len)]. }
        lia.
    + destruct s as [|c s]; cbn [replaceFrom] in Hch |- *; rewrite E in Hch |- *;
        [congruence|].
      cbn [runsFrom]. apply Nat.add_lt_mono_l.
      apply (IH s (Some c)); [simpl in Hlen; lia|congruence].
Qed.

End ReplaceMeasure.

(** ** The phone pass and the digit runs *)

Lemma strip_non_digits (whole : str) :
  forall s prev off,
    replaceFrom (mkRegExp nonDigit false) (fun _ _ _ => []) whole prev s off 0
    = filter isDigit s.
Proof.
  induction s as [|c s IH]; intros prev off; [reflexivity|].
  cbn [replaceFrom filter].
  unfold matchAt; cbn [body ignoreCase nonDigit matcher].
  unfold classHas; cbn [existsb itemHas]. rewrite orb_false_r.
  destruct (isDigit c); cbn [xorb negb].
  - f_equal. apply IH.
  - replace (List.length (c :: s) - List.length s)%nat with 1%nat
      by (cbn [List.length]; lia).
    cbn [app]. apply IH.
Qed.

Lemma isLikelyPhoneNumber_digits (s : str) :
  isLikelyPhoneNumber s
  = ((7 <=? List.length (filter isDigit s))%nat
     && (List.length (filter isDigit s) <=? 15)%nat).
Proof.
  unfold isLikelyPhoneNumber, replaceWith, replace.
  now rewrite strip_non_digits.
Qed.

Lemma filter_no_digit (s : str) :
  existsb isDigit s = false -> filter isDigit s = [].
Proof.
  induction s as [|c s IH]; [reflexivity|]. simpl.
  intros H. apply orb_false_iff in H as [-> Hs]. auto.
Qed.

Lemma phoneReplacer_cases (m : str) (off : nat) (whole : str) :
  phoneReplacer m off whole = m \/ phoneReplacer m off whole = PHONE_REDACTED.
Proof.
  unfold phoneReplacer.
  destruct (isPartOfUrl m whole); auto.
  destruct (isLikelyPhoneNumber m); auto.
Qed.

Lemma phoneReplacer_digit (m : str) (off : nat) (whole : str) :
  phoneReplacer m off whole <> m -> existsb isDigit m = true.
Proof.
  unfold phoneReplacer. destruct (isPartOfUrl m whole); [congruence|].
  rewrite isLikelyPhoneNumber_digits.
  destruct (existsb isDigit m) eqn:E; [reflexivity|].
  rewrite (filter_no_digit m E). cbn. congruence.
Qed.

Lemma PHONE_REDACTED_shape :
  PHONE_REDACTED <> [] /\ existsb isDigit PHONE_REDACTED = false.
Proof. split; [discriminate|reflexivity]. Qed.

Lemma phonePatterns_numeric : Forall numeric phonePatterns.
Proof.
  apply Forall_forall. intros p Hp.
  assert (H : forallb (fun p => bounded (body p)
                        && needs isDigit (ignoreCase p) (body p))
                phonePatterns = true) by (vm_compute; reflexivity).
  rewrite forallb_forall in H. specialize (H p Hp).
  apply andb_true_iff in H. exact H.
Qed.

Lemma phone_replace_runs (p : RegExp) (s : str) :
  numeric p ->
  (digitRuns (replace p phoneReplacer s) <= digitRuns s)%nat /\
  (replace p phoneReplacer s <> s ->
   (digitRuns (replace p phoneReplacer s) < digitRuns s)%nat).
Proof.
  intros [Hb Hn]. unfold digitRuns, replace. split.
  - apply (replaceFrom_runs_le p phoneReplacer s PHONE_REDACTED isDigit Hb Hn
             PHONE_REDACTED_shape (fun m off => phoneReplacer_cases m off s)
             (List.length s)); auto.
  - apply (replaceFrom_runs_lt p phoneReplacer s PHONE_REDACTED isDigit Hb Hn
             PHONE_REDACTED_shape (fun m off => phoneReplacer_cases m off s)
             (fun m off => phoneReplacer_digit m off s)
             (List.length s) s None 0); auto.
Qed.

Lemma phone_fold_runs (l : list RegExp) :
  Forall numeric l ->
  forall s,
    let out := fold_left (fun text p => replace p phoneReplacer text) l s in
    (digitRuns out <= digitRuns s)%nat /\
    (out <> s -> (digitRuns out < digitRuns s)%nat).
Proof.
  induction 1 as [|p l Hp _ IH]; intros s; cbn [fold_left].
  - split; [lia|congruence].
  - destruct (phone_replace_runs p s Hp) as [Hle Hlt].
    destruct (IH (replace p phoneReplacer s)) as [Hle' Hlt'].
    cbv zeta in *. split; [lia|].
    intros Hch.
    destruct (list_eq_dec ascii_dec (replace p phoneReplacer s) s) as [E|E].
    + rewrite E in *. auto.
    + specialize (Hlt E). lia.
Qed.

(** One phone pass never adds a digit run, and removes one when it changes
    the text. *)
Lemma phonePass_runs (s : str) :
  (digitRuns (phonePass s) <= digitRuns s)%nat /\
  (phonePass s <> s -> (digitRuns (phonePass s) < digitRuns s)%nat).
Proof. apply (phone_fold_runs phonePatterns phonePatterns_numeric s). Qed.

(** ** The re-scan loop *)

Lemma str_eqb_neq (a b : str) : a <> b -> str_eqb a b = false.
Proof.
  intros H. destruct (str_eqb a b) eqn:E; [|reflexivity].
  apply str_eqb_eq in E. contradiction.
Qed.

Lemma phoneLoop_mono (f f' : nat) :
  (f <= f')%nat ->
  forall prev m r, phoneLoop f prev m = Some r -> phoneLoop f' prev m = Some r.
Proof.
  revert f'; induction f as [|f IH]; intros f' Hle prev m r H.
  - cbn [phoneLoop] in H. destruct (str_eqb prev m) eqn:E; [|discriminate].
    destruct f'; cbn [phoneLoop]; now rewrite E.
  - destruct f' as [|f']; [lia|]. cbn [phoneLoop] in H |- *.
    destruct (str_eqb prev m); [exact H|].
    apply (IH f'); [lia|exact H].
Qed.

Lemma passes_O (m : str) : passes 0 m = m.
Proof. reflexivity. Qed.

Lemma passes_S (n : nat) (m : str) : passes (S n) m = passes n (phonePass m).
Proof. reflexivity. Qed.

Lemma phoneLoop_S (fuel : nat) (prev m : str) :
  phoneLoop (S fuel) prev m
  = if str_eqb prev m then Some m else phoneLoop fuel m (phonePass m).
Proof. reflexivity. Qed.

Lemma phoneLoop_O (prev m : str) :
  phoneLoop 0 prev m = if str_eqb prev m then Some m else None.
Proof. reflexivity. Qed.

Lemma changes_shift (n : nat) (m : str) :
  (forall i, (i < S n)%nat -> passes (S i) m <> passes i m) ->
  m <> phonePass m /\
  (forall i, (i < n)%nat ->
     passes (S i) (phonePass m) <> passes i (phonePass m)).
Proof.
  intros Hch. split.
  - intros E. apply (Hch 0%nat); [lia|]. rewrite passes_S, !passes_O. congruence.
  - intros i Hi. rewrite <- !passes_S. apply Hch. lia.
Qed.

(** While the text keeps changing the loop keeps running. *)
Lemma phoneLoop_running (n : nat) :
  forall prev m,
    prev <> m ->
    (forall i, (i < n)%nat -> passes (S i) m <> passes i m) ->
    phoneLoop n prev m = None.
Proof.
  induction n as [|n IH]; intros prev m Hne Hch.
  - now rewrite phoneLoop_O, (str_eqb_neq _ _ Hne).
  - rewrite phoneLoop_S, (str_eqb_neq _ _ Hne).
    destruct (changes_shift n m Hch) as [Hne' Hch']. now apply IH.
Qed.

(** The loop exits at the first pass that changes nothing. *)
Lemma phoneLoop_exit (n : nat) :
  forall prev m,
    prev <> m ->
    (forall i, (i < n)%nat -> passes (S i) m <> passes i m) ->
    phonePass (passes n m) = passes n m ->
    phoneLoop (S n) prev m = Some (passes n m).
Proof.
  induction n as [|n IH]; intros prev m Hne Hch Hst.
  - rewrite passes_O in *.
    rewrite phoneLoop_S, (str_eqb_neq _ _ Hne), phoneLoop_O, Hst, str_eqb_refl.
    reflexivity.
  - rewrite phoneLoop_S, (str_eqb_neq _ _ Hne), passes_S.
    destruct (changes_shift n m Hch) as [Hne' Hch'].
    rewrite passes_S in Hst. now apply IH.
Qed.

(** Every text reaches a fixed point of the phone pass after at most as
    many changing passes as it has digit runs. *)
Lemma passes_converge (k : nat) :
  forall m,
    (digitRuns m <= k)%nat ->
    exists n,
      (n <= digitRuns m)%nat /\
      (forall i, (i < n)%nat -> passes (S i) m <> passes i m) /\
      phonePass (passes n m) = passes n m.
Proof.
  induction k as [|k IH]; intros m Hk;
    destruct (list_eq_dec ascii_dec (phonePass m) m) as [E|E];
    try (exists 0%nat; repeat split; [lia | intros i Hi; lia | exact E]).
  - destruct (phonePass_runs m) as [_ Hlt]. specialize (Hlt E). lia.
  - destruct (phonePass_runs m) as [_ Hlt]. specialize (Hlt E).
    destruct (IH (phonePass m)) as (n & Hn & Hch & Hst); [lia|].
    exists (S n). repeat split; [lia| |rewrite passes_S; exact Hst].
    intros [|i] Hi.
    + rewrite passes_S, !passes_O. exact E.
    + pose proof (Hch i ltac:(lia)) as H. rewrite <- !passes_S in H. exact H.
Qed.

Lemma phonePass_empty : phonePass [] = [].
Proof. reflexivity. Qed.

Lemma phoneLoop_terminates (m : str) :
  exists n,
    (n <= digitRuns m)%nat /\
    (forall i, (i < n)%nat -> passes (S i) m <> passes i m) /\
    phonePass (passes n m) = passes n m /\
    phoneLoop (S n) [] m = Some (passes n m).
Proof.
  destruct (passes_converge (digitRuns m) m (le_n _)) as (n & Hn & Hch & Hst).
  exists n. repeat split; auto.
  destruct m as [|c m].
  - destruct n as [|n]; [reflexivity|].
    exfalso. apply (Hch 0%nat); [lia|].
    now rewrite passes_S, !passes_O, phonePass_empty.
  - apply phoneLoop_exit; auto. discriminate.
Qed.

(** ** The stages before the loop *)

Lemma replaceWith_runs_le (re : RegExp) (placeholder : str) (Q : ascii -> bool)
  (s : str) :
  bounded (body re) = true ->
  needs Q (ignoreCase re) (body re) = true ->
  placeholder <> [] /\ existsb isDigit placeholder = false ->
  (digitRuns (replaceWith re placeholder s) <= digitRuns s)%nat.
Proof.
  intros Hb Hn Hp. unfold digitRuns, replaceWith, replace.
  apply (replaceFrom_runs_le re (fun _ _ _ => placeholder) s placeholder Q
           Hb Hn Hp (fun _ _ => or_intror eq_refl) (List.length s)); auto.
Qed.

Lemma replaceWith_fold_runs_le (placeholder : str) (l : list RegExp) :
  placeholder <> [] /\ existsb isDigit placeholder = false ->
  Forall numeric l ->
  forall s,
    (digitRuns (fold_left (fun t p => replaceWith p placeholder t) l s)
     <= digitRuns s)%nat.
Proof.
  intros Hp. induction 1 as [|p l [Hb Hn] _ IH]; intros s; cbn [fold_left].
  - lia.
  - etransitivity; [apply IH|].
    apply (replaceWith_runs_le p placeholder isDigit s Hb Hn Hp).
Qed.

Lemma creditCardPatterns_numeric : Forall numeric creditCardPatterns.
Proof.
  apply Forall_forall. intros p Hp.
  assert (H : forallb (fun p => bounded (body p)
                        && needs isDigit (ignoreCase p) (body p))
                creditCardPatterns = true) by (vm_compute; reflexivity).
  rewrite forallb_forall in H. specialize (H p Hp).
  apply andb_true_iff in H. exact H.
Qed.

Lemma maskBeforeLoop_runs (text : str) :
  (digitRuns (maskBeforeLoop text) <= digitRuns text)%nat.
Proof.
  unfold maskBeforeLoop.
  etransitivity; [apply phonePass_runs|].
  etransitivity;
    [apply (replaceWith_fold_runs_le CARD_REDACTED creditCardPatterns);
     [split; [discriminate|reflexivity] | apply creditCardPatterns_numeric]|].
  destruct (test emailPattern text); [|lia].
  apply (replaceWith_runs_le emailPattern EMAIL_REDACTED (Ascii.eqb "@") text).
  - reflexivity.
  - vm_compute; reflexivity.
  - split; [discriminate|reflexivity].
Qed.

(** C8: for every input the re-scan loop terminates.  It runs some number
    [n] of passes that each change the text, [n] being at most the number of
    digit runs of the original text, and exits on the next pass, which
    leaves the text unchanged: the result is a fixed point of the phone
    pass. *)
Theorem rescan_loop_terminates (text : str) :
  exists n,
    (n <= digitRuns text)%nat /\
    (forall i, (i < n)%nat ->
       passes (S i) (maskBeforeLoop text) <> passes i (maskBeforeLoop text)) /\
    phonePass (passes n (maskBeforeLoop text)) = passes n (maskBeforeLoop text) /\
    phoneLoop (S n) [] (maskBeforeLoop text)
    = Some (passes n (maskBeforeLoop text)).
Proof.
  destruct (phoneLoop_terminates (maskBeforeLoop text))
    as (n & Hn & Hch & Hst & Hloop).
  exists n. repeat split; auto.
  pose proof (maskBeforeLoop_runs text). lia.
Qed.

(** C6 (as amended): the loop has no iteration cap.  For every [n], if each
    of the first [n] passes changes the text, the loop is still running
    after [n] iterations, and it exits on the first pass that leaves the
    text unchanged. *)
Theorem rescan_loop_has_no_cap (n : nat) (prev m : str) :
  prev <> m ->
  (forall i, (i < n)%nat -> passes (S i) m <> passes i m) ->
  phoneLoop n prev m = None /\
  (phonePass (passes n m) = passes n m ->
   phoneLoop (S n) prev m = Some (passes n m)).
Proof.
  intros Hne Hch. split.
  - now apply phoneLoop_running.
  - intros Hst. now apply phoneLoop_exit.
Qed.

Lemma rescan_loop_has_no_cap_witness :
  phoneLoop 1 [] (lit "a 555.000.1000 b") = None /\
  phoneLoop 2 [] (lit "a 555.000.1000 b") = Some (lit "a [PHONE REDACTED] b").
Proof.
  assert (Hne : [] <> lit "a 555.000.1000 b") by discriminate.
  assert (Hch : forall i, (i < 1)%nat ->
            passes (S i) (lit "a 555.000.1000 b")
            <> passes i (lit "a 555.000.1000 b")).
  { intros i Hi. replace i with 0%nat by lia. vm_compute. discriminate. }
  destruct (rescan_loop_has_no_cap 1 [] (lit "a 555.000.1000 b") Hne Hch)
    as [Hrun Hexit].
  split; [exact Hrun|].
  rewrite Hexit; vm_compute; reflexivity.
Defined.

(** ** The masker returns for every input *)

Lemma maskSensitiveInfo_returns (env : option str) (text : str) :
  exists r, maskSensitiveInfo (S (digitRuns text)) env text = Some r.
Proof.
  unfold maskSensitiveInfo. destruct (negb (isMaskingEnabled env)); [eauto|].
  destruct (phoneLoop_terminates (maskBeforeLoop text))
    as (n & Hn & _ & _ & Hloop).
  pose proof (maskBeforeLoop_runs text) as Hruns.
  rewrite (phoneLoop_mono (S n) (S (digitRuns text)) ltac:(lia) _ _ _ Hloop).
  eauto.
Qed.

(** A replacement whose pattern matches nowhere returns its input. *)
Lemma replaceFrom_unmatched (re : RegExp) (f : str -> nat -> str -> str)
  (whole : str) :
  forall s prev off,
    (forall pre post, s = (pre ++ post)%list ->
       matchAt re (lastOr prev pre) post = None) ->
    replaceFrom re f whole prev s off 0 = s.
Proof.
  induction s as [|c s IH]; intros prev off H; cbn [replaceFrom].
  - pose proof (H [] [] eq_refl) as E. cbn [lastOr] in E. now rewrite E.
  - pose proof (H [] (c :: s) eq_refl) as E. cbn [lastOr] in E. rewrite E.
    f_equal. apply IH.
    intros pre post ->. apply (H (c :: pre) post). reflexivity.
Qed.

Lemma parseTimeToken_invalid (zone : Zone) (momentParse : str -> option Z)
  (now : Z) (token : str) :
  str_eqb (toLowerCase token) (lit "now") = false ->
  matchRelative token = None ->
  momentParse token = None ->
  parseTimeToken zone momentParse (Some token) now = None.
Proof.
  intros Hnow Hrel Hcal. unfold parseTimeToken.
  destruct token; [reflexivity|]. now rewrite Hnow, Hrel, Hcal.
Qed.

(** C9: neither operation raises an error.  The resolver returns a range
    for every pair of tokens, and a token that is not 'now', not a relative
    expression and not a calendar date (a malformed string, an unsupported
    unit) resolves to an absent field; the masker returns a text for every
    input, its loop ending within the stated number of iterations; and a
    replacement whose pattern matches nowhere leaves the text unchanged. *)
Theorem core_never_raises :
  (forall zone momentParse now range,
     exists r, parseTimeRange zone momentParse now range = Ok r) /\
  (forall zone momentParse now token,
     str_eqb (toLowerCase token) (lit "now") = false ->
     matchRelative token = None ->
     momentParse token = None ->
     parseTimeToken zone momentParse (Some token) now = None) /\
  (forall env text,
     exists r, maskSensitiveInfo (S (digitRuns text)) env text = Some r) /\
  (forall re f s,
     (forall pre post, s = (pre ++ post)%list ->
        matchAt re (lastOr None pre) post = None) ->
     replace re f s = s).
Proof.
  split; [exact parseTimeRange_returns|].
  split; [exact parseTimeToken_invalid|].
  split; [exact maskSensitiveInfo_returns|].
  intros re f s H. now apply replaceFrom_unmatched.
Qed.

Lemma core_never_raises_witness :
  parseTimeToken utc noCalendar (Some (lit "-5x")) clock2026 = None /\
  exists r, maskSensitiveInfo 1 None (lit "no digits here") = Some r.
Proof.
  destruct core_never_raises as (_ & Htok & Hmask & _).
  split.
  - apply Htok; reflexivity.
  - exact (Hmask None (lit "no digits here")).
Defined.

(** ** Idempotence *)

Lemma replace_needs_id (Q : ascii -> bool) (re : RegExp)
  (f : str -> nat -> str -> str) (s : str) :
  needs Q (ignoreCase re) (body re) = true ->
  existsb Q s = false ->
  replace re f s = s.
Proof. intros Hn Hs. unfold replace. now apply (replaceFrom_no_match re f s Q). Qed.

Lemma fold_replace_id (Q : ascii -> bool) (step : str -> RegExp -> str)
  (l : list RegExp) (s : str) :
  (forall p, In p l -> step s p = s) ->
  fold_left step l s = s.
Proof.
  induction l as [|p l IH]; intros H; cbn [fold_left]; [reflexivity|].
  rewrite (H p (or_introl eq_refl)). apply IH. intros q Hq. apply H. now right.
Qed.

Lemma all_need_digit (l : list RegExp) :
  forallb (fun p => needs isDigit (ignoreCase p) (body p)) l = true ->
  forall p, In p l -> needs isDigit (ignoreCase p) (body p) = true.
Proof. intros H p Hp. rewrite forallb_forall in H. auto. Qed.

(** A text without digits and without '@' passes through every stage. *)
Lemma mask_stages_id (s : str) :
  existsb isDigit s = false ->
  existsb (Ascii.eqb "@") s = false ->
  maskBeforeLoop s = s /\ phonePass s = s /\ maskAfterLoop s = s.
Proof.
  intros Hd Ha.
  assert (Hphone : phonePass s = s).
  { unfold phonePass. apply (fold_replace_id isDigit). intros p Hp.
    apply (replace_needs_id isDigit); [|exact Hd].
    revert p Hp. apply all_need_digit. vm_compute; reflexivity. }
  split; [|split; [exact Hphone|]].
  - unfold maskBeforeLoop.
    assert (He : (if test emailPattern s
                  then replaceWith emailPattern EMAIL_REDACTED s else s) = s).
    { destruct (test emailPattern s); [|reflexivity].
      apply (replace_needs_id (Ascii.eqb "@")); [vm_compute; reflexivity|exact Ha]. }
    rewrite He.
    assert (Hc : fold_left (fun t p => replaceWith p CARD_REDACTED t)
                   creditCardPatterns s = s).
    { apply (fold_replace_id isDigit). intros p Hp.
      apply (replace_needs_id isDigit); [|exact Hd].
      revert p Hp. apply all_need_digit. vm_compute; reflexivity. }
    rewrite Hc. exact Hphone.
  - unfold maskAfterLoop.
    assert (Hadr : fold_left (fun t p => replaceWith p ADDRESS_REDACTED t)
                     addressPatterns s = s).
    { apply (fold_replace_id isDigit). intros p Hp.
      apply (replace_needs_id isDigit); [|exact Hd].
      revert p Hp. apply all_need_digit. vm_compute; reflexivity. }
    rewrite Hadr.
    apply (replace_needs_id isDigit); [vm_compute; reflexivity|exact Hd].
Qed.

(** ** Calendar order of formatted moments *)

Local Open Scope Z_scope.

Lemma checkRange_spec (P : Z -> bool) (n : nat) :
  forall z x, checkRange n z P = true -> z <= x < z + Z.of_nat n -> P x = true.
Proof.
  induction n as [|n IH]; intros z x H Hx; [lia|].
  cbn [checkRange] in H. apply andb_true_iff in H as [H0 H1].
  destruct (Z.eq_dec x z) as [->|Hne]; [exact H0|].
  apply (IH (z + 1)); [exact H1|lia].
Qed.

Lemma monthDay_facts (doy : Z) :
  0 <= doy <= 365 ->
  let '(next, m, d) := monthDay doy in
  1 <= m <= 12 /\ 1 <= d <= 31 /\
  301 <= dateKey (next, m, d) <= 10229 /\
  (doy < 365 -> dateKey (next, m, d) < dateKey (monthDay (doy + 1))).
Proof.
  intros Hd.
  assert (Hall : checkRange 366 0 monthDayOk = true) by (vm_compute; reflexivity).
  pose proof (checkRange_spec monthDayOk 366 0 doy Hall ltac:(lia)) as H.
  unfold monthDayOk in H. destruct (monthDay doy) as [[next m] d].
  repeat (apply andb_true_iff in H as [H ?]).
  repeat split; lia.
Qed.

Lemma monthDay_strict (x : Z) (k : nat) :
  0 <= x -> x + Z.of_nat (S k) <= 365 ->
  dateKey (monthDay x) < dateKey (monthDay (x + Z.of_nat (S k))).
Proof.
  intros Hx. induction k as [|k IH]; intros Hk.
  - pose proof (monthDay_facts x ltac:(lia)) as F.
    destruct (monthDay x) as [[next m] d].
    destruct F as (_ & _ & _ & F). replace (x + Z.of_nat 1) with (x + 1) by lia.
    apply F. lia.
  - etransitivity; [apply IH; lia|].
    pose proof (monthDay_facts (x + Z.of_nat (S k)) ltac:(lia)) as F.
    destruct (monthDay (x + Z.of_nat (S k))) as [[next m] d].
    destruct F as (_ & _ & _ & F).
    replace (x + Z.of_nat (S (S k))) with (x + Z.of_nat (S k) + 1) by lia.
    apply F. lia.
Qed.

Lemma yearOfEra_facts (doe : Z) :
  0 <= doe <= 146096 ->
  0 <= yearOfEra doe <= 399 /\ 0 <= doe - yearStart (yearOfEra doe) <= 365.
Proof.
  intros H. unfold yearStart, yearOfEra.
  Z.to_euclidean_division_equations. lia.
Qed.

Lemma yearOfEra_mono (a b : Z) :
  0 <= a <= b -> b <= 146096 -> yearOfEra a <= yearOfEra b.
Proof.
  intros H H'. unfold yearOfEra. Z.to_euclidean_division_equations. lia.
Qed.

Lemma eraDay_key (doe : Z) :
  dateKey (civilOfEraDay doe)
  = yearOfEra doe * 10000 + dateKey (monthDay (doe - yearStart (yearOfEra doe))).
Proof.
  unfold civilOfEraDay.
  destruct (monthDay (doe - yearStart (yearOfEra doe))) as [[next m] d].
  unfold dateKey. lia.
Qed.

Lemma eraDay_facts (doe : Z) :
  0 <= doe <= 146096 ->
  let '(y, m, d) := civilOfEraDay doe in
  1 <= m <= 12 /\ 1 <= d <= 31 /\ 301 <= dateKey (y, m, d) <= 4000229.
Proof.
  intros Hd. pose proof (eraDay_key doe) as K. revert K. unfold civilOfEraDay.
  destruct (yearOfEra_facts doe Hd) as [Hy Hdoy].
  pose proof (monthDay_facts _ Hdoy) as F.
  destruct (monthDay (doe - yearStart (yearOfEra doe))) as [[next m] d].
  destruct F as (Hm & Hda & Hk & _). intros K. rewrite K. lia.
Qed.

(** Within an era a later day has a later date. *)
Lemma eraDay_strict (a b : Z) :
  0 <= a -> a < b -> b <= 146096 ->
  dateKey (civilOfEraDay a) < dateKey (civilOfEraDay b).
Proof.
  intros Ha Hab Hb. rewrite !eraDay_key.
  destruct (yearOfEra_facts a ltac:(lia)) as [Hya Hda].
  destruct (yearOfEra_facts b ltac:(lia)) as [Hyb Hdb].
  pose proof (yearOfEra_mono a b ltac:(lia) Hb) as Hmono.
  pose proof (monthDay_facts _ Hda) as Fa.
  pose proof (monthDay_facts _ Hdb) as Fb.
  destruct (Z.eq_dec (yearOfEra a) (yearOfEra b)) as [E|E].
  - rewrite E in *. apply Z.add_lt_mono_l.
    remember (a - yearStart (yearOfEra b)) as x.
    remember (b - yearStart (yearOfEra b)) as y.
    replace y with (x + Z.of_nat (S (Z.to_nat (y - x - 1)))) by lia.
    apply monthDay_strict; lia.
  - destruct (monthDay (a - yearStart (yearOfEra a))) as [[na ma] da].
    destruct (monthDay (b - yearStart (yearOfEra b))) as [[nb mb] db].
    destruct Fa as (_ & _ & Fa & _). destruct Fb as (_ & _ & Fb & _). lia.
Qed.

Lemma civil_facts (day : Z) :
  let '(y, m, d) := civil day in
  1 <= m <= 12 /\ 1 <= d <= 31 /\
  exists k, 301 <= k <= 4000229 /\
    dateKey (y, m, d) = ((day + 719468) / 146097) * 4000000 + k /\
    k = dateKey (civilOfEraDay ((day + 719468) mod 146097)).
Proof.
  unfold civil.
  replace (day + 719468 - (day + 719468) / 146097 * 146097)
    with ((day + 719468) mod 146097)
    by (rewrite Z.mod_eq by lia; lia).
  pose proof (Z.mod_pos_bound (day + 719468) 146097 ltac:(lia)) as Hm.
  pose proof (eraDay_facts ((day + 719468) mod 146097) ltac:(lia)) as F.
  destruct (civilOfEraDay ((day + 719468) mod 146097)) as [[y m] d].
  destruct F as (Hmo & Hda & Hk).
  repeat split; try lia.
  exists (dateKey (y, m, d)). repeat split; try lia.
  unfold dateKey. lia.
Qed.

(** A later day has a later date. *)
Lemma civil_strict (a b : Z) :
  a < b -> dateKey (civil a) < dateKey (civil b).
Proof.
  intros Hab.
  pose proof (civil_facts a) as Fa. pose proof (civil_facts b) as Fb.
  destruct (civil a) as [[ya ma] da]. destruct (civil b) as [[yb mb] db].
  destruct Fa as (_ & _ & ka & Hka & Ea & Ka).
  destruct Fb as (_ & _ & kb & Hkb & Eb & Kb).
  rewrite Ea, Eb.
  pose proof (Z.div_le_mono (a + 719468) (b + 719468) 146097 ltac:(lia) ltac:(lia))
    as Hera.
  destruct (Z.eq_dec ((a + 719468) / 146097) ((b + 719468) / 146097)) as [E|E];
    [|lia].
  rewrite E. apply Z.add_lt_mono_l. rewrite Ka, Kb.
  pose proof (Z.mod_pos_bound (a + 719468) 146097 ltac:(lia)) as Hma.
  pose proof (Z.mod_pos_bound (b + 719468) 146097 ltac:(lia)) as Hmb.
  assert (Hlt : (a + 719468) mod 146097 < (b + 719468) mod 146097).
  { rewrite !Z.mod_eq by lia. lia. }
  apply eraDay_strict; lia.
Qed.

Lemma fields_range (off t : Z) :
  1 <= f_month (fields off t) <= 12 /\ 1 <= f_date (fields off t) <= 31 /\
  0 <= f_hour (fields off t) <= 23 /\ 0 <= f_minute (fields off t) <= 59 /\
  0 <= f_second (fields off t) <= 59.
Proof.
  unfold fields, fieldsOfLocal.
  pose proof (civil_facts ((t + off * 60000) / 86400000)) as F.
  destruct (civil ((t + off * 60000) / 86400000)) as [[y m] d].
  destruct F as (Hm & Hd & _). cbn [f_month f_date f_hour f_minute f_second].
  pose proof (Z.mod_pos_bound (t + off * 60000) 86400000 ltac:(lia)) as Hms.
  remember ((t + off * 60000) mod 86400000) as msod.
  clear Heqmsod. Z.to_euclidean_division_equations. lia.
Qed.

Lemma timeKey_mono (x y : Z) :
  0 <= x <= y -> y < 86400000 ->
  x / 3600000 * 10000 + (x / 60000) mod 60 * 100 + (x / 1000) mod 60
  <= y / 3600000 * 10000 + (y / 60000) mod 60 * 100 + (y / 1000) mod 60.
Proof. intros Hx Hy. Z.to_euclidean_division_equations. lia. Qed.

(** A later instant has a later stamp. *)
Lemma fields_stamp_mono (off a b : Z) :
  a <= b -> stamp (fields off a) <= stamp (fields off b).
Proof.
  intros Hab.
  pose proof (fields_range off a) as Ra. pose proof (fields_range off b) as Rb.
  unfold stamp. revert Ra Rb. unfold fields, fieldsOfLocal.
  set (la := a + off * 60000). set (lb := b + off * 60000).
  assert (Hl : la <= lb) by (unfold la, lb; lia).
  pose proof (Z.div_le_mono la lb 86400000 ltac:(lia) Hl) as Hday.
  pose proof (Z.mod_pos_bound la 86400000 ltac:(lia)) as Hma.
  pose proof (Z.mod_pos_bound lb 86400000 ltac:(lia)) as Hmb.
  destruct (Z.eq_dec (la / 86400000) (lb / 86400000)) as [E|E].
  - rewrite E. destruct (civil (lb / 86400000)) as [[y m] d].
    cbn [f_year f_month f_date f_hour f_minute f_second]. intros _ _.
    assert (Hms : la mod 86400000 <= lb mod 86400000).
    { rewrite !Z.mod_eq by lia. lia. }
    pose proof (timeKey_mono (la mod 86400000) (lb mod 86400000)
                  ltac:(lia) ltac:(lia)).
    lia.
  - pose proof (civil_strict (la / 86400000) (lb / 86400000) ltac:(lia)) as Hs.
    destruct (civil (la / 86400000)) as [[ya ma] da].
    destruct (civil (lb / 86400000)) as [[yb mb] db].
    cbn [f_year f_month f_date f_hour f_minute f_second]. intros Ra Rb.
    lia.
Qed.

(** *** Text order of rendered fields *)

Lemma code_digitChar (d : Z) :
  0 <= d <= 9 -> code (digitChar d) = (48 + Z.to_N d)%N.
Proof.
  intros Hd. unfold code, digitChar. apply N_ascii_embedding. lia.
Qed.

Lemma pad2_chars (p : Z) :
  0 <= p <= 99 -> zeroFill p 2 = [digitChar (p / 10); digitChar (p mod 10)].
Proof.
  intros Hp. apply str_eqb_eq.
  assert (H : checkRange 100 0 pad2Ok = true) by (vm_compute; reflexivity).
  apply (checkRange_spec pad2Ok 100 0 p H). lia.
Qed.

Lemma pad4_split (y : Z) :
  0 <= y <= 9999 ->
  zeroFill y 4 = (zeroFill (y / 100) 2 ++ zeroFill (y mod 100) 2)%list.
Proof.
  intros Hy. apply str_eqb_eq.
  assert (H : checkRange (Z.to_nat 10000) 0 pad4Ok = true)
    by (vm_cast_no_check (eq_refl true)).
  apply (checkRange_spec pad4Ok _ 0 y H). lia.
Qed.

Lemma ltb_cons_same (c : ascii) (u v : str) :
  str_ltb (c :: u) (c :: v) = str_ltb u v.
Proof. cbn [str_ltb]. now rewrite N.ltb_irrefl. Qed.

Lemma ltb_pad2 (p q : Z) (u v : str) :
  0 <= p <= 99 -> 0 <= q <= 99 ->
  str_ltb (zeroFill p 2 ++ u) (zeroFill q 2 ++ v)
  = if p <? q then true else if q <? p then false else str_ltb u v.
Proof.
  intros Hp Hq. rewrite (pad2_chars p Hp), (pad2_chars q Hq).
  cbn [app str_ltb].
  assert (Dp : 0 <= p / 10 <= 9 /\ 0 <= p mod 10 <= 9
               /\ p = 10 * (p / 10) + p mod 10)
    by (Z.to_euclidean_division_equations; lia).
  assert (Dq : 0 <= q / 10 <= 9 /\ 0 <= q mod 10 <= 9
               /\ q = 10 * (q / 10) + q mod 10)
    by (Z.to_euclidean_division_equations; lia).
  revert Dp Dq.
  generalize (p / 10) (p mod 10) (q / 10) (q mod 10).
  intros p1 p0 q1 q0 (Hp1 & Hp0 & Ep) (Hq1 & Hq0 & Eq).
  rewrite !code_digitChar by lia.
  repeat match goal with
         | |- context [(?a <? ?b)%N] => destruct (N.ltb_spec a b)
         end;
    repeat match goal with
           | |- context [?a <? ?b] => destruct (Z.ltb_spec a b)
           end;
    try reflexivity; lia.
Qed.

(** Between renderings with four-digit years the text order is the calendar
    order. *)
Lemma render_order (off : Z) (f1 f2 : Fields) :
  fourDigitYear f1 -> fourDigitYear f2 ->
  twoDigitFields f1 -> twoDigitFields f2 ->
  stamp f1 <= stamp f2 ->
  str_ltb (render off f2) (render off f1) = false.
Proof.
  destruct f1 as [y1 m1 d1 h1 i1 s1], f2 as [y2 m2 d2 h2 i2 s2].
  unfold fourDigitYear, twoDigitFields, stamp, dateKey, render;
    cbn [f_year f_month f_date f_hour f_minute f_second].
  intros Hy1 Hy2 R1 R2 Hst.
  rewrite (pad4_split y1 Hy1), (pad4_split y2 Hy2), <- !app_assoc.
  assert (Dy1 : 0 <= y1 / 100 <= 99 /\ 0 <= y1 mod 100 <= 99
                /\ y1 = 100 * (y1 / 100) + y1 mod 100)
    by (Z.to_euclidean_division_equations; lia).
  assert (Dy2 : 0 <= y2 / 100 <= 99 /\ 0 <= y2 mod 100 <= 99
                /\ y2 = 100 * (y2 / 100) + y2 mod 100)
    by (Z.to_euclidean_division_equations; lia).
  revert Dy1 Dy2.
  generalize (y1 / 100) (y1 mod 100) (y2 / 100) (y2 mod 100).
  intros a1 b1 a2 b2 (Ha1 & Hb1 & E1) (Ha2 & Hb2 & E2).
  cbn [lit list_ascii_of_string app].
  repeat (rewrite ltb_pad2 by lia; rewrite ?ltb_cons_same).
  rewrite str_ltb_irrefl.
  repeat match goal with
         | |- context [?a <? ?b] => destruct (Z.ltb_spec a b)
         end; try reflexivity; lia.
Qed.

Lemma year_from_stamp (f : Fields) :
  1 <= f_month f <= 12 -> 1 <= f_date f <= 31 ->
  0 <= f_hour f <= 23 -> 0 <= f_minute f <= 59 -> 0 <= f_second f <= 59 ->
  f_year f * 10000000000 <= stamp f < (f_year f + 1) * 10000000000.
Proof. unfold stamp, dateKey. lia. Qed.

Lemma render_negative_year (off : Z) (f : Fields) :
  f_year f < 0 -> exists rest, render off f = "-"%char :: rest.
Proof.
  intros Hy. unfold render, zeroFill.
  destruct (Z.leb_spec 0 (f_year f)) as [?|_]; [lia|].
  rewrite <- !app_assoc. eexists. reflexivity.
Qed.

Lemma render_digit_year (off : Z) (f : Fields) :
  0 <= f_year f <= 9999 ->
  exists d rest, 0 <= d <= 9 /\ render off f = digitChar d :: rest.
Proof.
  intros Hy. unfold render. rewrite (pad4_split _ Hy).
  assert (D : 0 <= f_year f / 100 <= 99)
    by (Z.to_euclidean_division_equations; lia).
  rewrite (pad2_chars _ D).
  exists (f_year f / 100 / 10). eexists. split; [|reflexivity].
  Z.to_euclidean_division_equations; lia.
Qed.

Lemma digit_not_below_minus (d : Z) (r1 r2 : str) :
  0 <= d <= 9 -> str_ltb (digitChar d :: r1) ("-"%char :: r2) = false.
Proof.
  intros Hd. cbn [str_ltb]. rewrite (code_digitChar d Hd).
  change (code "-") with 45%N.
  destruct (N.ltb_spec (48 + Z.to_N d) 45); [lia|].
  destruct (N.ltb_spec 45 (48 + Z.to_N d)); [reflexivity|lia].
Qed.

(** The text of an earlier instant is not greater than the text of a later
    one, as long as the later one lies in the years 0000 to 9999. *)
Lemma formatAt_order (off a b : Z) :
  a <= b ->
  0 <= f_year (fields off b) <= 9999 ->
  str_gtb (formatAt off a) (formatAt off b) = false.
Proof.
  intros Hab Hyb. unfold str_gtb, formatAt.
  pose proof (fields_stamp_mono off a b Hab) as Hst.
  destruct (fields_range off a) as (Ma & Da & Ha & Ia & Sa).
  destruct (fields_range off b) as (Mb & Db & Hb & Ib & Sb).
  pose proof (year_from_stamp (fields off a) Ma Da Ha Ia Sa) as Ya.
  pose proof (year_from_stamp (fields off b) Mb Db Hb Ib Sb) as Yb.
  destruct (Z.ltb_spec (f_year (fields off a)) 0) as [Hneg|Hpos].
  - destruct (render_negative_year off _ Hneg) as [ra ->].
    destruct (render_digit_year off _ Hyb) as (d & rb & Hd & ->).
    now apply digit_not_below_minus.
  - apply render_order; unfold fourDigitYear, twoDigitFields; try lia.
Qed.

(** ** The window rule *)

Lemma parseInt_nonneg (s : str) : 0 <= parseInt s.
Proof.
  unfold parseInt.
  assert (H : forall acc, 0 <= acc ->
            0 <= fold_left (fun acc c => 10 * acc + digitVal c) s acc).
  { induction s as [|c s IH]; intros acc Hacc; cbn [fold_left]; [exact Hacc|].
    apply IH. unfold digitVal. lia. }
  apply H. lia.
Qed.

Lemma unitMs_pos (u : DurationUnit) : 0 < unitMs u.
Proof. destruct u; reflexivity. Qed.

Lemma matchRelative_shape (token digits : str) (u : ascii) :
  matchRelative token = Some (digits, u) ->
  (exists rest, token = "-"%char :: rest) /\
  exists unit, UNIT_MAP (toLowerChar u) = Some unit.
Proof.
  unfold matchRelative.
  destruct token as [|c rest]; [discriminate|].
  destruct (Ascii.eqb c "-") eqn:Ec.
  - apply Ascii.eqb_eq in Ec. subst c.
    destruct (splitLast rest) as [[[|d ds] l]|]; try discriminate.
    destruct (forallb isDigit (d :: ds) && isUnitKey l) eqn:E; [|discriminate].
    intros [= <- <-]. split; [eauto|].
    apply andb_true_iff in E as [_ E]. unfold isUnitKey in E. unfold UNIT_MAP.
    cbn [existsb] in E.
    destruct (Ascii.eqb (toLowerChar l) "s"); [eauto|].
    destruct (Ascii.eqb (toLowerChar l) "m"); [eauto|].
    destruct (Ascii.eqb (toLowerChar l) "h"); [eauto|].
    destruct (Ascii.eqb (toLowerChar l) "d"); [eauto|].
    destruct (Ascii.eqb (toLowerChar l) "w"); [eauto|discriminate E].
  - destruct c as [[] [] [] [] [] [] [] []]; try discriminate.
Qed.

Lemma parseTimeToken_relative (zone : Zone) (momentParse : str -> option Z)
  (now : Z) (token digits : str) (u : ascii) (unit : DurationUnit) :
  matchRelative token = Some (digits, u) ->
  UNIT_MAP (toLowerChar u) = Some unit ->
  parseTimeToken zone momentParse (Some token) now
  = Some (fmt zone
            (subtract zone (Some now) (parseInt digits) (Some unit))).
Proof.
  intros Hm Hu. destruct (matchRelative_shape _ _ _ Hm) as [[rest ->] _].
  unfold parseTimeToken. cbn [toLowerCase map].
  change (toLowerChar "-") with "-"%char. cbn [str_eqb lit list_ascii_of_string].
  change (Ascii.eqb "-" "n") with false. cbn [andb].
  rewrite Hm, Hu. reflexivity.
Qed.

(** C4 (evaluation at failing inputs): with no [from] and a relative [to]
    the result is not always [to = now], [from = now] minus the magnitude.
    A magnitude that leaves the range of a date makes the subtraction
    invalid; its text, [Invalid date], is greater than the text of now, so
    the pair is swapped and the resolver returns [from = now] and
    [to = Invalid date].  And in a zone whose offset changes, 45 minutes
    before 01:30 in the repeated hour is written 01:45 with the earlier
    offset, a greater text, so the pair is swapped again: [from] is now and
    [to] the earlier instant. *)
Theorem window_rule_breaks_on_text_order (momentParse : str -> option Z) :
  let token := lit "-99999999999999999999w" in
  let now := (fallBack2026 + 30 * 60000)%Z in
  matchRelative token = Some (lit "99999999999999999999", "w"%char) /\
  subtract utc (Some clock2026) (parseInt (lit "99999999999999999999"))
    (Some weeks) = None /\
  parseTimeRange utc momentParse clock2026 (mkInput None (Some token))
  = Ok (mkResolved (Some (lit "2026-11-03T12:00:00+00:00"))
                   (Some (lit "Invalid date"))) /\
  subtract fallBackZone (Some now) 45 (Some minutes)
  = Some (now - 45 * 60000)%Z /\
  parseTimeRange fallBackZone momentParse now (mkInput None (Some (lit "-45m")))
  = Ok (mkResolved (Some (lit "2026-11-01T01:30:00-05:00"))
                   (Some (lit "2026-11-01T01:45:00-04:00"))).
Proof.
  cbv zeta. split; [reflexivity|]. split; [vm_compute; reflexivity|].
  split; [vm_compute; reflexivity|]. split; vm_compute; reflexivity.
Qed.

(** ** Calendar tokens *)

Example isoParse_epoch : isoParse (lit "1970-01-01T00:00:00Z") = Some 0.
Proof. reflexivity. Qed.

Example isoParse_roundtrip :
  option_map (fun t => format utc (Some t))
    (isoParse (lit "2024-02-29T15:59:59+00:00"))
  = Some (lit "2024-02-29T15:59:59+00:00").
Proof. vm_compute. reflexivity. Qed.

Lemma parseTimeToken_calendar (zone : Zone) (momentParse : str -> option Z)
  (now : Z) (token : str) (parsed : Z) :
  token <> [] ->
  str_eqb (toLowerCase token) (lit "now") = false ->
  matchRelative token = None ->
  momentParse token = Some parsed ->
  parseTimeToken zone momentParse (Some token) now
  = Some (fmt zone (Some parsed)).
Proof.
  intros Hne Hnow Hrel Hcal. unfold parseTimeToken.
  destruct token; [congruence|].
  now rewrite Hnow, Hrel, Hcal.
Qed.

(** C5 (evaluation at the failing input): in a process whose zone is UTC
    the token 2025-01-10T00:00:00+05:00 is accepted as a calendar date and
    returned as the same instant, but written in the zone of the process:
    its offset +05:00 is replaced by +00:00 and its wall-clock date and hour
    change. *)
Theorem calendar_token_rendered_in_process_zone :
  let token := lit "2025-01-10T00:00:00+05:00" in
  isoParse token = Some 1736449200000 /\
  parseTimeToken utc isoParse (Some token) clock2026
  = Some (lit "2025-01-09T19:00:00+00:00") /\
  parseTimeToken utc isoParse (Some token) clock2026 <> Some token /\
  parseTimeToken (fixedZone 300) isoParse (Some token) clock2026 = Some token.
Proof.
  cbv zeta. split; [vm_compute; reflexivity|].
  split; [vm_compute; reflexivity|].
  split; [vm_compute; discriminate|vm_compute; reflexivity].
Qed.

(** C6 (counterexample): on a chain of ten URLs the text entering the loop
    is still changing after ten iterations, so the loop has not stopped. *)
Lemma rescan_exceeds_ten_iterations :
  phoneLoop 10 [] (maskBeforeLoop (chainText 10)) = None.
Proof. vm_cast_no_check (eq_refl (@None str)). Qed.
(** * Further properties of the resolver *)

Lemma render_nonempty (off : Z) (f : Fields) : render off f <> [].
Proof.
  unfold render. destruct (zeroFill (f_year f) 4); discriminate.
Qed.

Lemma truthy_formatAt (off t : Z) : truthy (Some (formatAt off t)) = true.
Proof.
  unfold formatAt. pose proof (render_nonempty off (fields off t)) as H.
  destruct (render off (fields off t)); [congruence|reflexivity].
Qed.

Lemma truthy_fmt (zone : Zone) (m : option Z) :
  truthy (Some (fmt zone m)) = true.
Proof.
  unfold fmt, format. destruct m as [t|]; [|reflexivity].
  match goal with |- context [render ?o ?f] =>
    pose proof (render_nonempty o f) as H; destruct (render o f)
  end; [congruence|reflexivity].
Qed.

Lemma format_offsetIs (zone : Zone) (t o : Z) :
  offsetIs zone t o -> fmt zone (Some t) = formatAt o t.
Proof. intros [H1 H2]. unfold fmt, format. now rewrite H1, H2. Qed.

Lemma offsetIs_fixed (o t : Z) : offsetIs (fixedZone o) t o.
Proof. split; reflexivity. Qed.

Lemma timeClip_Some (t : Z) : Z.abs t <= maxTime -> timeClip t = Some t.
Proof.
  intros H. unfold timeClip. destruct (Z.leb_spec (Z.abs t) maxTime); [reflexivity|lia].
Qed.

Lemma timeClip_None (t : Z) : maxTime < Z.abs t -> timeClip t = None.
Proof.
  intros H. unfold timeClip. destruct (Z.leb_spec (Z.abs t) maxTime); [lia|reflexivity].
Qed.

Lemma some_fmt_canonical (zone : Zone) (m : option Z) (x : str) :
  Some (fmt zone m) = Some x -> exists m', x = fmt zone m'.
Proof. intros H. exists m. congruence. Qed.

(** What the resolver returns for a token is a text written by [format]:
    [Invalid date], or the text of an instant. *)
Lemma parseTimeToken_canonical (zone : Zone) (momentParse : str -> option Z)
  (token : option str) (now : Z) (x : str) :
  parseTimeToken zone momentParse token now = Some x ->
  exists m, x = fmt zone m.
Proof.
  unfold parseTimeToken. destruct token as [[|c tok]|]; try discriminate.
  destruct (str_eqb _ _); [intros [= <-]; now exists (Some now)|].
  destruct (matchRelative (c :: tok)) as [[g1 g2]|].
  - destruct (UNIT_MAP (toLowerChar g2)) as [unit|].
    + intros [= <-].
      now exists (subtract zone (Some now) (parseInt g1) (Some unit)).
    + destruct (momentParse (c :: tok)) as [parsed|]; [|discriminate].
      intros [= <-]. now exists (Some parsed).
  - destruct (momentParse (c :: tok)) as [parsed|]; [|discriminate].
    intros [= <-]. now exists (Some parsed).
Qed.

(** Between renderings with four-digit years the text order is exactly the
    order of the stamps. *)
Lemma render_ltb (off : Z) (f1 f2 : Fields) :
  fourDigitYear f1 -> fourDigitYear f2 ->
  twoDigitFields f1 -> twoDigitFields f2 ->
  str_ltb (render off f1) (render off f2) = (stamp f1 <? stamp f2).
Proof.
  destruct f1 as [y1 m1 d1 h1 i1 s1], f2 as [y2 m2 d2 h2 i2 s2].
  unfold fourDigitYear, twoDigitFields, stamp, dateKey, render;
    cbn [f_year f_month f_date f_hour f_minute f_second].
  intros Hy1 Hy2 R1 R2.
  rewrite (pad4_split y1 Hy1), (pad4_split y2 Hy2), <- !app_assoc.
  assert (Dy1 : 0 <= y1 / 100 <= 99 /\ 0 <= y1 mod 100 <= 99
                /\ y1 = 100 * (y1 / 100) + y1 mod 100)
    by (Z.to_euclidean_division_equations; lia).
  assert (Dy2 : 0 <= y2 / 100 <= 99 /\ 0 <= y2 mod 100 <= 99
                /\ y2 = 100 * (y2 / 100) + y2 mod 100)
    by (Z.to_euclidean_division_equations; lia).
  revert Dy1 Dy2.
  generalize (y1 / 100) (y1 mod 100) (y2 / 100) (y2 mod 100).
  intros a1 b1 a2 b2 (Ha1 & Hb1 & E1) (Ha2 & Hb2 & E2).
  cbn [lit list_ascii_of_string app].
  repeat (rewrite ltb_pad2 by lia; rewrite ?ltb_cons_same).
  rewrite str_ltb_irrefl.
  repeat match goal with
         | |- context [?a <? ?b] => destruct (Z.ltb_spec a b)
         end; try reflexivity; lia.
Qed.

Lemma stamp_inj (f1 f2 : Fields) :
  twoDigitFields f1 -> twoDigitFields f2 -> stamp f1 = stamp f2 -> f1 = f2.
Proof.
  destruct f1 as [y1 m1 d1 h1 i1 s1], f2 as [y2 m2 d2 h2 i2 s2].
  unfold twoDigitFields, stamp, dateKey;
    cbn [f_year f_month f_date f_hour f_minute f_second].
  intros R1 R2 E.
  assert (y1 = y2) by lia. assert (m1 = m2) by lia. assert (d1 = d2) by lia.
  assert (h1 = h2) by lia. assert (i1 = i2) by lia. assert (s1 = s2) by lia.
  congruence.
Qed.

Lemma fields_twoDigit (off t : Z) : twoDigitFields (fields off t).
Proof.
  destruct (fields_range off t) as (M & D & H & I & S).
  unfold twoDigitFields. lia.
Qed.

(** The final swap of the resolver puts the texts of two instants of the
    years 0000 to 9999, written with the same offset, in chronological
    order. *)
Lemma swap_orders_instants (off a b : Z) :
  fourDigitYear (fields off a) -> fourDigitYear (fields off b) ->
  (if truthy (Some (formatAt off a)) && truthy (Some (formatAt off b))
      && str_gtb (formatAt off a) (formatAt off b)
   then Ok (mkResolved (Some (formatAt off b)) (Some (formatAt off a)))
   else Ok (mkResolved (Some (formatAt off a)) (Some (formatAt off b))))
  = Ok (mkResolved (Some (formatAt off (Z.min a b)))
                   (Some (formatAt off (Z.max a b)))).
Proof.
  intros Ya Yb. rewrite !truthy_formatAt. cbn [andb].
  destruct (Z.le_gt_cases a b) as [Hab|Hba].
  - rewrite (Z.min_l a b Hab), (Z.max_r a b Hab).
    now rewrite (formatAt_order off a b Hab Yb).
  - rewrite (Z.min_r a b ltac:(lia)), (Z.max_l a b ltac:(lia)).
    unfold str_gtb, formatAt.
    rewrite (render_ltb off _ _ Yb Ya (fields_twoDigit off b)
               (fields_twoDigit off a)).
    pose proof (fields_stamp_mono off b a ltac:(lia)) as Hst.
    destruct (Z.ltb_spec (stamp (fields off b)) (stamp (fields off a)));
      [reflexivity|].
    assert (E : fields off b = fields off a)
      by (apply stamp_inj; auto using fields_twoDigit; lia).
    now rewrite E.
Qed.

Lemma offsetIs_min_max (zone : Zone) (a b o : Z) :
  offsetIs zone a o -> offsetIs zone b o ->
  offsetIs zone (Z.min a b) o /\ offsetIs zone (Z.max a b) o.
Proof.
  intros Ha Hb. destruct (Z.le_gt_cases a b).
  - now rewrite Z.min_l, Z.max_r by lia.
  - now rewrite Z.min_r, Z.max_l by lia.
Qed.

(** X1: for every pair of tokens the resolver returns a range, and each
    field present in it is a text written by moment's [format()]: the
    text [Invalid date], or the default format of an instant (never the
    caller's raw text); and the text comparison [from > to] is false for
    the pair returned. *)
Theorem resolved_range_is_canonical (zone : Zone)
  (momentParse : str -> option Z) (now : Z) (range : TimeRangeInput) :
  exists r,
    parseTimeRange zone momentParse now range = Ok r /\
    (forall x, r_from r = Some x ->
       x = INVALID_DATE \/ exists t, x = format zone (Some t)) /\
    (forall x, r_to r = Some x ->
       x = INVALID_DATE \/ exists t, x = format zone (Some t)) /\
    (forall f t, r_from r = Some f -> r_to r = Some t -> str_gtb f t = false).
Proof.
  assert (Hcan : forall x, (exists m, x = fmt zone m) ->
            x = INVALID_DATE \/ exists t, x = format zone (Some t)).
  { intros x [[t|] ->]; [right; now exists t|now left]. }
  unfold parseTimeRange.
  match goal with
  | |- exists r, bind ?e _ = _ /\ _ =>
      assert (Hf : exists a b, e = Ok (a, b)
                /\ (forall x, a = Some x -> exists m, x = fmt zone m)
                /\ (forall x, b = Some x -> exists m, x = fmt zone m))
  end.
  { destruct range as [f [t|]]; cbn [from to].
    - destruct (matchRelative t) as [[g1 g2]|]; cbn [isSome].
      + match goal with
        | |- exists a b, (if ?c then _ else _) = _ /\ _ => destruct c
        end.
        * do 2 eexists. split; [reflexivity|].
          split; intros x; apply some_fmt_canonical.
        * do 2 eexists. split; [reflexivity|]. split.
          -- apply parseTimeToken_canonical.
          -- destruct (_ && _); [intros x; apply some_fmt_canonical|].
             apply parseTimeToken_canonical.
      + rewrite andb_false_r. cbn [andb].
        do 2 eexists. split; [reflexivity|]. split.
        * apply parseTimeToken_canonical.
        * destruct (_ && _); [intros x; apply some_fmt_canonical|].
          apply parseTimeToken_canonical.
    - do 2 eexists. split; [reflexivity|]. split.
      + apply parseTimeToken_canonical.
      + destruct (_ && _); [intros x; apply some_fmt_canonical|]. discriminate. }
  destruct Hf as (a & b & -> & Ha & Hb). cbn [bind].
  destruct a as [f|], b as [t|].
  - destruct (Ha f eq_refl) as [ta Ea]. destruct (Hb t eq_refl) as [tb Eb].
    assert (Tf : truthy (Some f) = true) by (rewrite Ea; apply truthy_fmt).
    assert (Tt : truthy (Some t) = true) by (rewrite Eb; apply truthy_fmt).
    rewrite Tf, Tt. cbn [andb].
    destruct (str_gtb f t) eqn:E;
      eexists; (split; [reflexivity|]); cbn [r_from r_to];
      repeat split; try (intros x [= <-]; apply Hcan; eauto);
      intros f' t' [= <-] [= <-]; auto.
    unfold str_gtb in *. now apply str_ltb_asym.
  - replace (truthy None) with false by reflexivity.
    rewrite andb_false_r. cbn [andb].
    eexists; (split; [reflexivity|]); cbn [r_from r_to];
      repeat split; try discriminate; intros x [= <-]; apply Hcan; eauto.
  - replace (truthy None) with false by reflexivity. cbn [andb].
    eexists; (split; [reflexivity|]); cbn [r_from r_to];
      repeat split; try discriminate; intros x [= <-]; apply Hcan; eauto.
  - replace (truthy None) with false by reflexivity. cbn [andb].
    eexists; (split; [reflexivity|]); cbn [r_from r_to];
      repeat split; discriminate.
Qed.

Lemma parseTimeRange_supplied (zone : Zone) (momentParse : str -> option Z)
  (now : Z) (ftok : str) (toTok : option str) (a b o : Z) :
  ftok <> [] ->
  parseTimeToken zone momentParse (Some ftok) now = Some (fmt zone (Some a)) ->
  (if truthy toTok
   then parseTimeToken zone momentParse toTok now = Some (fmt zone (Some b))
   else b = now) ->
  offsetIs zone a o -> offsetIs zone b o ->
  fourDigitYear (fields o a) -> fourDigitYear (fields o b) ->
  parseTimeRange zone momentParse now (mkInput (Some ftok) toTok)
  = Ok (mkResolved (Some (fmt zone (Some (Z.min a b))))
                   (Some (fmt zone (Some (Z.max a b))))).
Proof.
  intros Hne Hf Ht Oa Ob Ya Yb.
  assert (Hs : truthy (Some ftok) = true)
    by (destruct ftok; [congruence|reflexivity]).
  destruct (offsetIs_min_max zone a b o Oa Ob) as [Omin Omax].
  assert (Hnow : truthy toTok = false -> fmt zone (Some now) = formatAt o b).
  { intros E. rewrite E in Ht. subst b. now apply format_offsetIs. }
  unfold parseTimeRange. cbn [from to]. rewrite Hf, Hs, truthy_fmt.
  rewrite (format_offsetIs _ _ _ Omin), (format_offsetIs _ _ _ Omax),
          (format_offsetIs _ _ _ Oa).
  destruct toTok as [t|].
  - destruct (truthy (Some t)) eqn:Et; cbn [negb andb bind].
    + rewrite Ht, (format_offsetIs _ _ _ Ob). now apply swap_orders_instants.
    + rewrite (Hnow eq_refl). now apply swap_orders_instants.
  - cbn [truthy negb andb bind]. rewrite (Hnow eq_refl).
    now apply swap_orders_instants.
Qed.

(** X2: when [from] resolves to an instant and [to] is omitted (or empty),
    [to] is taken to be now; and where the zone has the same offset at
    both instants (and they lie in the years 0000 to 9999) the pair is
    returned in chronological order: a [from] in the past gives
    [(from, now)], a [from] in the future gives [(now, from)]. *)
Theorem missing_to_defaults_to_now (zone : Zone)
  (momentParse : str -> option Z) (now : Z) (ftok : str)
  (toTok : option str) (a o : Z) :
  ftok <> [] ->
  truthy toTok = false ->
  parseTimeToken zone momentParse (Some ftok) now = Some (fmt zone (Some a)) ->
  offsetIs zone a o -> offsetIs zone now o ->
  fourDigitYear (fields o a) -> fourDigitYear (fields o now) ->
  parseTimeRange zone momentParse now (mkInput (Some ftok) toTok)
  = Ok (mkResolved (Some (fmt zone (Some (Z.min a now))))
                   (Some (fmt zone (Some (Z.max a now))))).
Proof.
  intros Hne Ht Hf Oa On Ya Yn.
  apply (parseTimeRange_supplied zone momentParse now ftok toTok a now o);
    auto. now rewrite Ht.
Qed.

Lemma missing_to_defaults_to_now_witness :
  parseTimeRange utc isoParse clock2026
    (mkInput (Some (lit "2030-01-01T00:00:00Z")) (Some []))
  = Ok (mkResolved (Some (lit "2026-11-03T12:00:00+00:00"))
                   (Some (lit "2030-01-01T00:00:00+00:00"))).
Proof.
  assert (Hy : forall t, (0 <=? f_year (fields 0 t)) && (f_year (fields 0 t) <=? 9999) = true
                         -> fourDigitYear (fields 0 t)).
  { intros t H. apply andb_true_iff in H as [H1 H2]. unfold fourDigitYear. lia. }
  rewrite (missing_to_defaults_to_now utc isoParse clock2026
             (lit "2030-01-01T00:00:00Z") (Some []) 1893456000000 0).
  - vm_compute. reflexivity.
  - discriminate.
  - reflexivity.
  - vm_compute. reflexivity.
  - apply offsetIs_fixed.
  - apply offsetIs_fixed.
  - apply Hy. vm_compute. reflexivity.
  - apply Hy. vm_compute. reflexivity.
Defined.

(** X3: when both tokens are supplied and resolve to instants at which
    the zone has the same offset (instants of the years 0000 to 9999), the
    range returned is the earlier one followed by the later one, whichever
    way round they were given. *)
Theorem both_tokens_ordered (zone : Zone) (momentParse : str -> option Z)
  (now : Z) (ftok ttok : str) (a b o : Z) :
  ftok <> [] -> ttok <> [] ->
  parseTimeToken zone momentParse (Some ftok) now = Some (fmt zone (Some a)) ->
  parseTimeToken zone momentParse (Some ttok) now = Some (fmt zone (Some b)) ->
  offsetIs zone a o -> offsetIs zone b o ->
  fourDigitYear (fields o a) -> fourDigitYear (fields o b) ->
  parseTimeRange zone momentParse now (mkInput (Some ftok) (Some ttok))
  = Ok (mkResolved (Some (fmt zone (Some (Z.min a b))))
                   (Some (fmt zone (Some (Z.max a b))))).
Proof.
  intros Hf Ht Ef Et Oa Ob Ya Yb.
  apply (parseTimeRange_supplied zone momentParse now ftok (Some ttok) a b o);
    auto.
  destruct ttok; [congruence|]. exact Et.
Qed.

Lemma both_tokens_ordered_witness :
  parseTimeRange utc noCalendar clock2026
    (mkInput (Some (lit "-30m")) (Some (lit "-2h")))
  = Ok (mkResolved (Some (lit "2026-11-03T10:00:00+00:00"))
                   (Some (lit "2026-11-03T11:30:00+00:00"))).
Proof.
  assert (Hy : forall t, (0 <=? f_year (fields 0 t)) && (f_year (fields 0 t) <=? 9999) = true
                         -> fourDigitYear (fields 0 t)).
  { intros t H. apply andb_true_iff in H as [H1 H2]. unfold fourDigitYear. lia. }
  rewrite (both_tokens_ordered utc noCalendar clock2026 (lit "-30m") (lit "-2h")
             (clock2026 - 30 * 60000) (clock2026 - 2 * 3600000) 0).
  - vm_compute. reflexivity.
  - discriminate.
  - discriminate.
  - vm_compute. reflexivity.
  - vm_compute. reflexivity.
  - apply offsetIs_fixed.
  - apply offsetIs_fixed.
  - apply Hy. vm_compute. reflexivity.
  - apply Hy. vm_compute. reflexivity.
Defined.

(** X14: when [from] does not resolve (it is omitted, empty or invalid) and
    the window rule does not apply (a [from] was supplied, or [to] is not a
    relative token), no default is applied: [from] stays absent and [to] is
    what its own token resolves to. *)
Theorem unresolved_from_stays_absent (zone : Zone)
  (momentParse : str -> option Z) (now : Z) (fromTok toTok : option str) :
  parseTimeToken zone momentParse fromTok now = None ->
  truthy fromTok = true
  \/ match toTok with Some t => matchRelative t = None | None => True end ->
  parseTimeRange zone momentParse now (mkInput fromTok toTok)
  = Ok (mkResolved None (parseTimeToken zone momentParse toTok now)).
Proof.
  intros Hf Hw. unfold parseTimeRange. cbn [from to]. rewrite Hf.
  destruct toTok as [t|]; [|reflexivity].
  destruct Hw as [Hw|Hw]; rewrite Hw; cbn [truthy negb andb isSome bind].
  - reflexivity.
  - rewrite andb_false_r. reflexivity.
Qed.

Lemma unresolved_from_stays_absent_witness :
  parseTimeRange utc noCalendar clock2026
    (mkInput (Some (lit "yesterday")) (Some (lit "-1h")))
  = Ok (mkResolved None
          (parseTimeToken utc noCalendar (Some (lit "-1h")) clock2026)).
Proof.
  apply (unresolved_from_stays_absent utc noCalendar clock2026
           (Some (lit "yesterday")) (Some (lit "-1h"))).
  - reflexivity.
  - left. reflexivity.
Defined.

(** ** Traces of the matcher *)

Section MatcherTrace.

Variables P Q : ascii -> bool.
Variable ic : bool.

Lemma repeatMatcher_trace body nb ob (Hb : TraceBody P Q body nb ob) :
  forall fuel greedy min max prev s k res,
    repeatMatcher body fuel greedy min max prev s k = Some res ->
    exists m s',
      s = (m ++ s')%list /\ k (lastOr prev m) s' = Some res /\
      ((0 <? min)%nat && repOk min max && nb = true -> existsb P m = true) /\
      (ob = true -> forallb Q m = true).
Proof.
  induction fuel as [|fuel IH]; intros greedy min max prev s k res H;
    [discriminate|].
  assert (Hstop : k prev s = Some res -> (min = 0)%nat \/ max = Some 0%nat ->
    exists m s',
      s = (m ++ s')%list /\ k (lastOr prev m) s' = Some res /\
      ((0 <? min)%nat && repOk min max && nb = true -> existsb P m = true) /\
      (ob = true -> forallb Q m = true)).
  { intros Hk Hm. exists [], s. repeat split; auto.
    intros Hn. apply andb_true_iff in Hn as [Hn _].
    apply andb_true_iff in Hn as [Hpos Hok].
    apply Nat.ltb_lt in Hpos.
    destruct Hm as [->| ->]; [lia|]. simpl in Hok. apply Nat.leb_le in Hok. lia. }
  assert (Hiter :
    body prev s (fun prev' s' =>
      if (min =? 0)%nat && (List.length s' =? List.length s)%nat then None
      else repeatMatcher body fuel greedy (Nat.pred min)
             (option_map Nat.pred max) prev' s' k) = Some res ->
    exists m s',
      s = (m ++ s')%list /\ k (lastOr prev m) s' = Some res /\
      ((0 <? min)%nat && repOk min max && nb = true -> existsb P m = true) /\
      (ob = true -> forallb Q m = true)).
  { intros Hi. apply Hb in Hi as (m1 & s1 & -> & Hk & Hp & Hq).
    destruct ((min =? 0)%nat && _); [discriminate|].
    apply IH in Hk as (m2 & s2 & -> & Hk & _ & Hq2).
    exists (m1 ++ m2)%list, s2. rewrite lastOr_app, app_assoc.
    repeat split; auto.
    - intros Hn. apply andb_true_iff in Hn as [_ Hn].
      rewrite existsb_app, (Hp Hn). reflexivity.
    - intros Ho. rewrite forallb_app, (Hq Ho), (Hq2 Ho). reflexivity. }
  cbn [repeatMatcher] in H.
  destruct max as [[|mx]|]; [apply Hstop; auto| |].
  - destruct min as [|min']; [|apply Hiter; exact H].
    destruct greedy.
    + match type of H with
      | match ?e with _ => _ end = _ => destruct e eqn:E
      end; [apply Hiter; congruence | apply Hstop; auto].
    + destruct (k prev s) eqn:E; [apply Hstop; [congruence | auto] |].
      apply Hiter; exact H.
  - destruct min as [|min']; [|apply Hiter; exact H].
    destruct greedy.
    + match type of H with
      | match ?e with _ => _ end = _ => destruct e eqn:E
      end; [apply Hiter; congruence | apply Hstop; auto].
    + destruct (k prev s) eqn:E; [apply Hstop; [congruence | auto] |].
      apply Hiter; exact H.
Qed.

Lemma matcher_trace (r : regex) :
  TraceBody P Q (matcher ic r) (needs P ic r) (only Q ic r).
Proof.
  induction r as [| negated items | | | r1 IH1 r2 IH2 | r1 IH1 r2 IH2
                 | greedy min max r1 IH1];
    intros prev s k res H; cbn [matcher] in H.
  - exists [], s; repeat split; auto; discriminate.
  - destruct s as [|c s']; [discriminate|].
    destruct (classHas ic negated items c) eqn:Hc; [|discriminate].
    exists [c], s'; repeat split; auto.
    + cbn [needs]; intros Hn. rewrite forallb_forall in Hn.
      specialize (Hn c (In_allAscii c)). rewrite Hc in Hn. simpl in Hn.
      cbn [existsb]. now rewrite Hn.
    + cbn [only]; intros Hn. rewrite forallb_forall in Hn.
      specialize (Hn c (In_allAscii c)). rewrite Hc in Hn. simpl in Hn.
      cbn [forallb]. now rewrite Hn.
  - destruct (xorb _ _); [|discriminate].
    exists [], s; repeat split; auto; discriminate.
  - destruct s; [|discriminate].
    exists [], []; repeat split; auto; discriminate.
  - apply IH1 in H as (m1 & s1 & -> & Hk & Hp1 & Hq1).
    apply IH2 in Hk as (m2 & s2 & -> & Hk & Hp2 & Hq2).
    exists (m1 ++ m2)%list, s2. rewrite lastOr_app, app_assoc.
    repeat split; auto.
    + cbn [needs]; intros Hn. rewrite existsb_app.
      apply orb_true_iff in Hn as [Hn|Hn]; [rewrite (Hp1 Hn)|rewrite (Hp2 Hn)];
        auto using orb_true_r.
    + cbn [only]; intros Hn. apply andb_true_iff in Hn as [H1 H2].
      rewrite forallb_app, (Hq1 H1), (Hq2 H2). reflexivity.
  - destruct (matcher ic r1 prev s k) eqn:E.
    + injection H as ->. apply IH1 in E as (m & s' & -> & Hk & Hp & Hq).
      exists m, s'; repeat split; auto.
      * cbn [needs]; intros Hn. apply andb_true_iff in Hn as [Hn _]; auto.
      * cbn [only]; intros Hn. apply andb_true_iff in Hn as [Hn _]; auto.
    + apply IH2 in H as (m & s' & -> & Hk & Hp & Hq).
      exists m, s'; repeat split; auto.
      * cbn [needs]; intros Hn. apply andb_true_iff in Hn as [_ Hn]; auto.
      * cbn [only]; intros Hn. apply andb_true_iff in Hn as [_ Hn]; auto.
  - apply (repeatMatcher_trace _ _ _ IH1) in H as (m & s' & -> & Hk & Hp & Hq).
    exists m, s'; repeat split; auto.
Qed.

End MatcherTrace.

Lemma sameClass_spec (ic negated : bool) (items : list ClassItem)
  (p : ascii -> bool) :
  sameClass ic negated items p = true ->
  forall c, classHas ic negated items c = p c.
Proof.
  unfold sameClass. intros H c. rewrite forallb_forall in H.
  specialize (H c (In_allAscii c)). now apply Bool.eqb_prop in H.
Qed.

(** ** Relative tokens *)

Lemma splitLast_app (ds : str) (u : ascii) :
  splitLast (ds ++ [u]) = Some (ds, u).
Proof.
  induction ds as [|d ds IH]; [reflexivity|].
  cbn [app splitLast]. rewrite IH.
  destruct (ds ++ [u])%list eqn:E; [destruct ds; discriminate|reflexivity].
Qed.

Lemma splitLast_inv (s init : str) (l : ascii) :
  splitLast s = Some (init, l) -> s = (init ++ [l])%list.
Proof.
  revert init; induction s as [|c s IH]; intros init H; [discriminate|].
  cbn [splitLast] in H. destruct s as [|c' s'].
  - injection H as <- <-. reflexivity.
  - destruct (splitLast (c' :: s')) as [[i l']|]; [|discriminate].
    injection H as <- <-. cbn [app]. f_equal. now apply IH.
Qed.

Lemma matchRelative_iff (token digits : str) (u : ascii) :
  matchRelative token = Some (digits, u) <-> relativeShape token digits u.
Proof.
  unfold relativeShape. split.
  - intros H. destruct (matchRelative_shape _ _ _ H) as [[rest ->] _].
    unfold matchRelative in H.
    destruct (splitLast rest) as [[[|d ds] l]|] eqn:E; try discriminate.
    destruct (forallb isDigit (d :: ds) && isUnitKey l) eqn:F; [|discriminate].
    injection H as <- <-. apply andb_true_iff in F as [F1 F2].
    apply splitLast_inv in E. subst rest. repeat split; auto. discriminate.
  - intros (-> & Hne & Hd & Hu). unfold matchRelative.
    rewrite splitLast_app. destruct digits as [|d ds]; [congruence|].
    now rewrite Hd, Hu.
Qed.

Lemma unit_not_digit (u : ascii) : isUnitKey u = true -> isDigit u = false.
Proof.
  intros Hu.
  assert (H : forallb (fun c => implb (isUnitKey c) (negb (isDigit c))) allAscii
              = true) by (vm_compute; reflexivity).
  rewrite forallb_forall in H. specialize (H u (In_allAscii u)).
  rewrite Hu in H. simpl in H. now destruct (isDigit u).
Qed.

Lemma class_dash (c : ascii) :
  classHas true false [One "-"%char] c = Ascii.eqb c "-".
Proof.
  apply (sameClass_spec true false [One "-"%char] (fun x => Ascii.eqb x "-")).
  vm_compute. reflexivity.
Qed.

Lemma class_d09 (c : ascii) :
  classHas true false [Range "0" "9"] c = isDigit c.
Proof. apply sameClass_spec. vm_compute. reflexivity. Qed.

Lemma class_unit (c : ascii) :
  classHas true false (chars "smhdw") c = isUnitKey c.
Proof. apply sameClass_spec. vm_compute. reflexivity. Qed.

(** The tail [([smhdw])$] of the pattern, run on what follows the digits. *)
Lemma unit_then_end (prev : option ascii) (s : str) :
  matcher true (Cat (oneOf (chars "smhdw")) EndOfInput) prev s
    (fun _ rest => Some rest)
  = match s with
    | [u] => if isUnitKey u then Some [] else None
    | _ => None
    end.
Proof.
  cbn [matcher oneOf]. destruct s as [|u [|c s]]; try reflexivity;
    rewrite class_unit; destruct (isUnitKey u); reflexivity.
Qed.

Lemma d09_step (prev : option ascii) (s : str) (k : Cont) :
  matcher true d09 prev s k
  = match s with
    | c :: s' => if isDigit c then k (Some c) s' else None
    | [] => None
    end.
Proof.
  cbn [matcher d09]. destruct s as [|c s']; [reflexivity|].
  now rewrite class_d09.
Qed.

Lemma digits_then_unit (u : ascii) (Hu : isUnitKey u = true) :
  forall ds fuel min prev,
    (List.length ds < fuel)%nat ->
    forallb isDigit ds = true ->
    (min = 0%nat \/ (min = 1%nat /\ ds <> [])) ->
    repeatMatcher (matcher true d09) fuel true min None prev (ds ++ [u])
      (fun prev' s' =>
         matcher true (Cat (oneOf (chars "smhdw")) EndOfInput) prev' s'
           (fun _ rest => Some rest))
    = Some [].
Proof.
  induction ds as [|d ds IH]; intros fuel min prev Hfuel Hd Hmin;
    (destruct fuel as [|fuel]; [simpl in Hfuel; lia|]).
  - destruct Hmin as [->|[_ Hne]]; [|congruence].
    cbn [app repeatMatcher]. rewrite d09_step.
    rewrite (unit_not_digit u Hu), unit_then_end, Hu. reflexivity.
  - cbn [forallb] in Hd. apply andb_true_iff in Hd as [Hd0 Hd].
    assert (Hrec : repeatMatcher (matcher true d09) fuel true (Nat.pred min)
                     None (Some d) (ds ++ [u])
                     (fun prev' s' =>
                        matcher true (Cat (oneOf (chars "smhdw")) EndOfInput)
                          prev' s' (fun _ rest => Some rest)) = Some []).
    { apply IH; [simpl in Hfuel; lia|exact Hd|].
      left. destruct Hmin as [->|[-> _]]; reflexivity. }
    cbn [app repeatMatcher option_map]. rewrite d09_step, Hd0.
    replace (List.length (ds ++ [u]) =? List.length (d :: ds ++ [u]))%nat
      with false by (symmetry; apply Nat.eqb_neq; cbn [List.length]; lia).
    rewrite andb_false_r, Hrec.
    destruct min; reflexivity.
Qed.

Lemma relative_regex_unfold (token : str) :
  matchAt RELATIVE_REGEX None token
  = match token with
    | c :: s =>
        if Ascii.eqb c "-" then
          match matcher true (Rep true 1 None d09) (Some c) s
                  (fun prev' s' =>
                     matcher true (Cat (oneOf (chars "smhdw")) EndOfInput)
                       prev' s' (fun _ rest => Some rest)) with
          | Some rest => Some (List.length token - List.length rest)%nat
          | None => None
          end
        else None
    | [] => None
    end.
Proof.
  unfold matchAt, RELATIVE_REGEX. cbn [body ignoreCase cat].
  destruct token as [|c s]; [reflexivity|].
  change (matcher true (Cat (chr "-") (Cat (plus d09)
            (Cat (oneOf (chars "smhdw")) EndOfInput))) None (c :: s)
            (fun _ rest => Some rest))
    with (if classHas true false [One "-"%char] c
          then matcher true (Rep true 1 None d09) (Some c) s
                 (fun prev' s' =>
                    matcher true (Cat (oneOf (chars "smhdw")) EndOfInput)
                      prev' s' (fun _ rest => Some rest))
          else None).
  rewrite class_dash. destruct (Ascii.eqb c "-"); reflexivity.
Qed.

Lemma relative_regex_accepts (token digits : str) (u : ascii) :
  relativeShape token digits u ->
  matchAt RELATIVE_REGEX None token = Some (List.length token).
Proof.
  intros (-> & Hne & Hd & Hu). rewrite relative_regex_unfold.
  change (Ascii.eqb "-" "-") with true. cbv iota.
  cbn [matcher].
  rewrite (digits_then_unit u Hu digits _ 1 (Some "-"%char));
    [f_equal; cbn [List.length]; lia | rewrite length_app; simpl; lia
    | exact Hd | right; auto].
Qed.

Lemma relative_regex_sound (token : str) (n : nat) :
  matchAt RELATIVE_REGEX None token = Some n ->
  exists digits u, relativeShape token digits u.
Proof.
  rewrite relative_regex_unfold. destruct token as [|c s]; [discriminate|].
  destruct (Ascii.eqb c "-") eqn:Ec; [|discriminate].
  apply Ascii.eqb_eq in Ec. subst c.
  destruct (matcher _ _ _ _ _) as [rest|] eqn:E; [|discriminate]. intros _.
  apply (matcher_trace isDigit isDigit) in E as (m & s' & -> & Hk & Hp & Hq).
  assert (Hm : existsb isDigit m = true) by (apply Hp; vm_compute; reflexivity).
  assert (Hall : forallb isDigit m = true) by (apply Hq; vm_compute; reflexivity).
  rewrite unit_then_end in Hk.
  destruct s' as [|u [|c s'']]; try discriminate.
  destruct (isUnitKey u) eqn:Hu; [|discriminate].
  exists m, u. unfold relativeShape. repeat split; auto.
  intros ->. discriminate.
Qed.

(** X4: the pattern [/^-([0-9]+)([smhdw])$/i], run at the start of a
    token, matches exactly when [matchRelative], by which the resolver
    reads relative tokens, does; the captures are the digits and the unit
    letter of a token that is a minus sign, one or more decimal digits and
    one of the letters s, m, h, d, w in either case, and nothing else; and
    the match covers the whole token. *)
Theorem relative_regex_is_recogniser (token : str) :
  (isSome (matchAt RELATIVE_REGEX None token) = isSome (matchRelative token)) /\
  (forall digits u,
     matchRelative token = Some (digits, u) <-> relativeShape token digits u) /\
  (forall digits u,
     relativeShape token digits u ->
     matchAt RELATIVE_REGEX None token = Some (List.length token)).
Proof.
  split; [|split].
  - destruct (matchAt RELATIVE_REGEX None token) as [n|] eqn:E.
    + destruct (relative_regex_sound _ _ E) as (ds & u & Hs).
      apply matchRelative_iff in Hs. now rewrite Hs.
    + destruct (matchRelative token) as [[ds u]|] eqn:M; [|reflexivity].
      apply matchRelative_iff in M.
      rewrite (relative_regex_accepts _ _ _ M) in E. discriminate.
  - intros ds u. apply matchRelative_iff.
  - intros ds u M. now apply (relative_regex_accepts _ ds u).
Qed.

Lemma relative_regex_is_recogniser_witness :
  matchRelative (lit "-15M") = Some (lit "15", "M"%char)
  /\ matchAt RELATIVE_REGEX None (lit "-15M") = Some 4%nat.
Proof.
  assert (Hs : relativeShape (lit "-15M") (lit "15") "M").
  { unfold relativeShape. repeat split; [discriminate]. }
  destruct (relative_regex_is_recogniser (lit "-15M")) as (_ & Hiff & Hm).
  split; [apply Hiff; exact Hs|exact (Hm _ _ Hs)].
Defined.

Lemma subtract_clock_unit (zone : Zone) (now amount : Z)
  (unit : DurationUnit) :
  isClockUnit unit = true ->
  Z.abs now <= maxTime ->
  subtract zone (Some now) amount (Some unit)
  = timeClip (now - amount * unitMs unit).
Proof.
  intros Hu Hnow. unfold subtract.
  replace (durationDays amount (Some unit)) with 0
    by (destruct unit; try discriminate; reflexivity).
  replace (durationMs amount (Some unit)) with (amount * unitMs unit)
    by (destruct unit; try discriminate; reflexivity).
  cbn [Z.eqb]. destruct (Z.eqb_spec (amount * unitMs unit) 0) as [E|E];
    [|reflexivity].
  rewrite E, Z.sub_0_r. symmetry. now apply timeClip_Some.
Qed.

(** An amount of 2^53 or more takes the subtraction out of the range of a
    date, whatever the unit: the rounding of such an amount to a double,
    which keeps it at 2^53 or more, cannot be observed. *)
Lemma subtract_beyond_range (zone : Zone) (now amount : Z)
  (unit : DurationUnit) :
  Z.abs now <= maxTime ->
  offsetsWithinADay zone ->
  9007199254740992 <= amount ->
  subtract zone (Some now) amount (Some unit) = None.
Proof.
  intros Hnow Hz Ha. unfold maxTime in Hnow.
  destruct (isClockUnit unit) eqn:Hu.
  - rewrite subtract_clock_unit by assumption.
    apply timeClip_None. unfold maxTime.
    assert (1000 <= unitMs unit) by (destruct unit; cbn; lia). nia.
  - unfold subtract.
    assert (Hn : amount <= durationDays amount (Some unit))
      by (destruct unit; try discriminate; cbn; lia).
    replace (durationMs amount (Some unit)) with 0
      by (destruct unit; try discriminate; reflexivity).
    destruct (Z.eqb_spec (durationDays amount (Some unit)) 0) as [E|_]; [lia|].
    unfold subtractDays.
    destruct (Hz now) as [H1 _].
    destruct (Hz (now + localTZA zone now
                  - durationDays amount (Some unit) * 86400000)) as [_ H2].
    rewrite timeClip_None; [reflexivity|]. unfold maxTime. lia.
Qed.

(** Days are calendar days: three days before 07:00 on 3 November in the
    zone that left daylight saving time on 1 November is 07:00 on
    31 October, 73 hours earlier. *)
Example subtract_days_across_fall_back :
  subtract fallBackZone (Some clock2026) 3 (Some days)
  = Some (clock2026 - 73 * 3600000) /\
  format fallBackZone (Some clock2026) = lit "2026-11-03T07:00:00-05:00" /\
  format fallBackZone (subtract fallBackZone (Some clock2026) 3 (Some days))
  = lit "2026-10-31T07:00:00-04:00".
Proof. repeat split; vm_compute; reflexivity. Qed.

(** X5: a token made of a minus sign, one or more decimal digits and one of
    the letters s, m, h, d, w in either case resolves to the text of now
    with that many units subtracted by moment, without the calendar parser
    being consulted.  For seconds, minutes and hours that is the instant
    now minus the magnitude, or [Invalid date] when this instant lies
    beyond the range of a date; days and weeks are taken off the date of
    the month in local time.  And 'now' in any mix of cases resolves to
    now. *)
Theorem relative_token_resolves (zone : Zone)
  (momentParse : str -> option Z) (now : Z) (token digits : str) (u : ascii) :
  relativeShape token digits u ->
  (exists unit,
     UNIT_MAP (toLowerChar u) = Some unit /\
     parseTimeToken zone momentParse (Some token) now
     = Some (fmt zone
               (subtract zone (Some now) (parseInt digits) (Some unit))) /\
     (isClockUnit unit = true -> Z.abs now <= maxTime ->
      let t := now - parseInt digits * unitMs unit in
      parseTimeToken zone momentParse (Some token) now
      = Some (if Z.abs t <=? maxTime then fmt zone (Some t)
              else INVALID_DATE))) /\
  (forall word,
     toLowerCase word = lit "now" ->
     parseTimeToken zone momentParse (Some word) now
     = Some (fmt zone (Some now))).
Proof.
  intros Hs. apply matchRelative_iff in Hs. split.
  - destruct (matchRelative_shape _ _ _ Hs) as [_ [unit Hu]].
    exists unit. split; [exact Hu|].
    rewrite (parseTimeToken_relative zone momentParse now token digits u unit
               Hs Hu).
    split; [reflexivity|]. intros Hc Hnow. cbv zeta.
    rewrite (subtract_clock_unit zone now _ unit Hc Hnow). unfold timeClip.
    now destruct (Z.abs (now - parseInt digits * unitMs unit) <=? maxTime).
  - intros word Hw. unfold parseTimeToken.
    destruct word as [|c w]; [discriminate|].
    now rewrite Hw.
Qed.

Lemma relative_token_resolves_witness :
  exists unit,
    UNIT_MAP (toLowerChar "H") = Some unit /\
    parseTimeToken utc noCalendar (Some (lit "-3H")) clock2026
    = Some (fmt utc (subtract utc (Some clock2026) (parseInt (lit "3"))
                       (Some unit))) /\
    (isClockUnit unit = true -> Z.abs clock2026 <= maxTime ->
     parseTimeToken utc noCalendar (Some (lit "-3H")) clock2026
     = Some (if Z.abs (clock2026 - parseInt (lit "3") * unitMs unit)
                <=? maxTime
             then fmt utc (Some (clock2026 - parseInt (lit "3") * unitMs unit))
             else INVALID_DATE)).
Proof.
  assert (Hs : relativeShape (lit "-3H") (lit "3") "H").
  { unfold relativeShape. repeat split; [discriminate]. }
  destruct (relative_token_resolves utc noCalendar clock2026
              (lit "-3H") (lit "3") "H" Hs) as [H _].
  exact H.
Defined.

(** X16: the window rule where text order is chronological order.  With
    no [from] (omitted or empty) and a relative [to], if the subtraction
    gives an instant not later than now, the zone has the same offset at
    that instant and now, and now lies in the years 0000 to 9999, the
    range is [from] = that instant and [to] = now. *)
Theorem window_rule_within_range (zone : Zone)
  (momentParse : str -> option Z) (now : Z) (fromTok : option str)
  (token digits : str) (u : ascii) (a o : Z) :
  truthy fromTok = false ->
  relativeShape token digits u ->
  subtract zone (Some now) (parseInt digits) (UNIT_MAP (toLowerChar u))
  = Some a ->
  a <= now ->
  offsetIs zone a o -> offsetIs zone now o ->
  fourDigitYear (fields o now) ->
  parseTimeRange zone momentParse now (mkInput fromTok (Some token))
  = Ok (mkResolved (Some (fmt zone (Some a))) (Some (fmt zone (Some now)))).
Proof.
  intros Hfrom Hs Hsub Hle Oa On Yn. apply matchRelative_iff in Hs.
  destruct (matchRelative_shape _ _ _ Hs) as [[rest Htok] [unit Hu]].
  assert (Hf : parseTimeToken zone momentParse fromTok now = None)
    by (destruct fromTok as [[|c f]|]; [reflexivity|discriminate|reflexivity]).
  assert (Ht : truthy (Some token) = true) by (rewrite Htok; reflexivity).
  unfold parseTimeRange. cbn [from to]. rewrite Hf, Hfrom, Ht, Hs.
  cbn [truthy negb andb isSome bind]. rewrite Hsub.
  rewrite (format_offsetIs _ _ _ Oa), (format_offsetIs _ _ _ On).
  pose proof (truthy_formatAt o a) as Ta.
  pose proof (truthy_formatAt o now) as Tn.
  cbn [truthy] in Ta, Tn. rewrite Ta, Tn. cbn [andb].
  now rewrite (formatAt_order o a now Hle Yn).
Qed.

Lemma window_rule_within_range_witness :
  parseTimeRange utc noCalendar clock2026 (mkInput None (Some (lit "-2h")))
  = Ok (mkResolved (Some (lit "2026-11-03T10:00:00+00:00"))
                   (Some (lit "2026-11-03T12:00:00+00:00"))).
Proof.
  assert (Hs : relativeShape (lit "-2h") (lit "2") "h").
  { unfold relativeShape. repeat split; [discriminate]. }
  rewrite (window_rule_within_range utc noCalendar clock2026 None
             (lit "-2h") (lit "2") "h" (clock2026 - 2 * 3600000) 0).
  - vm_compute. reflexivity.
  - reflexivity.
  - exact Hs.
  - vm_compute. reflexivity.
  - vm_compute. discriminate.
  - apply offsetIs_fixed.
  - apply offsetIs_fixed.
  - unfold fourDigitYear. vm_compute. split; discriminate.
Defined.

(** * Further properties of the masker *)

(** X6: a candidate is a likely phone number exactly when it holds between
    7 and 15 decimal digits, whatever else it holds. *)
Theorem likely_phone_counts_digits (s : str) :
  isLikelyPhoneNumber s = true
  <-> (7 <= List.length (filter isDigit s) <= 15)%nat.
Proof.
  rewrite isLikelyPhoneNumber_digits, andb_true_iff, !Nat.leb_le. tauto.
Qed.

(** ** First occurrence *)

Lemma isPrefixOf_spec (p s : str) :
  isPrefixOf p s = true <-> exists rest, s = (p ++ rest)%list.
Proof.
  revert s; induction p as [|x p IH]; intros s.
  - split; [intros _; exists s; reflexivity | reflexivity].
  - destruct s as [|y s]; cbn [isPrefixOf].
    + split; [discriminate|intros [rest H]; discriminate].
    + rewrite andb_true_iff, IH. split.
      * intros [Hx [rest ->]]. apply Ascii.eqb_eq in Hx. subst y.
        exists rest. reflexivity.
      * intros [rest H]. injection H as <- ->. split;
          [apply Ascii.eqb_refl | eauto].
Qed.

Lemma occursAt_O (m s : str) : occursAt m s 0 <-> isPrefixOf m s = true.
Proof.
  rewrite isPrefixOf_spec. unfold occursAt. split.
  - intros (pre & post & -> & Hl). destruct pre; [|discriminate].
    exists post. reflexivity.
  - intros [rest ->]. exists [], rest. auto.
Qed.

Lemma occursAt_S (m : str) (c : ascii) (s : str) (i : nat) :
  occursAt m (c :: s) (S i) <-> occursAt m s i.
Proof.
  unfold occursAt. split.
  - intros (pre & post & E & Hl). destruct pre as [|c' pre]; [discriminate|].
    injection E as <- ->. injection Hl as Hl. eauto.
  - intros (pre & post & -> & Hl). exists (c :: pre), post. split;
      [reflexivity | simpl; now rewrite Hl].
Qed.

Lemma occursAt_nil (m : str) (i : nat) : occursAt m [] (S i) -> False.
Proof. intros (pre & post & E & Hl). destruct pre; discriminate. Qed.

Lemma indexOf_Some (m : str) :
  forall s i, indexOf m s = Some i -> firstOccurrence m s i.
Proof.
  induction s as [|c s IH]; intros i H.
  - cbn [indexOf] in H. destruct (isPrefixOf m []) eqn:E; [|discriminate].
    injection H as <-. split; [now apply occursAt_O|intros j Hj; lia].
  - cbn [indexOf] in H. destruct (isPrefixOf m (c :: s)) eqn:E.
    + injection H as <-. split; [now apply occursAt_O|intros j Hj; lia].
    + destruct (indexOf m s) as [i'|]; [|discriminate]. injection H as <-.
      destruct (IH i' eq_refl) as [Ho Hmin]. split.
      * now apply occursAt_S.
      * intros [|j] Hj Hc.
        -- apply occursAt_O in Hc. congruence.
        -- apply occursAt_S in Hc. apply (Hmin j); [lia|exact Hc].
Qed.

Lemma indexOf_None (m : str) :
  forall s, indexOf m s = None -> forall i, ~ occursAt m s i.
Proof.
  induction s as [|c s IH]; intros H i Hc; cbn [indexOf] in H.
  - destruct (isPrefixOf m []) eqn:E; [discriminate|].
    destruct i; [apply occursAt_O in Hc; congruence|now apply occursAt_nil in Hc].
  - destruct (isPrefixOf m (c :: s)) eqn:E; [discriminate|].
    destruct (indexOf m s) eqn:F; [discriminate|].
    destruct i; [apply occursAt_O in Hc; congruence|].
    apply occursAt_S in Hc. now apply (IH eq_refl i).
Qed.

Lemma firstOccurrence_unique (m s : str) (i j : nat) :
  firstOccurrence m s i -> firstOccurrence m s j -> i = j.
Proof.
  intros [Hi Mi] [Hj Mj].
  destruct (Nat.lt_trichotomy i j) as [H|[H|H]]; [|exact H|].
  - now apply Mj in H.
  - now apply Mi in H.
Qed.

(** [indexOf] returns the index of the first occurrence, and [None] when
    there is none. *)
Lemma indexOf_spec (m s : str) (i : nat) :
  indexOf m s = Some i <-> firstOccurrence m s i.
Proof.
  split; [apply indexOf_Some|].
  intros Hf. destruct (indexOf m s) as [j|] eqn:E.
  - f_equal. apply (firstOccurrence_unique m s); [now apply indexOf_Some|exact Hf].
  - destruct Hf as [Ho _]. now apply (indexOf_None m s E) in Ho.
Qed.

(** ** The URL guard *)

Lemma chr_step (x : ascii) (prev : option ascii) (s : str) (k : Cont) :
  matcher false (chr x) prev s k
  = match s with
    | c :: s' => if Ascii.eqb x c then k (Some c) s' else None
    | [] => None
    end.
Proof.
  cbn [matcher chr]. destruct s as [|c s']; [reflexivity|].
  unfold classHas. cbn [existsb itemHas xorb]. now rewrite orb_false_r.
Qed.

Lemma chr_inv (x : ascii) (r : regex) (prev : option ascii) (s : str)
  (k : Cont) (res : str) :
  matcher false (Cat (chr x) r) prev s k = Some res ->
  exists s', s = x :: s' /\ matcher false r (Some x) s' k = Some res.
Proof.
  change (matcher false (Cat (chr x) r) prev s k)
    with (matcher false (chr x) prev s (fun p' s' => matcher false r p' s' k)).
  rewrite chr_step. destruct s as [|c s']; [discriminate|].
  destruct (Ascii.eqb x c) eqn:E; [|discriminate].
  apply Ascii.eqb_eq in E. subst c. eauto.
Qed.

Lemma chr_intro (x : ascii) (r : regex) (prev : option ascii) (s' : str)
  (k : Cont) :
  matcher false (Cat (chr x) r) prev (x :: s') k = matcher false r (Some x) s' k.
Proof.
  change (matcher false (Cat (chr x) r) prev (x :: s') k)
    with (matcher false (chr x) prev (x :: s')
            (fun p' s'' => matcher false r p' s'' k)).
  rewrite chr_step. now rewrite Ascii.eqb_refl.
Qed.

Lemma opt_chr_step (x : ascii) (prev : option ascii) (s : str) (k : Cont) :
  matcher false (opt (chr x)) prev s k
  = match s with
    | c :: s' =>
        if Ascii.eqb x c then
          match k (Some c) s' with
          | Some r => Some r
          | None => k prev s
          end
        else k prev s
    | [] => k prev s
    end.
Proof.
  unfold opt. cbn [matcher Nat.add repeatMatcher]. rewrite chr_step.
  destruct s as [|c s']; [reflexivity|].
  destruct (Ascii.eqb x c); [|reflexivity].
  replace (List.length s' =? List.length (c :: s'))%nat with false
    by (symmetry; apply Nat.eqb_neq; cbn [List.length]; lia).
  cbn [Nat.eqb andb List.length repeatMatcher option_map Nat.pred].
  reflexivity.
Qed.

Lemma opt_chr_inv (x : ascii) (r : regex) (prev : option ascii) (s : str)
  (k : Cont) (res : str) :
  matcher false (Cat (opt (chr x)) r) prev s k = Some res ->
  (exists s', s = x :: s' /\ matcher false r (Some x) s' k = Some res)
  \/ matcher false r prev s k = Some res.
Proof.
  change (matcher false (Cat (opt (chr x)) r) prev s k)
    with (matcher false (opt (chr x)) prev s
            (fun p' s' => matcher false r p' s' k)).
  rewrite opt_chr_step. destruct s as [|c s']; [auto|].
  destruct (Ascii.eqb x c) eqn:E; [|auto].
  apply Ascii.eqb_eq in E. subst c.
  destruct (matcher false r (Some x) s' k) eqn:F; [|auto].
  intros [= <-]. left. eauto.
Qed.

Lemma opt_chr_take (x : ascii) (r : regex) (prev : option ascii) (s' : str)
  (k : Cont) (res : str) :
  matcher false r (Some x) s' k = Some res ->
  matcher false (Cat (opt (chr x)) r) prev (x :: s') k = Some res.
Proof.
  intros H.
  change (matcher false (Cat (opt (chr x)) r) prev (x :: s') k)
    with (matcher false (opt (chr x)) prev (x :: s')
            (fun p' s'' => matcher false r p' s'' k)).
  rewrite opt_chr_step, Ascii.eqb_refl. now rewrite H.
Qed.

Lemma opt_chr_skip (x c : ascii) (r : regex) (prev : option ascii) (s' : str)
  (k : Cont) :
  Ascii.eqb x c = false ->
  matcher false (Cat (opt (chr x)) r) prev (c :: s') k
  = matcher false r prev (c :: s') k.
Proof.
  intros H.
  change (matcher false (Cat (opt (chr x)) r) prev (c :: s') k)
    with (matcher false (opt (chr x)) prev (c :: s')
            (fun p' s'' => matcher false r p' s'' k)).
  now rewrite opt_chr_step, H.
Qed.

Lemma noSpace_step (prev : option ascii) (s : str) (k : Cont) :
  matcher false (noneOf [ClsSpace]) prev s k
  = match s with
    | c :: s' => if negb (isSpace c) then k (Some c) s' else None
    | [] => None
    end.
Proof.
  cbn [matcher noneOf]. destruct s as [|c s']; [reflexivity|].
  unfold classHas. cbn [existsb itemHas]. rewrite orb_false_r.
  destruct (isSpace c); reflexivity.
Qed.

Lemma star_noSpace_to_end :
  forall s fuel prev,
    (List.length s < fuel)%nat ->
    noSpace s = true ->
    repeatMatcher (matcher false (noneOf [ClsSpace])) fuel true 0 None prev s
      (fun prev' s' => matcher false EndOfInput prev' s'
                         (fun _ rest => Some rest))
    = Some [].
Proof.
  induction s as [|c s IH]; intros fuel prev Hfuel Hs;
    (destruct fuel as [|fuel]; [simpl in Hfuel; lia|]);
    cbn [repeatMatcher option_map]; rewrite noSpace_step.
  - reflexivity.
  - unfold noSpace in Hs. cbn [forallb] in Hs.
    apply andb_true_iff in Hs as [Hc Hs]. rewrite Hc.
    replace (List.length s =? List.length (c :: s))%nat with false
      by (symmetry; apply Nat.eqb_neq; cbn [List.length]; lia).
    rewrite andb_false_r, IH; [reflexivity|simpl in Hfuel; lia|exact Hs].
Qed.

(** The tail [[^\s]*$] of the pattern succeeds exactly on texts without
    white space. *)
Lemma url_tail_spec (prev : option ascii) (s : str) :
  matcher false (Cat (star (noneOf [ClsSpace])) EndOfInput) prev s
    (fun _ rest => Some rest)
  = if noSpace s then Some [] else None.
Proof.
  destruct (noSpace s) eqn:Hs.
  - cbn [matcher star]. apply star_noSpace_to_end; [lia|exact Hs].
  - destruct (matcher _ _ _ _ _) as [res|] eqn:E; [|reflexivity].
    change (matcher false (star (noneOf [ClsSpace])) prev s
              (fun p' s' => matcher false EndOfInput p' s'
                              (fun _ rest => Some rest)) = Some res) in E.
    apply (matcher_trace isDigit (fun c => negb (isSpace c))) in E
      as (m & s' & -> & Hk & _ & Hq).
    cbn [matcher] in Hk. destruct s'; [|discriminate].
    rewrite app_nil_r in Hs. unfold noSpace in Hs.
    rewrite Hq in Hs; [discriminate|vm_compute; reflexivity].
Qed.

Lemma url_body_chain (prev : option ascii) (s : str) (k : Cont) :
  matcher false (body urlPrefixRegex) prev s k
  = matcher false
      (Cat (chr "h") (Cat (chr "t") (Cat (chr "t") (Cat (chr "p")
        (Cat (opt (chr "s")) (Cat (chr ":") (Cat (chr "/") (Cat (chr "/")
          (Cat (star (noneOf [ClsSpace])) EndOfInput)))))))))
      prev s k.
Proof. reflexivity. Qed.

Lemma url_match_sound (prev : option ascii) (t : str) (n : nat) :
  matchAt urlPrefixRegex prev t = Some n ->
  exists scheme v,
    t = (scheme ++ v)%list /\
    (scheme = lit "http://" \/ scheme = lit "https://") /\ noSpace v = true.
Proof.
  unfold matchAt. change (ignoreCase urlPrefixRegex) with false.
  destruct (matcher _ _ _ _ _) as [res|] eqn:E; [|discriminate]. intros _.
  rewrite url_body_chain in E.
  apply chr_inv in E as (t1 & -> & E). apply chr_inv in E as (t2 & -> & E).
  apply chr_inv in E as (t3 & -> & E). apply chr_inv in E as (t4 & -> & E).
  apply opt_chr_inv in E as [(t5 & -> & E)|E];
    apply chr_inv in E as (t6 & -> & E); apply chr_inv in E as (t7 & -> & E);
    apply chr_inv in E as (v & -> & E); rewrite url_tail_spec in E;
    destruct (noSpace v) eqn:Hv; try discriminate.
  - exists (lit "https://"), v. auto.
  - exists (lit "http://"), v. auto.
Qed.

Lemma url_match_complete (prev : option ascii) (scheme v : str) :
  scheme = lit "http://" \/ scheme = lit "https://" ->
  noSpace v = true ->
  matchAt urlPrefixRegex prev (scheme ++ v)
  = Some (List.length (scheme ++ v)).
Proof.
  intros Hs Hv. unfold matchAt. change (ignoreCase urlPrefixRegex) with false.
  rewrite url_body_chain.
  destruct Hs as [-> | ->]; cbn [lit list_ascii_of_string app].
  - rewrite !chr_intro, opt_chr_skip by reflexivity.
    rewrite !chr_intro, url_tail_spec, Hv. cbn [List.length]. f_equal; lia.
  - rewrite !chr_intro.
    rewrite (opt_chr_take "s" _ _ _ _ []);
      [cbn [List.length]; f_equal; lia|].
    now rewrite !chr_intro, url_tail_spec, Hv.
Qed.

Lemma searchFrom_sound (re : RegExp) :
  forall s prev,
    searchFrom re prev s = true ->
    exists u t n, s = (u ++ t)%list /\ matchAt re (lastOr prev u) t = Some n.
Proof.
  induction s as [|c s IH]; intros prev H; cbn [searchFrom] in H.
  - destruct (matchAt re prev []) as [n|] eqn:E; [|discriminate].
    exists [], [], n. auto.
  - destruct (matchAt re prev (c :: s)) as [n|] eqn:E.
    + exists [], (c :: s), n. auto.
    + apply IH in H as (u & t & n & -> & Hm).
      exists (c :: u), t, n. auto.
Qed.

Lemma searchFrom_complete (re : RegExp) :
  forall u prev t n,
    matchAt re (lastOr prev u) t = Some n ->
    searchFrom re prev (u ++ t) = true.
Proof.
  induction u as [|c u IH]; intros prev t n H; cbn [lastOr app] in *.
  - destruct t; cbn [searchFrom]; now rewrite H.
  - cbn [searchFrom]. destruct (matchAt re prev (c :: u ++ t)); [reflexivity|].
    now apply (IH (Some c) t n).
Qed.

Lemma test_url_prefix (pre : str) :
  test urlPrefixRegex pre = true <-> urlPrefixed pre.
Proof.
  unfold test, urlPrefixed. split.
  - intros H. apply searchFrom_sound in H as (u & t & n & -> & Hm).
    apply url_match_sound in Hm as (scheme & v & -> & Hs & Hv).
    exists u, scheme, v. auto.
  - intros (u & scheme & v & -> & Hs & Hv).
    apply (searchFrom_complete urlPrefixRegex u None (scheme ++ v)
             (List.length (scheme ++ v))).
    now apply url_match_complete.
Qed.

Lemma firstOccurrence_firstn (m s : str) (i : nat) :
  firstOccurrence m s i ->
  exists post, s = (firstn i s ++ m ++ post)%list.
Proof.
  intros [(pre & post & -> & <-) _]. exists post.
  now rewrite firstn_app_length.
Qed.

(** X7: the URL guard holds for a candidate exactly when the candidate
    occurs in the text and the part of the text before its first
    occurrence ends with [http://] or [https://] followed by characters
    none of which is white space. *)
Theorem url_guard_spec (candidate fullText : str) :
  isPartOfUrl candidate fullText = true
  <-> exists i,
        firstOccurrence candidate fullText i /\
        urlPrefixed (firstn i fullText).
Proof.
  unfold isPartOfUrl. split.
  - destruct (indexOf candidate fullText) as [i|] eqn:E; [|discriminate].
    intros H. exists i. split; [now apply indexOf_spec|].
    now apply test_url_prefix.
  - intros (i & Hf & Hu). apply indexOf_spec in Hf. rewrite Hf.
    now apply test_url_prefix.
Qed.

(** ** The masker: what a replacement can do to a text *)

Lemma matchAt_le (re : RegExp) (prev : option ascii) (s : str) (n : nat) :
  matchAt re prev s = Some n -> (n <= List.length s)%nat.
Proof.
  intros H. apply (matchAt_sound isDigit) in H as (m & s' & -> & -> & _).
  rewrite length_app. lia.
Qed.

(** A global replacement rewrites disjoint pieces of its input, each of
    them a match of the pattern. *)
Lemma replaceFrom_rewrites (re : RegExp) (f : str -> nat -> str -> str)
  (whole : str) :
  forall s prev off k,
    (k <= List.length s)%nat ->
    Rewrites (matchedBy re) f whole (skipn k s)
      (replaceFrom re f whole prev s off k).
Proof.
  induction s as [|c s IH]; intros prev off k Hk.
  - destruct k; [|simpl in Hk; lia]. cbn [replaceFrom skipn].
    destruct (matchAt re prev []) as [n|] eqn:E; [|constructor].
    rewrite <- (app_nil_r (f [] off whole)).
    apply (rw_repl (matchedBy re) f whole [] [] [] off); [|constructor].
    exists prev, []. pose proof (matchAt_le _ _ _ _ E) as Hn.
    cbn [List.length app] in *. now replace n with 0%nat in E by lia.
  - destruct k as [|k]; cbn [replaceFrom skipn].
    + destruct (matchAt re prev (c :: s)) as [n|] eqn:E.
      * destruct n as [|n].
        -- apply (rw_repl (matchedBy re) f whole [] (c :: s) _ off).
           ++ now exists prev, (c :: s).
           ++ constructor. apply (IH (Some c) (S off) 0%nat). lia.
        -- pose proof (matchAt_le _ _ _ _ E) as Hn. cbn [List.length] in Hn.
           assert (HM : matchedBy re (firstn (S n) (c :: s))).
           { exists prev, (skipn (S n) (c :: s)).
             rewrite firstn_skipn, E. f_equal. symmetry.
             apply firstn_length_le. cbn [List.length]. lia. }
           pose proof (rw_repl (matchedBy re) f whole (firstn (S n) (c :: s))
                         (skipn (S n) (c :: s)) _ off HM
                         (IH (Some c) (S off) n ltac:(lia))) as R.
           rewrite firstn_skipn in R. exact R.
      * constructor. apply (IH (Some c) (S off) 0%nat). lia.
    + apply IH. simpl in Hk. lia.
Qed.

Lemma replace_rewrites (re : RegExp) (f : str -> nat -> str -> str) (s : str) :
  Rewrites (matchedBy re) f s s (replace re f s).
Proof. apply (replaceFrom_rewrites re f s s None 0 0). lia. Qed.

Lemma searchFrom_false (re : RegExp) (s : str) (prev : option ascii) :
  searchFrom re prev s = false ->
  forall pre post,
    s = (pre ++ post)%list -> matchAt re (lastOr prev pre) post = None.
Proof.
  intros H pre post ->.
  destruct (matchAt re (lastOr prev pre) post) as [n|] eqn:E; [|reflexivity].
  rewrite (searchFrom_complete re pre prev post n E) in H. discriminate.
Qed.

(** The test that guards the e-mail stage does not change its outcome. *)
Lemma email_guard_redundant (text : str) :
  (if test emailPattern text
   then replaceWith emailPattern EMAIL_REDACTED text else text)
  = replaceWith emailPattern EMAIL_REDACTED text.
Proof.
  destruct (test emailPattern text) eqn:E; [reflexivity|].
  symmetry. unfold replaceWith, replace. apply replaceFrom_unmatched.
  now apply searchFrom_false.
Qed.

Lemma phoneLoop_passes (fuel : nat) :
  forall prev m r, phoneLoop fuel prev m = Some r -> exists n, r = passes n m.
Proof.
  induction fuel as [|fuel IH]; intros prev m r H.
  - rewrite phoneLoop_O in H. destruct (str_eqb prev m); [|discriminate].
    injection H as <-. exists 0%nat. now rewrite passes_O.
  - rewrite phoneLoop_S in H. destruct (str_eqb prev m).
    + injection H as <-. exists 0%nat. now rewrite passes_O.
    + apply IH in H as [n ->]. exists (S n). now rewrite passes_S.
Qed.

Lemma passes_invariant (I : str -> Prop) :
  (forall s, I s -> I (phonePass s)) ->
  forall n m, I m -> I (passes n m).
Proof.
  intros Hstep. induction n as [|n IH]; intros m Hm.
  - now rewrite passes_O.
  - rewrite passes_S. apply IH. now apply Hstep.
Qed.

Lemma fold_invariant (I : str -> Prop) (step : str -> RegExp -> str)
  (l : list RegExp) :
  (forall s p, In p l -> I s -> I (step s p)) ->
  forall s, I s -> I (fold_left step l s).
Proof.
  induction l as [|p l IH]; intros Hstep s Hs; cbn [fold_left]; [exact Hs|].
  apply IH.
  - intros s' q Hq. apply Hstep. now right.
  - apply Hstep; [now left|exact Hs].
Qed.

(** The stages of the masker, as one invariant rule: a property kept by
    every replacement of every stage is kept by the whole masker. *)
Lemma mask_invariant (I : str -> Prop) :
  (forall re placeholder s,
     In placeholder [EMAIL_REDACTED; CARD_REDACTED; ADDRESS_REDACTED;
                     SSN_REDACTED] ->
     In re (emailPattern :: ssnPattern :: creditCardPatterns
              ++ addressPatterns) ->
     I s -> I (replaceWith re placeholder s)) ->
  (forall re s, In re phonePatterns -> I s -> I (replace re phoneReplacer s)) ->
  forall fuel env t r,
    maskSensitiveInfo fuel env t = Some r -> I t -> I r.
Proof.
  intros Hfix Hphone fuel env t r H Ht. unfold maskSensitiveInfo in H.
  destruct (negb (isMaskingEnabled env)); [now injection H as <-|].
  destruct (phoneLoop fuel [] (maskBeforeLoop t)) as [m|] eqn:E; [|discriminate].
  injection H as <-.
  assert (Hpass : forall s, I s -> I (phonePass s)).
  { intros s Hs. unfold phonePass. apply fold_invariant; [|exact Hs].
    intros s' p Hp. now apply Hphone. }
  assert (Hm : I m).
  { apply phoneLoop_passes in E as [n ->].
    apply passes_invariant; [exact Hpass|].
    unfold maskBeforeLoop. cbv zeta. rewrite email_guard_redundant.
    apply Hpass. apply fold_invariant.
    - intros s' p Hp. apply Hfix; [cbn; auto|].
      right. right. apply in_or_app. now left.
    - apply Hfix; [cbn; auto|now left|exact Ht]. }
  unfold maskAfterLoop. cbv zeta.
  apply Hfix; [cbn; auto|right; now left|].
  apply fold_invariant; [|exact Hm].
  intros s' p Hp. apply Hfix; [cbn; auto|].
  right. right. apply in_or_app. now right.
Qed.

Lemma redacted_app_l (x y : str) : redacted x -> redacted (x ++ y).
Proof.
  intros (a & b & ->). exists a, (b ++ y)%list. now rewrite <- !app_assoc.
Qed.

Lemma redacted_app_r (x y : str) : redacted y -> redacted (x ++ y).
Proof. intros (a & b & ->). exists (x ++ a)%list, b. now rewrite <- app_assoc. Qed.

Lemma placeholders_redacted (placeholder : str) :
  In placeholder [EMAIL_REDACTED; CARD_REDACTED; PHONE_REDACTED;
                  ADDRESS_REDACTED; SSN_REDACTED] ->
  redacted placeholder /\ existsb isDigit placeholder = false
  /\ placeholder <> [].
Proof.
  intros [<-|[<-|[<-|[<-|[<-|[]]]]]];
    (split; [|split; [reflexivity|discriminate]]).
  - now exists (lit "[EMAIL"), [].
  - now exists (lit "[CARD NUMBER"), [].
  - now exists (lit "[PHONE"), [].
  - now exists (lit "[ADDRESS"), [].
  - now exists (lit "[SSN"), [].
Qed.

Lemma rewrites_redacted (M : str -> Prop) (f : str -> nat -> str -> str)
  (whole s out : str) :
  (forall m off, f m off whole = m \/ redacted (f m off whole)) ->
  Rewrites M f whole s out -> out = s \/ redacted out.
Proof.
  intros Hf. induction 1 as [|c s out _ IH|m s out off _ _ IH].
  - now left.
  - destruct IH as [->|IH]; [now left|right].
    apply (redacted_app_r [c] out IH).
  - destruct (Hf m off) as [->|Hm]; [|right; now apply redacted_app_l].
    destruct IH as [->|IH]; [now left|right; now apply redacted_app_r].
Qed.

Lemma subseq_refl (a : str) : subseq a a.
Proof. induction a; [apply subseq_nil|now apply subseq_take]. Qed.

Lemma subseq_nil_l (b : str) : subseq [] b.
Proof. induction b; [apply subseq_nil|now apply subseq_skip]. Qed.

Lemma subseq_trans (a b c : str) : subseq a b -> subseq b c -> subseq a c.
Proof.
  intros H1 H2. revert a H1.
  induction H2 as [|b x c _ IH|b x c _ IH]; intros a H1.
  - exact H1.
  - apply subseq_skip. now apply IH.
  - inversion H1; subst.
    + apply subseq_skip. now apply IH.
    + apply subseq_take. now apply IH.
Qed.

Lemma subseq_app (a b c d : str) :
  subseq a b -> subseq c d -> subseq (a ++ c) (b ++ d).
Proof.
  intros H1 H2. induction H1; cbn [app].
  - exact H2.
  - now apply subseq_skip.
  - now apply subseq_take.
Qed.

Lemma digitsIn_app (a b : str) :
  digitsIn (a ++ b) = (digitsIn a ++ digitsIn b)%list.
Proof. apply filter_app. Qed.

Lemma rewrites_digits (M : str -> Prop) (f : str -> nat -> str -> str)
  (whole s out : str) :
  (forall m off, subseq (digitsIn (f m off whole)) (digitsIn m)) ->
  Rewrites M f whole s out -> subseq (digitsIn out) (digitsIn s).
Proof.
  intros Hf. induction 1 as [|c s out _ IH|m s out off _ _ IH].
  - apply subseq_nil.
  - unfold digitsIn in *. cbn [filter].
    destruct (isDigit c); [now apply subseq_take|exact IH].
  - rewrite !digitsIn_app. now apply subseq_app.
Qed.

Lemma placeholder_digits (placeholder m : str) :
  existsb isDigit placeholder = false ->
  subseq (digitsIn placeholder) (digitsIn m).
Proof.
  intros H. unfold digitsIn at 1. rewrite (filter_no_digit _ H).
  apply subseq_nil_l.
Qed.

Lemma fixed_patterns_numeric :
  Forall numeric (ssnPattern :: creditCardPatterns ++ addressPatterns).
Proof.
  apply Forall_forall. intros p Hp.
  assert (H : forallb (fun p => bounded (body p)
                        && needs isDigit (ignoreCase p) (body p))
                (ssnPattern :: creditCardPatterns ++ addressPatterns) = true)
    by (vm_compute; reflexivity).
  rewrite forallb_forall in H. specialize (H p Hp).
  apply andb_true_iff in H. exact H.
Qed.

Lemma emailPattern_shape :
  bounded (body emailPattern) = true /\
  needs (Ascii.eqb "@") (ignoreCase emailPattern) (body emailPattern) = true.
Proof. split; vm_compute; reflexivity. Qed.

Lemma digitRuns_zero (s : str) :
  digitRuns s = 0%nat -> existsb isDigit s = false.
Proof.
  intros H. destruct (existsb isDigit s) eqn:E; [|reflexivity].
  pose proof (runsFrom_pos false s E eq_refl) as Hp.
  unfold digitRuns in H. lia.
Qed.

(** On a text without digits the card, phone, address and SSN stages do
    nothing. *)
Lemma digit_free_stages (s : str) :
  existsb isDigit s = false ->
  fold_left (fun t p => replaceWith p CARD_REDACTED t) creditCardPatterns s = s
  /\ phonePass s = s /\ maskAfterLoop s = s.
Proof.
  intros Hd.
  assert (Hfix : forall placeholder l,
            forallb (fun p => needs isDigit (ignoreCase p) (body p)) l = true ->
            fold_left (fun t p => replaceWith p placeholder t) l s = s).
  { intros placeholder l Hl. apply (fold_replace_id isDigit). intros p Hp.
    apply (replace_needs_id isDigit); [|exact Hd].
    revert p Hp. now apply all_need_digit. }
  split; [|split].
  - apply Hfix. vm_compute; reflexivity.
  - unfold phonePass. apply (fold_replace_id isDigit). intros p Hp.
    apply (replace_needs_id isDigit); [|exact Hd].
    revert p Hp. apply all_need_digit. vm_compute; reflexivity.
  - unfold maskAfterLoop. cbv zeta. rewrite Hfix by (vm_compute; reflexivity).
    apply (replace_needs_id isDigit); [vm_compute; reflexivity|exact Hd].
Qed.

(** X8: every digit of the masked text comes from the input: the digits of
    the result, in order, are obtained from the digits of the input by
    deleting some of them. *)
Theorem digits_never_invented (fuel : nat) (env : option str) (t r : str) :
  maskSensitiveInfo fuel env t = Some r ->
  subseq (digitsIn r) (digitsIn t).
Proof.
  intros H.
  apply (mask_invariant (fun x => subseq (digitsIn x) (digitsIn t)))
    with (fuel := fuel) (env := env) (t := t); [| |exact H|apply subseq_refl].
  - intros re placeholder s Hp _ Hs.
    apply (subseq_trans _ (digitsIn s)); [|exact Hs].
    apply (rewrites_digits (matchedBy re) (fun _ _ _ => placeholder) s);
      [|apply replace_rewrites].
    intros m _. apply placeholder_digits.
    apply placeholders_redacted. cbn [In] in *. tauto.
  - intros re s _ Hs.
    apply (subseq_trans _ (digitsIn s)); [|exact Hs].
    apply (rewrites_digits (matchedBy re) phoneReplacer s);
      [|apply replace_rewrites].
    intros m off. destruct (phoneReplacer_cases m off s) as [->| ->].
    + apply subseq_refl.
    + now apply placeholder_digits.
Qed.

Lemma digits_never_invented_witness :
  maskSensitiveInfo 2 None (lit "call 555.000.1000 now")
  = Some (lit "call [PHONE REDACTED] now") /\
  subseq (digitsIn (lit "call [PHONE REDACTED] now"))
    (digitsIn (lit "call 555.000.1000 now")).
Proof.
  assert (H : maskSensitiveInfo 2 None (lit "call 555.000.1000 now")
              = Some (lit "call [PHONE REDACTED] now"))
    by (vm_compute; reflexivity).
  split; [exact H|].
  exact (digits_never_invented 2 None _ _ H).
Defined.

(** X9: masking never increases the number of maximal runs of digits of
    the text. *)
Theorem digit_runs_never_increase (fuel : nat) (env : option str)
  (t r : str) :
  maskSensitiveInfo fuel env t = Some r ->
  (digitRuns r <= digitRuns t)%nat.
Proof.
  intros H.
  apply (mask_invariant (fun x => (digitRuns x <= digitRuns t)%nat))
    with (fuel := fuel) (env := env) (t := t); [| |exact H|lia].
  - intros re placeholder s Hp Hre Hs.
    assert (Hshape : placeholder <> [] /\ existsb isDigit placeholder = false).
    { destruct (placeholders_redacted placeholder) as (_ & Hd & Hne);
        [cbn [In] in *; tauto|auto]. }
    etransitivity; [|exact Hs]. destruct Hre as [<-|Hre].
    + destruct emailPattern_shape as [Hb Hn].
      apply (replaceWith_runs_le emailPattern placeholder (Ascii.eqb "@") s
               Hb Hn Hshape).
    + pose proof fixed_patterns_numeric as Hnum.
      rewrite Forall_forall in Hnum. destruct (Hnum re Hre) as [Hb Hn].
      apply (replaceWith_runs_le re placeholder isDigit s Hb Hn Hshape).
  - intros re s Hre Hs. etransitivity; [|exact Hs].
    pose proof phonePatterns_numeric as Hnum. rewrite Forall_forall in Hnum.
    apply (phone_replace_runs re s (Hnum re Hre)).
Qed.

Lemma digit_runs_never_increase_witness :
  maskSensitiveInfo 2 None (lit "zip 90210, tel 555.000.1000")
  = Some (lit "zip [ADDRESS REDACTED], tel [PHONE REDACTED]") /\
  (digitRuns (lit "zip [ADDRESS REDACTED], tel [PHONE REDACTED]")
   <= digitRuns (lit "zip 90210, tel 555.000.1000"))%nat.
Proof.
  assert (H : maskSensitiveInfo 2 None (lit "zip 90210, tel 555.000.1000")
              = Some (lit "zip [ADDRESS REDACTED], tel [PHONE REDACTED]"))
    by (vm_compute; reflexivity).
  split; [exact H|].
  exact (digit_runs_never_increase 2 None _ _ H).
Defined.

(** X10: the masker changes a text only by redacting: its result is the
    input itself or holds a redaction placeholder. *)
Theorem change_is_redaction (fuel : nat) (env : option str) (t r : str) :
  maskSensitiveInfo fuel env t = Some r ->
  r = t \/ redacted r.
Proof.
  intros H.
  apply (mask_invariant (fun x => x = t \/ redacted x))
    with (fuel := fuel) (env := env) (t := t); [| |exact H|now left].
  - intros re placeholder s Hp _ Hs.
    destruct (rewrites_redacted (matchedBy re) (fun _ _ _ => placeholder) s s
                (replaceWith re placeholder s)) as [E|E].
    + intros m _. right. apply placeholders_redacted. cbn [In] in *. tauto.
    + apply replace_rewrites.
    + now rewrite E.
    + now right.
  - intros re s _ Hs.
    destruct (rewrites_redacted (matchedBy re) phoneReplacer s s
                (replace re phoneReplacer s))
      as [E|E].
    + intros m off. destruct (phoneReplacer_cases m off s) as [->| ->];
        [now left|right].
      apply placeholders_redacted. cbn [In]. tauto.
    + apply replace_rewrites.
    + now rewrite E.
    + now right.
Qed.

Lemma change_is_redaction_witness :
  maskSensitiveInfo 2 None (lit "mail bob@example.com")
  = Some (lit "mail [EMAIL REDACTED]") /\
  (lit "mail [EMAIL REDACTED]" = lit "mail bob@example.com"
   \/ redacted (lit "mail [EMAIL REDACTED]")).
Proof.
  assert (H : maskSensitiveInfo 2 None (lit "mail bob@example.com")
              = Some (lit "mail [EMAIL REDACTED]"))
    by (vm_compute; reflexivity).
  split; [exact H|].
  exact (change_is_redaction 2 None _ _ H).
Defined.

(** X11: in a text without digits the masker redacts e-mail addresses and
    nothing else: with masking enabled the result is the text with every
    match of the e-mail pattern replaced, and the re-scan loop stops after
    one pass. *)
Theorem digit_free_text_only_emails (fuel : nat) (env : option str)
  (t : str) :
  isMaskingEnabled env = true ->
  existsb isDigit t = false ->
  maskSensitiveInfo (S fuel) env t
  = Some (replaceWith emailPattern EMAIL_REDACTED t).
Proof.
  intros Hen Hd. unfold maskSensitiveInfo. rewrite Hen. cbn [negb].
  assert (He : existsb isDigit (replaceWith emailPattern EMAIL_REDACTED t)
               = false).
  { apply digitRuns_zero. destruct emailPattern_shape as [Hb Hn].
    pose proof (replaceWith_runs_le emailPattern EMAIL_REDACTED
                  (Ascii.eqb "@") t Hb Hn
                  (conj (fun E : EMAIL_REDACTED = [] =>
                           ltac:(discriminate E)) eq_refl)) as Hle.
    unfold digitRuns in *. rewrite (runsFrom_no_digit false t Hd) in Hle. lia. }
  destruct (digit_free_stages _ He) as (Hcards & Hphone & Hafter).
  assert (Hbefore : maskBeforeLoop t = replaceWith emailPattern EMAIL_REDACTED t).
  { unfold maskBeforeLoop. cbv zeta. rewrite email_guard_redundant.
    now rewrite Hcards. }
  rewrite Hbefore, phoneLoop_S.
  destruct (str_eqb [] (replaceWith emailPattern EMAIL_REDACTED t));
    [now rewrite Hafter|].
  rewrite Hphone.
  assert (Hloop : phoneLoop fuel (replaceWith emailPattern EMAIL_REDACTED t)
                    (replaceWith emailPattern EMAIL_REDACTED t)
                  = Some (replaceWith emailPattern EMAIL_REDACTED t)).
  { destruct fuel; [rewrite phoneLoop_O|rewrite phoneLoop_S];
      now rewrite str_eqb_refl. }
  now rewrite Hloop, Hafter.
Qed.

Lemma digit_free_text_only_emails_witness :
  maskSensitiveInfo 1 None (lit "ask bob@example.com or (alice)")
  = Some (replaceWith emailPattern EMAIL_REDACTED
            (lit "ask bob@example.com or (alice)")).
Proof.
  apply (digit_free_text_only_emails 0 None); reflexivity.
Defined.

(** ** What the patterns of the masker can read *)

Lemma matchedBy_only (Q : ascii -> bool) (re : RegExp) (m : str) :
  only Q (ignoreCase re) (body re) = true ->
  matchedBy re m -> forallb Q m = true.
Proof.
  intros Ho (prev & rest & H). unfold matchAt in H.
  destruct (matcher _ _ _ _ _) as [res|] eqn:E; [|discriminate].
  apply (matcher_trace Q Q) in E as (m' & s' & Hs & Hk & _ & Hq).
  injection Hk as <-. injection H as H.
  rewrite Hs, app_length_minus in H.
  assert (Em : m = m').
  { rewrite <- (firstn_app_length m rest), <- (firstn_app_length m' s').
    now rewrite Hs, H. }
  rewrite Em. now apply Hq.
Qed.

Lemma all_patterns_maskable :
  forallb (fun p => only maskable (ignoreCase p) (body p))
    (emailPattern :: ssnPattern
       :: creditCardPatterns ++ addressPatterns ++ phonePatterns) = true.
Proof. vm_compute. reflexivity. Qed.

Lemma unmaskableIn_app (a b : str) :
  unmaskableIn (a ++ b) = (unmaskableIn a ++ unmaskableIn b)%list.
Proof. apply filter_app. Qed.

Lemma unmaskableIn_maskable (m : str) :
  forallb maskable m = true -> unmaskableIn m = [].
Proof.
  induction m as [|c m IH]; [reflexivity|]. cbn [forallb]. intros H.
  apply andb_true_iff in H as [Hc Hm]. unfold unmaskableIn in *.
  cbn [filter]. rewrite Hc. cbn [negb]. now apply IH.
Qed.

Lemma rewrites_unmaskable (M : str -> Prop) (f : str -> nat -> str -> str)
  (whole s out : str) :
  (forall m, M m -> forallb maskable m = true) ->
  Rewrites M f whole s out -> subseq (unmaskableIn s) (unmaskableIn out).
Proof.
  intros HM. induction 1 as [|c s out _ IH|m s out off Hm _ IH].
  - apply subseq_nil.
  - unfold unmaskableIn in *. cbn [filter].
    destruct (negb (maskable c)); [now apply subseq_take|exact IH].
  - rewrite !unmaskableIn_app, (unmaskableIn_maskable m (HM m Hm)).
    apply (subseq_app [] _ _ _ (subseq_nil_l _) IH).
Qed.

(** X15: the masker never deletes a character that its patterns cannot
    read.  The characters of the input other than letters, digits, the
    underscore, white space and the signs [. % + - @ | ( ) / ,] (so the
    quotes, colons, braces and brackets of a JSON text) are all found in
    the result, in the same order. *)
Theorem unmaskable_characters_survive (fuel : nat) (env : option str)
  (t r : str) :
  maskSensitiveInfo fuel env t = Some r ->
  subseq (unmaskableIn t) (unmaskableIn r).
Proof.
  intros H.
  assert (Hall : forall re,
            In re (emailPattern :: ssnPattern
                     :: creditCardPatterns ++ addressPatterns ++ phonePatterns) ->
            forall m, matchedBy re m -> forallb maskable m = true).
  { intros re Hre m. apply matchedBy_only.
    pose proof all_patterns_maskable as Hm. rewrite forallb_forall in Hm.
    now apply Hm. }
  apply (mask_invariant (fun x => subseq (unmaskableIn t) (unmaskableIn x)))
    with (fuel := fuel) (env := env) (t := t); [| |exact H|apply subseq_refl].
  - intros re placeholder s _ Hre Hs.
    apply (subseq_trans _ (unmaskableIn s)); [exact Hs|].
    apply (rewrites_unmaskable (matchedBy re) (fun _ _ _ => placeholder) s);
      [|apply replace_rewrites].
    apply Hall. destruct Hre as [<-|[<-|Hre]]; [now left|right; now left|].
    right. right. apply in_app_or in Hre as [Hre|Hre]; apply in_or_app;
      [now left|right; apply in_or_app; now left].
  - intros re s Hre Hs.
    apply (subseq_trans _ (unmaskableIn s)); [exact Hs|].
    apply (rewrites_unmaskable (matchedBy re) phoneReplacer s);
      [|apply replace_rewrites].
    apply Hall. right. right. apply in_or_app. right. apply in_or_app.
    now right.
Qed.

Lemma unmaskable_characters_survive_witness :
  maskSensitiveInfo 2 None (lit "{<tel>:[5550001000;#]}")
  = Some (lit "{<tel>:[[PHONE REDACTED];#]}") /\
  subseq (unmaskableIn (lit "{<tel>:[5550001000;#]}"))
    (unmaskableIn (lit "{<tel>:[[PHONE REDACTED];#]}")).
Proof.
  assert (H : maskSensitiveInfo 2 None (lit "{<tel>:[5550001000;#]}")
              = Some (lit "{<tel>:[[PHONE REDACTED];#]}"))
    by (vm_compute; reflexivity).
  split; [exact H|].
  exact (unmaskable_characters_survive 2 None _ _ H).
Defined.

(** ** The tool handler: cleaning of the query *)

Lemma newline_matchAt (prev : option ascii) (s : str) :
  matchAt newlinePattern prev s
  = match s with
    | c :: _ => if Ascii.eqb LF c then Some 1%nat else None
    | [] => None
    end.
Proof.
  unfold matchAt. change (ignoreCase newlinePattern) with false.
  change (body newlinePattern) with (chr LF). rewrite chr_step.
  destruct s as [|c s]; [reflexivity|].
  destruct (Ascii.eqb LF c); [|reflexivity].
  cbn [List.length]. f_equal. lia.
Qed.

Lemma newline_replaceFrom (whole : str) :
  forall s prev off,
    replaceFrom newlinePattern (fun _ _ _ => []) whole prev s off 0
    = filter (fun c => negb (Ascii.eqb c LF)) s.
Proof.
  induction s as [|c s IH]; intros prev off;
    cbn [replaceFrom filter]; rewrite newline_matchAt; [reflexivity|].
  rewrite (Ascii.eqb_sym c LF).
  destruct (Ascii.eqb LF c); cbn [negb app]; [apply IH|f_equal; apply IH].
Qed.

(** X12: cleaning the query deletes exactly its line feeds: the cleaned
    query is the query without its LF characters, every other character
    (a carriage return too) kept in place, and it holds no line feed. *)
Theorem cleanQuery_deletes_line_feeds (query : str) :
  cleanQuery query = filter (fun c => negb (Ascii.eqb c LF)) query /\
  ~ In LF (cleanQuery query).
Proof.
  assert (E : cleanQuery query
              = filter (fun c => negb (Ascii.eqb c LF)) query).
  { unfold cleanQuery, replaceWith, replace. apply newline_replaceFrom. }
  rewrite E. split; [reflexivity|].
  intros H. apply filter_In in H as [_ H].
  now rewrite Ascii.eqb_refl in H.
Qed.

(** ** The phone pass before the re-scan loop *)

Lemma passes_S_out (n : nat) :
  forall m, passes (S n) m = phonePass (passes n m).
Proof.
  induction n as [|n IH]; intros m.
  - now rewrite passes_S, !passes_O.
  - rewrite passes_S, IH. now rewrite <- passes_S.
Qed.

Lemma first_fixpoint_unique (m : str) (n1 n2 : nat) :
  (forall i, (i < n1)%nat -> passes (S i) m <> passes i m) ->
  phonePass (passes n1 m) = passes n1 m ->
  (forall i, (i < n2)%nat -> passes (S i) m <> passes i m) ->
  phonePass (passes n2 m) = passes n2 m ->
  n1 = n2.
Proof.
  intros H1 F1 H2 F2.
  destruct (Nat.lt_trichotomy n1 n2) as [L|[E|L]]; [|exact E|]; exfalso.
  - apply (H2 n1 L). now rewrite passes_S_out.
  - apply (H1 n2 L). now rewrite passes_S_out.
Qed.

(** X13: the phone pass made before the re-scan loop does not affect the
    result: the loop started on the text after that pass and the loop
    started on the text before it both end, with the same text. *)
Theorem first_phone_pass_is_redundant (x : str) :
  exists r,
    phoneLoop (S (digitRuns x)) [] (phonePass x) = Some r /\
    phoneLoop (S (digitRuns x)) [] x = Some r.
Proof.
  destruct (phoneLoop_terminates x) as (n & Hn & Hch & Hst & Hloop).
  destruct (phoneLoop_terminates (phonePass x))
    as (k & Hk & Hch' & Hst' & Hloop').
  pose proof (proj1 (phonePass_runs x)) as Hruns.
  exists (passes n x). split.
  - assert (E : passes k (phonePass x) = passes n x).
    { destruct n as [|n].
      - rewrite passes_O in Hst. rewrite passes_O.
        assert (k = 0%nat) as ->.
        { apply (first_fixpoint_unique (phonePass x)); auto.
          - intros i Hi. lia.
          - rewrite passes_O. now rewrite !Hst. }
        now rewrite passes_O.
      - destruct (changes_shift n x Hch) as [_ Hshift].
        rewrite passes_S in Hst.
        assert (k = n) as -> by
          (apply (first_fixpoint_unique (phonePass x)); auto).
        now rewrite passes_S. }
    rewrite <- E.
    apply (phoneLoop_mono (S k) (S (digitRuns x)) ltac:(lia) _ _ _ Hloop').
  - apply (phoneLoop_mono (S n) (S (digitRuns x)) ltac:(lia) _ _ _ Hloop).
Qed.

(** * The second call of the masker *)

(** ** Replaying a match in another context *)

Lemma look_app (m a b : str) :
  isWordAt (hd_error a) = isWordAt (hd_error b) ->
  isWordAt (hd_error (m ++ a)) = isWordAt (hd_error (m ++ b)).
Proof. destruct m; auto. Qed.

Lemma look_lastOr (p q : option ascii) (m : str) :
  isWordAt p = isWordAt q ->
  isWordAt (lastOr p m) = isWordAt (lastOr q m).
Proof. destruct m; auto. Qed.

Section MatcherReplay.

Variable ic : bool.

Lemma repeatMatcher_replay body ok (Hb : ReplayBody body ok) :
  forall fuel greedy min max prev s k res,
    repeatMatcher body fuel greedy min max prev s k = Some res ->
    exists m s',
      s = (m ++ s')%list /\ k (lastOr prev m) s' = Some res /\
      (ok = true ->
       forall fuel2 prev2 rest2 (k2 : Cont),
         (min + List.length (m ++ rest2) < fuel2)%nat ->
         isWordAt prev2 = isWordAt prev ->
         isWordAt (hd_error rest2) = isWordAt (hd_error s') ->
         k2 (lastOr prev2 m) rest2 <> None ->
         repeatMatcher body fuel2 greedy min max prev2 (m ++ rest2) k2 <> None).
Proof.
  induction fuel as [|fuel IH]; intros greedy min max prev s k res H;
    [discriminate|].
  (* the position is accepted as it is *)
  assert (Hstop : forall mx,
            max <> Some 0%nat \/ True ->
            k prev s = Some res ->
            (max = Some 0%nat \/ min = 0%nat) ->
            mx = max ->
            exists m s',
              s = (m ++ s')%list /\ k (lastOr prev m) s' = Some res /\
              (ok = true ->
               forall fuel2 prev2 rest2 (k2 : Cont),
                 (min + List.length (m ++ rest2) < fuel2)%nat ->
                 isWordAt prev2 = isWordAt prev ->
                 isWordAt (hd_error rest2) = isWordAt (hd_error s') ->
                 k2 (lastOr prev2 m) rest2 <> None ->
                 repeatMatcher body fuel2 greedy min max prev2 (m ++ rest2) k2
                 <> None)).
  { intros mx _ Hk Hcase _. exists [], s. repeat split; auto.
    intros _ fuel2 prev2 rest2 k2 Hf Hp Hh Hk2. cbn [app lastOr] in *.
    destruct fuel2 as [|fuel2]; [lia|]. cbn [repeatMatcher].
    destruct Hcase as [-> | ->]; [exact Hk2|].
    destruct max as [[|mx']|]; [exact Hk2| |];
      (destruct greedy;
       [destruct (body prev2 rest2 _); [discriminate|exact Hk2]
       |destruct (k2 prev2 rest2); [discriminate|congruence]]). }
  (* one more iteration *)
  assert (Hiter :
            max <> Some 0%nat ->
            body prev s (fun prev' s' =>
              if (min =? 0)%nat && (List.length s' =? List.length s)%nat
              then None
              else repeatMatcher body fuel greedy (Nat.pred min)
                     (option_map Nat.pred max) prev' s' k) = Some res ->
            exists m s',
              s = (m ++ s')%list /\ k (lastOr prev m) s' = Some res /\
              (ok = true ->
               forall fuel2 prev2 rest2 (k2 : Cont),
                 (min + List.length (m ++ rest2) < fuel2)%nat ->
                 isWordAt prev2 = isWordAt prev ->
                 isWordAt (hd_error rest2) = isWordAt (hd_error s') ->
                 k2 (lastOr prev2 m) rest2 <> None ->
                 repeatMatcher body fuel2 greedy min max prev2 (m ++ rest2) k2
                 <> None)).
  { intros Hmax Hit.
    apply Hb in Hit as (m1 & s1 & -> & Hk1 & R1).
    destruct ((min =? 0)%nat && (List.length s1 =? List.length (m1 ++ s1))%nat)
      eqn:Hchk; [discriminate|].
    apply IH in Hk1 as (m2 & s2 & -> & Hk2 & R2).
    exists (m1 ++ m2)%list, s2. rewrite lastOr_app, <- app_assoc.
    repeat split; auto.
    intros Hok fuel2 prev2 rest2 k2 Hf Hp Hh Hacc.
    destruct fuel2 as [|fuel2]; [lia|].
    assert (Hne : min = 0%nat -> m1 <> []).
    { intros -> ->. cbn in Hchk. now rewrite Nat.eqb_refl in Hchk. }
    assert (Hit2 :
      body prev2 ((m1 ++ m2) ++ rest2) (fun prev' s' =>
        if (min =? 0)%nat
           && (List.length s' =? List.length ((m1 ++ m2) ++ rest2))%nat
        then None
        else repeatMatcher body fuel2 greedy (Nat.pred min)
               (option_map Nat.pred max) prev' s' k2) <> None).
    { rewrite <- app_assoc. apply (R1 Hok); auto.
      - now apply look_app.
      - assert (Hchk2 : (min =? 0)%nat
                  && (List.length (m2 ++ rest2)
                      =? List.length (m1 ++ m2 ++ rest2))%nat = false).
        { destruct min as [|min']; [|reflexivity]. cbn [Nat.eqb andb].
          apply Nat.eqb_neq. rewrite (length_app m1).
          specialize (Hne eq_refl). destruct m1; [congruence|]. simpl. lia. }
        rewrite Hchk2. apply (R2 Hok).
        + rewrite !length_app in *.
          destruct min as [|min']; cbn [Nat.pred].
          * specialize (Hne eq_refl). destruct m1; [congruence|].
            simpl in Hf. lia.
          * lia.
        + now apply look_lastOr.
        + exact Hh.
        + now rewrite <- lastOr_app. }
    cbn [repeatMatcher].
    destruct max as [[|mx]|]; [congruence| |];
      (destruct min as [|min'];
       [destruct greedy;
        [destruct (body prev2 _ _); [discriminate|congruence]
        |destruct (k2 prev2 _); [discriminate|exact Hit2]]
       |exact Hit2]). }
  cbn [repeatMatcher] in H.
  destruct max as [[|mx]|].
  - apply (Hstop (Some 0%nat)); auto.
  - destruct min as [|min'].
    + destruct greedy.
      * match type of H with
        | match ?it with _ => _ end = _ => destruct it eqn:It
        end.
        -- injection H as ->. apply Hiter; [discriminate|reflexivity].
        -- apply (Hstop (Some (S mx))); auto.
      * destruct (k prev s) eqn:Hk.
        -- injection H as ->. apply (Hstop (Some (S mx))); auto.
        -- apply Hiter; [discriminate|exact H].
    + apply Hiter; [discriminate|exact H].
  - destruct min as [|min'].
    + destruct greedy.
      * match type of H with
        | match ?it with _ => _ end = _ => destruct it eqn:It
        end.
        -- injection H as ->. apply Hiter; [discriminate|reflexivity].
        -- apply (Hstop None); auto.
      * destruct (k prev s) eqn:Hk.
        -- injection H as ->. apply (Hstop None); auto.
        -- apply Hiter; [discriminate|exact H].
    + apply Hiter; [discriminate|exact H].
Qed.

Lemma matcher_replay (r : regex) : ReplayBody (matcher ic r) (noEnd r).
Proof.
  induction r as [| negated items | | | r1 IH1 r2 IH2 | r1 IH1 r2 IH2
                 | greedy min max r1 IH1];
    intros prev s k res H; cbn [matcher] in H.
  - exists [], s. repeat split; auto.
    intros _ prev2 rest2 k2 _ _ Hk. exact Hk.
  - destruct s as [|c s']; [discriminate|].
    destruct (classHas ic negated items c) eqn:Hc; [|discriminate].
    exists [c], s'. repeat split; auto.
    intros _ prev2 rest2 k2 _ _ Hk. cbn [app matcher]. now rewrite Hc.
  - destruct (xorb _ _) eqn:Hx; [|discriminate].
    exists [], s. repeat split; auto.
    intros _ prev2 rest2 k2 Hp Hh Hk. cbn [app matcher lastOr] in *.
    now rewrite Hp, Hh, Hx.
  - destruct s; [|discriminate]. exists [], []. repeat split; auto.
    discriminate.
  - apply IH1 in H as (m1 & s1 & -> & H & R1).
    apply IH2 in H as (m2 & s2 & -> & H & R2).
    exists (m1 ++ m2)%list, s2. rewrite lastOr_app, <- app_assoc.
    repeat split; auto. cbn [noEnd]. intros Hok.
    apply andb_true_iff in Hok as [Ho1 Ho2].
    intros prev2 rest2 k2 Hp Hh Hk. cbn [matcher]. rewrite <- app_assoc.
    apply (R1 Ho1); auto.
    + now apply look_app.
    + apply (R2 Ho2); auto.
      * now apply look_lastOr.
      * now rewrite <- lastOr_app.
  - cbn [noEnd]. destruct (matcher ic r1 prev s k) as [res1|] eqn:E1.
    + injection H as ->. apply IH1 in E1 as (m & s' & -> & Hk & R).
      exists m, s'. repeat split; auto. intros Hok.
      apply andb_true_iff in Hok as [Ho1 _].
      intros prev2 rest2 k2 Hp Hh Hk2. cbn [matcher].
      pose proof (R Ho1 prev2 rest2 k2 Hp Hh Hk2) as Hr.
      destruct (matcher ic r1 prev2 (m ++ rest2) k2); [discriminate|congruence].
    + apply IH2 in H as (m & s' & -> & Hk & R).
      exists m, s'. repeat split; auto. intros Hok.
      apply andb_true_iff in Hok as [_ Ho2].
      intros prev2 rest2 k2 Hp Hh Hk2. cbn [matcher].
      destruct (matcher ic r1 prev2 (m ++ rest2) k2); [discriminate|].
      now apply (R Ho2).
  - apply (repeatMatcher_replay _ _ IH1) in H as (m & s' & -> & Hk & R).
    exists m, s'. repeat split; auto. cbn [noEnd]. intros Hok.
    intros prev2 rest2 k2 Hp Hh Hk2. cbn [matcher].
    apply (R Hok); auto.
Qed.

End MatcherReplay.

(** A match found at one place is found wherever the same text stands
    between characters that look the same to a word boundary. *)
Lemma matchAt_replay (re : RegExp) (prev : option ascii) (m s' : str) :
  noEnd (body re) = true ->
  matchAt re prev (m ++ s') = Some (List.length m) ->
  forall prev2 rest2,
    isWordAt prev2 = isWordAt prev ->
    isWordAt (hd_error rest2) = isWordAt (hd_error s') ->
    matchAt re prev2 (m ++ rest2) <> None.
Proof.
  intros Hok H prev2 rest2 Hp Hh. unfold matchAt in *.
  destruct (matcher _ _ prev _ _) as [res|] eqn:E; [|discriminate].
  injection H as H.
  apply matcher_replay in E as (m1 & s1 & Hs & Hk & R).
  injection Hk as <-. rewrite Hs, app_length_minus in H.
  assert (Em : m1 = m).
  { rewrite <- (firstn_app_length m1 s1), <- (firstn_app_length m s').
    now rewrite <- Hs, H. }
  subst m1. apply app_inv_head in Hs. subst s1.
  pose proof (R Hok prev2 rest2 (fun _ rest => Some rest) Hp Hh
                ltac:(discriminate)) as Hr.
  destruct (matcher _ _ prev2 _ _); [discriminate|congruence].
Qed.

(** ** Placeholders are left alone *)

Lemma stagePattern_all :
  forallb stagePattern allPatterns = true.
Proof. vm_compute. reflexivity. Qed.

Lemma stagePattern_In (re : RegExp) :
  In re allPatterns ->
  bounded (body re) = true /\ needs isKey (ignoreCase re) (body re) = true
  /\ only maskable (ignoreCase re) (body re) = true /\ noEnd (body re) = true.
Proof.
  intros H. pose proof stagePattern_all as Ha. rewrite forallb_forall in Ha.
  specialize (Ha re H). unfold stagePattern in Ha.
  repeat (apply andb_true_iff in Ha as [Ha ?]). auto.
Qed.

Lemma matchedBy_needs (Q : ascii -> bool) (re : RegExp) (m : str) :
  needs Q (ignoreCase re) (body re) = true ->
  matchedBy re m -> existsb Q m = true.
Proof.
  intros Hn (prev & rest & H).
  apply (matchAt_sound Q) in H as (m' & s' & Hs & Hl & Hq).
  assert (Em : m = m').
  { rewrite <- (firstn_app_length m rest), <- (firstn_app_length m' s').
    now rewrite Hs, Hl. }
  rewrite Em. now apply Hq.
Qed.

Lemma placeholder_shape (P : str) :
  In P PLACEHOLDERS ->
  exists w, P = ("["%char :: w ++ ["]"%char])%list /\ existsb isKey w = false.
Proof.
  intros [<-|[<-|[<-|[<-|[<-|[]]]]]].
  - now exists (lit "EMAIL REDACTED").
  - now exists (lit "CARD NUMBER REDACTED").
  - now exists (lit "PHONE REDACTED").
  - now exists (lit "ADDRESS REDACTED").
  - now exists (lit "SSN REDACTED").
Qed.

Lemma maskable_no_bracket (m : str) :
  forallb maskable m = true -> ~ In "["%char m /\ ~ In "]"%char m.
Proof.
  intros H. rewrite forallb_forall in H. split; intros Hin;
    specialize (H _ Hin); discriminate.
Qed.

Lemma redaction_refl (s : str) : Redaction s s.
Proof. induction s; constructor; auto. Qed.

Lemma redaction_keep_app (m s s' : str) :
  Redaction s s' -> Redaction (m ++ s) (m ++ s').
Proof. intros H. induction m; cbn [app]; [exact H|now constructor]. Qed.

Lemma rewrites_redaction (re : RegExp) (f : str -> nat -> str -> str)
  (whole s out : str) :
  In re allPatterns ->
  (forall m off, f m off whole = m \/ In (f m off whole) PLACEHOLDERS) ->
  Rewrites (matchedBy re) f whole s out -> Redaction s out.
Proof.
  intros Hre Hf.
  destruct (stagePattern_In re Hre) as (_ & Hn & Ho & _).
  induction 1 as [|c s out _ IH|m s out off Hm _ IH].
  - constructor.
  - now constructor.
  - destruct (Hf m off) as [-> | HP].
    + now apply redaction_keep_app.
    + apply red_piece; auto.
      * now apply (matchedBy_only maskable re).
      * now apply (matchedBy_needs isKey re).
Qed.

(** Behind the opening bracket of a placeholder a round of redactions
    keeps the rest of the placeholder. *)
Lemma redaction_inside (w b : str) :
  existsb isKey w = false ->
  forall out,
    Redaction (w ++ "]"%char :: b) out ->
    exists b', out = (w ++ "]"%char :: b')%list /\ Redaction b b'.
Proof.
  intros Hw.
  assert (Hpiece : forall m s0 w',
            existsb isKey w' = false ->
            forallb maskable m = true -> existsb isKey m = true ->
            (m ++ s0 = w' ++ "]"%char :: b)%list -> False).
  { intros m s0 w' Hw' Hm Hk E.
    apply app_eq_app in E as [l [[-> E]|[-> E]]].
    - destruct l as [|x l].
      + rewrite app_nil_r in Hk. congruence.
      + injection E as <- _. apply maskable_no_bracket in Hm as [_ Hm].
        apply Hm. apply in_or_app. right. now left.
    - rewrite existsb_app in Hw'. apply orb_false_iff in Hw' as [Hw' _].
      congruence. }
  induction w as [|c w IH]; intros out H; cbn [app] in H.
  - inversion H as [|c' s s' Hr|m P s s' Hm Hk HP Hr E]; subst.
    + now exists s'.
    + exfalso. apply (Hpiece m s [] eq_refl Hm Hk). exact E.
  - cbn [existsb] in Hw. apply orb_false_iff in Hw as [Hc Hw'].
    inversion H as [|c' s s' Hr|m P s s' Hm Hk HP Hr E]; subst.
    + destruct (IH Hw' _ Hr) as (b' & -> & Hb). now exists b'.
    + exfalso. apply (Hpiece m s (c :: w)); auto.
      cbn [existsb]. now rewrite Hc, Hw'.
Qed.

Lemma redaction_split (P b : str) :
  In P PLACEHOLDERS ->
  forall x out,
    Redaction x out ->
    forall a, x = (a ++ P ++ b)%list ->
    exists a' b',
      out = (a' ++ P ++ b')%list /\ Redaction a a' /\ Redaction b b'.
Proof.
  intros HP. destruct (placeholder_shape P HP) as (w & -> & Hw).
  induction 1 as [|c s s' Hr IH|m Q s s' Hm Hk HQ Hr IH]; intros a E.
  - destruct a; discriminate.
  - destruct a as [|c0 a].
    + cbn [app] in E. injection E as -> ->.
      rewrite <- app_assoc in Hr. cbn [app] in Hr.
      destruct (redaction_inside w b Hw _ Hr) as (b' & -> & Hb).
      exists [], b'. cbn [app]. rewrite <- app_assoc. repeat split; auto.
      constructor.
    + cbn [app] in E. injection E as -> ->.
      destruct (IH a eq_refl) as (a' & b' & -> & Ha & Hb).
      exists (c0 :: a'), b'. repeat split; auto. now constructor.
  - apply app_eq_app in E as [l [[-> E]|[-> E]]].
    + destruct l as [|x l].
      * rewrite app_nil_r in *. cbn [app] in E. subst s.
        destruct (IH [] eq_refl) as (a' & b' & -> & Ha & Hb).
        exists (Q ++ a')%list, b'. rewrite <- app_assoc. repeat split; auto.
        rewrite <- (app_nil_r a) at 1. now apply red_piece.
      * exfalso. cbn [app] in E. injection E as <- _.
        apply maskable_no_bracket in Hm as [Hm _].
        apply Hm. apply in_or_app. right. now left.
    + destruct (IH l E) as (a' & b' & -> & Ha & Hb).
      exists (Q ++ a')%list, b'. rewrite <- app_assoc. repeat split; auto.
      now apply red_piece.
Qed.

Lemma redactedFrom_step (s s' : str) : Redaction s s' -> RedactedFrom s s'.
Proof. intros H. apply (rf_step s s s'); [constructor|exact H]. Qed.

Lemma piece_not_in_placeholder (m s0 w b : str) :
  existsb isKey w = false ->
  forallb maskable m = true -> existsb isKey m = true ->
  (m ++ s0 = w ++ "]"%char :: b)%list -> False.
Proof.
  intros Hw Hm Hk E.
  apply app_eq_app in E as [l [[-> E]|[-> E]]].
  - destruct l as [|x l].
    + rewrite app_nil_r in Hk. congruence.
    + injection E as <- _. apply maskable_no_bracket in Hm as [_ Hm].
      apply Hm. apply in_or_app. right. now left.
  - rewrite existsb_app in Hw. apply orb_false_iff in Hw as [Hw _].
    congruence.
Qed.

Lemma In_fixed_all (re : RegExp) :
  In re (emailPattern :: ssnPattern :: creditCardPatterns ++ addressPatterns) ->
  In re fixedPatterns.
Proof.
  unfold fixedPatterns. intros [<-|[<-|H]].
  - now left.
  - right. apply in_or_app. right. apply in_or_app. right. now left.
  - right. apply in_app_or in H as [H|H]; apply in_or_app;
      [now left|right; apply in_or_app; now left].
Qed.

Lemma In_fixed_allPatterns (re : RegExp) :
  In re fixedPatterns -> In re allPatterns.
Proof. intros H. apply in_or_app. now left. Qed.

Lemma In_phone_allPatterns (re : RegExp) :
  In re phonePatterns -> In re allPatterns.
Proof. intros H. apply in_or_app. now right. Qed.

Lemma placeholder_cases (placeholder : str) :
  In placeholder [EMAIL_REDACTED; CARD_REDACTED; ADDRESS_REDACTED;
                  SSN_REDACTED] ->
  In placeholder PLACEHOLDERS.
Proof. unfold PLACEHOLDERS. cbn [In]. tauto. Qed.

Lemma phoneReplacer_ok (whole m : str) (off : nat) :
  phoneReplacer m off whole = m \/ In (phoneReplacer m off whole) PLACEHOLDERS.
Proof.
  destruct (phoneReplacer_cases m off whole) as [->| ->]; [now left|right].
  unfold PLACEHOLDERS. cbn [In]. tauto.
Qed.

(** A placeholder that stands in a text is still there after the masker
    has run, between what the masker makes of the text before it and of
    the text behind it. *)
Lemma mask_keeps_placeholder (P a b : str) (fuel : nat) (env : option str)
  (r : str) :
  In P PLACEHOLDERS ->
  maskSensitiveInfo fuel env (a ++ P ++ b) = Some r ->
  exists a' b',
    r = (a' ++ P ++ b')%list /\ RedactedFrom a a' /\ RedactedFrom b b'.
Proof.
  intros HP H.
  assert (Hstep : forall re f s,
            In re allPatterns ->
            (forall m off, f m off s = m \/ In (f m off s) PLACEHOLDERS) ->
            (exists a' b', s = (a' ++ P ++ b')%list
                           /\ RedactedFrom a a' /\ RedactedFrom b b') ->
            exists a' b', replace re f s = (a' ++ P ++ b')%list
                          /\ RedactedFrom a a' /\ RedactedFrom b b').
  { intros re f s Hre Hf (a1 & b1 & E & Ha & Hb).
    pose proof (rewrites_redaction re f s s _ Hre Hf (replace_rewrites re f s))
      as Hr.
    destruct (redaction_split P b1 HP _ _ Hr a1 E) as (a2 & b2 & E2 & Ha2 & Hb2).
    exists a2, b2. split; [exact E2|].
    split; eapply rf_step; eauto. }
  apply (mask_invariant
           (fun x => exists a' b', x = (a' ++ P ++ b')%list
                                   /\ RedactedFrom a a' /\ RedactedFrom b b'))
    with (fuel := fuel) (env := env) (t := (a ++ P ++ b)%list).
  - intros re placeholder s Hp Hre Hs. unfold replaceWith.
    apply Hstep; auto.
    + apply In_fixed_allPatterns. now apply In_fixed_all.
    + intros m off. right. now apply placeholder_cases.
  - intros re s Hre Hs. apply Hstep; auto.
    + now apply In_phone_allPatterns.
    + intros m off. apply phoneReplacer_ok.
  - exact H.
  - exists a, b. repeat split; constructor.
Qed.

(** ** A replacement as a scan *)

Lemma matchAt_nonempty (re : RegExp) (prev : option ascii) (s : str) :
  In re allPatterns -> matchAt re prev s <> Some 0%nat.
Proof.
  intros Hre H. destruct (stagePattern_In re Hre) as (_ & Hn & _).
  apply (matchAt_sound isKey) in H as (m & s' & _ & Hl & Hk).
  destruct m; [|discriminate]. specialize (Hk Hn). discriminate.
Qed.

Lemma replaceFrom_scan (re : RegExp) (f : str -> nat -> str -> str)
  (whole : str) :
  In re allPatterns ->
  forall s prev off k,
    (k <= List.length s)%nat ->
    Scan re f whole (lastOr prev (firstn k s)) (skipn k s)
      (replaceFrom re f whole prev s off k).
Proof.
  intros Hre. induction s as [|c s IH]; intros prev off k Hk.
  - destruct k; [|simpl in Hk; lia]. cbn [replaceFrom skipn firstn lastOr].
    destruct (matchAt re prev []) as [n|] eqn:E; [|constructor].
    exfalso. pose proof (matchAt_le _ _ _ _ E) as Hn. cbn in Hn.
    replace n with 0%nat in E by lia. now apply (matchAt_nonempty re prev []).
  - destruct k as [|k]; cbn [replaceFrom skipn firstn lastOr].
    + destruct (matchAt re prev (c :: s)) as [n|] eqn:E.
      * destruct n as [|n]; [now apply matchAt_nonempty in E|].
        pose proof (matchAt_le _ _ _ _ E) as Hn. cbn [List.length] in Hn.
        assert (Hl : List.length (firstn (S n) (c :: s)) = S n)
          by (apply firstn_length_le; cbn [List.length]; lia).
        pose proof (scan_repl re f whole prev (firstn (S n) (c :: s))
                      (skipn (S n) (c :: s))
                      (replaceFrom re f whole (Some c) s (S off) n) off) as R.
        rewrite firstn_skipn, Hl in R. apply R.
        -- discriminate.
        -- exact E.
        -- apply (IH (Some c) (S off) n). lia.
      * constructor; [exact E|]. apply (IH (Some c) (S off) 0%nat). lia.
    + apply (IH (Some c) (S off) k). simpl in Hk. lia.
Qed.

Lemma replace_scan (re : RegExp) (f : str -> nat -> str -> str) (s : str) :
  In re allPatterns -> Scan re f s None s (replace re f s).
Proof.
  intros Hre. apply (replaceFrom_scan re f s Hre s None 0 0). lia.
Qed.

Lemma lastOr_nonempty (p q : option ascii) (m : str) :
  m <> [] -> lastOr p m = lastOr q m.
Proof. destruct m; [congruence|reflexivity]. Qed.

Lemma lastOr_snoc (p : option ascii) (m : str) (c : ascii) :
  lastOr p (m ++ [c]) = Some c.
Proof. now rewrite lastOr_app. Qed.

Lemma key_nonempty (m : str) : existsb isKey m = true -> m <> [].
Proof. destruct m; [discriminate|discriminate]. Qed.

Lemma hd_placeholder (P rest : str) :
  In P PLACEHOLDERS -> hd_error (P ++ rest) = Some "["%char.
Proof. intros H. destruct (placeholder_shape P H) as (w & -> & _). reflexivity. Qed.

Section ScanFacts.

Variable re : RegExp.
Variable f : str -> nat -> str -> str.
Variable whole : str.
Hypothesis Hre : In re allPatterns.
Hypothesis Hf : forall m off,
  f m off whole = m \/ In (f m off whole) PLACEHOLDERS.

(** Where a word boundary stands in front of what the scan has written,
    what it has read begins with a character that looks the same. *)
Lemma scan_look (q : option ascii) (s out : str) :
  Scan re f whole q s out ->
  xorb (isWordAt q) (isWordAt (hd_error out)) = true ->
  isWordAt (hd_error s) = isWordAt (hd_error out).
Proof.
  intros H Hx. destruct H as [q|q c s out Hn H|q m s out off Hne Hm H].
  - reflexivity.
  - reflexivity.
  - destruct (stagePattern_In re Hre) as (Hb & _).
    apply (matchAt_bounded isKey _ _ _ _ Hb) in Hm
      as (m1 & s1 & _ & _ & Hlead & _).
    destruct (Hf m off) as [E|E].
    + rewrite E. now rewrite !hd_error_app_nonempty.
    + rewrite (hd_placeholder _ out E) in *. cbn [isWordAt] in *.
      change (isWord "[") with false in *.
      destruct (isWordAt q); [|discriminate].
      destruct (isWordAt (hd_error (m ++ s))); [discriminate|reflexivity].
Qed.

(** A text made of maskable characters that the scan has written, it has
    read. *)
Lemma scan_prefix (p : option ascii) (y y' : str) :
  Scan re f whole p y y' ->
  forall m' post',
    y' = (m' ++ post')%list ->
    forallb maskable m' = true ->
    xorb (isWordAt (lastOr p m')) (isWordAt (hd_error post')) = true ->
    exists post,
      y = (m' ++ post)%list /\
      isWordAt (hd_error post) = isWordAt (hd_error post').
Proof.
  induction 1 as [p|p c s out Hn H IH|p m s out off Hne Hm H IH];
    intros m' post' E Hmask Htrail.
  - destruct m'; [|discriminate]. cbn [app] in E. subst post'.
    now exists [].
  - destruct m' as [|c' m'].
    + cbn [app lastOr] in *. subst post'. exists (c :: s). split; auto.
    + cbn [app] in E. injection E as <- ->.
      cbn [forallb] in Hmask. apply andb_true_iff in Hmask as [_ Hmask].
      destruct (IH m' post' eq_refl Hmask Htrail) as (post & -> & Hh).
      now exists post.
  - destruct m' as [|c' m'].
    + cbn [app lastOr] in *. subst post'. exists (m ++ s)%list. split; auto.
      apply (scan_look p). { now apply scan_repl. } exact Htrail.
    + destruct (Hf m off) as [Ef|Ef].
      * rewrite Ef in E.
        apply app_eq_app in E as [l [[E1 E2]|[E1 E2]]].
        -- (* the text ends inside the kept piece *)
           exists (l ++ s)%list. rewrite E1, <- app_assoc.
           split; [reflexivity|].
           destruct l as [|x l]; [|subst post'; reflexivity]. cbn [app] in *.
           subst post'. rewrite app_nil_r in E1. subst m.
           apply (scan_look (lastOr p (c' :: m'))); assumption.
        -- (* the kept piece ends inside the text *)
           rewrite E1, forallb_app in Hmask.
           apply andb_true_iff in Hmask as [_ Hl].
           rewrite E1, lastOr_app in Htrail.
           destruct (IH l post' E2 Hl Htrail) as (post & -> & Hh).
           exists post. now rewrite E1, <- app_assoc.
      * exfalso. destruct (placeholder_shape _ Ef) as (w & Ew & _).
        rewrite Ew in E. cbn [app] in E. injection E as <- _.
        cbn [forallb] in Hmask. discriminate.
Qed.

(** A candidate in what the scan has written stands in what it has read,
    between characters that look the same to a word boundary. *)
Lemma scan_align (prevIn : option ascii) (y y' : str) :
  Scan re f whole prevIn y y' ->
  forall prevOut pre' m' post',
    prevOut = prevIn
    \/ (isWordAt prevOut = false
        /\ xorb (isWordAt prevIn) (isWordAt (hd_error y)) = true) ->
    y' = (pre' ++ m' ++ post')%list ->
    forallb maskable m' = true -> existsb isKey m' = true ->
    xorb (isWordAt (lastOr prevOut pre')) (isWordAt (hd_error m')) = true ->
    xorb (isWordAt (lastOr None m')) (isWordAt (hd_error post')) = true ->
    exists pre post,
      y = (pre ++ m' ++ post)%list /\
      isWordAt (lastOr prevIn pre) = isWordAt (lastOr prevOut pre') /\
      isWordAt (hd_error post) = isWordAt (hd_error post') /\
      ((forall m off, forallb maskable m = true -> f m off whole <> m) ->
       matchAt re (lastOr prevIn pre) (m' ++ post) = None).
Proof.
  (* the candidate begins where the text read and the text written agree *)
  assert (Hctx : forall pIn pOut (y0 m' : str),
            pOut = pIn
            \/ (isWordAt pOut = false
                /\ xorb (isWordAt pIn) (isWordAt (hd_error y0)) = true) ->
            hd_error y0 = hd_error m' ->
            xorb (isWordAt pOut) (isWordAt (hd_error m')) = true ->
            isWordAt pIn = isWordAt pOut).
  { intros pIn pOut y0 m' [->|[Ho Hi]] Eh Hl; [reflexivity|].
    rewrite Eh in Hi. rewrite Ho in *.
    destruct (isWordAt (hd_error m')); [|discriminate].
    destruct (isWordAt pIn); [discriminate|reflexivity]. }
  induction 1 as [p|p c s out Hn H IH|p m s out off Hne Hm H IH];
    intros prevOut pre' m' post' Hc E Hmask Hkey Hlead Htrail;
    pose proof (key_nonempty m' Hkey) as Hm'.
  - destruct pre'; [destruct m'; [congruence|discriminate]|discriminate].
  - destruct pre' as [|c0 pre'].
    + destruct m' as [|c' m']; [congruence|].
      cbn [app lastOr] in *. injection E as <- ->.
      cbn [forallb] in Hmask. apply andb_true_iff in Hmask as [_ Hmask].
      destruct (scan_prefix _ _ _ H m' post' eq_refl Hmask Htrail)
        as (post & -> & Hh).
      exists [], post. cbn [app lastOr]. repeat split; auto.
      apply (Hctx p prevOut (c :: m' ++ post) (c :: m')); auto.
    + cbn [app lastOr] in *. injection E as <- ->.
      destruct (IH (Some c) pre' m' post' (or_introl eq_refl) eq_refl
                  Hmask Hkey Hlead Htrail)
        as (pre & post & -> & Hp & Hh & Hs).
      exists (c :: pre), post. cbn [app lastOr]. repeat split; auto.
  - destruct (stagePattern_In re Hre) as (Hb & _).
    pose proof Hm as Hbound.
    apply (matchAt_bounded isKey _ _ _ _ Hb) in Hbound
      as (m1 & s1 & Es & El & Hlead_m & Htrail_m & _).
    assert (m1 = m /\ s1 = s) as [-> ->].
    { assert (m1 = m).
      { rewrite <- (firstn_app_length m1 s1), <- (firstn_app_length m s).
        now rewrite <- Es, El. }
      subst m1. apply app_inv_head in Es. auto. }
    clear Es El.
    assert (Hpiece : forallb maskable m = true).
    { destruct (stagePattern_In re Hre) as (_ & _ & Ho & _).
      apply (matchedBy_only maskable re); [exact Ho|].
      now exists p, s. }
    (* the candidate lies behind what was written for the piece *)
    assert (Hbehind : forall l,
              pre' = (f m off whole ++ l)%list ->
              out = (l ++ m' ++ post')%list ->
              lastOr prevOut (f m off whole) = lastOr p m
              \/ (isWordAt (lastOr prevOut (f m off whole)) = false
                  /\ xorb (isWordAt (lastOr p m)) (isWordAt (hd_error s))
                     = true) ->
              exists pre post,
                (m ++ s = pre ++ m' ++ post)%list /\
                isWordAt (lastOr p pre) = isWordAt (lastOr prevOut pre') /\
                isWordAt (hd_error post) = isWordAt (hd_error post') /\
                ((forall m off, forallb maskable m = true -> f m off whole <> m) ->
                 matchAt re (lastOr p pre) (m' ++ post) = None)).
    { intros l -> Eo Hc'. rewrite lastOr_app in Hlead.
      destruct (IH _ l m' post' Hc' Eo Hmask Hkey Hlead Htrail)
        as (pre & post & -> & Hp & Hh & Hs).
      exists (m ++ pre)%list, post. rewrite !lastOr_app, <- app_assoc.
      repeat split; auto. }
    destruct (Hf m off) as [Ef|Ef].
    + (* the piece was kept *)
      rewrite Ef in E. pose proof E as E0.
      apply app_eq_app in E as [l [[E1 E2]|[E1 E2]]].
      * destruct l as [|x l].
        -- rewrite app_nil_r in E1. cbn [app] in E2.
           apply (Hbehind []); rewrite ?Ef, ?app_nil_r; auto.
           left. now apply lastOr_nonempty.
        -- (* the candidate begins inside the kept piece *)
           assert (Hstart : isWordAt (lastOr p pre')
                            = isWordAt (lastOr prevOut pre')).
           { destruct pre' as [|c0 pre']; [|reflexivity]. cbn [lastOr app] in *.
             apply (Hctx p prevOut (m ++ s)%list m'); auto.
             rewrite E1. destruct m' as [|c' m']; [congruence|].
             cbn [app] in E2. injection E2 as -> _. reflexivity. }
           apply app_eq_app in E2 as [l2 [[E3 E4]|[E3 E4]]].
           ++ (* it ends behind the kept piece *)
              rewrite E3, forallb_app in Hmask.
              apply andb_true_iff in Hmask as [_ Hl2].
              assert (Ht2 : xorb (isWordAt (lastOr (lastOr p m) l2))
                              (isWordAt (hd_error post')) = true).
              { rewrite E1, <- !lastOr_app, <- app_assoc, <- E3, lastOr_app.
                now rewrite (lastOr_nonempty _ None m' Hm'). }
              destruct (scan_prefix _ _ _ H l2 post' E4 Hl2 Ht2)
                as (post & -> & Hh).
              exists pre', post. rewrite E1, E3, <- !app_assoc.
              repeat split; auto.
              intros Hno. exfalso. now apply (Hno m off Hpiece).
           ++ (* it ends inside the kept piece *)
              exists pre', (l2 ++ s)%list. rewrite E1, E3, <- !app_assoc.
              repeat split; auto.
              ** destruct l2 as [|x2 l2]; [|subst post'; reflexivity].
                 cbn [app] in *. subst post'. rewrite app_nil_r in E3.
                 apply (scan_look (lastOr p m)); [exact H|].
                 rewrite E1, lastOr_app, E3.
                 now rewrite (lastOr_nonempty _ None m' Hm').
              ** intros Hno. exfalso. now apply (Hno m off Hpiece).
      * apply (Hbehind l); rewrite ?Ef; auto.
        left. now apply lastOr_nonempty.
    + (* the piece was replaced by a placeholder *)
      destruct (placeholder_shape _ Ef) as (w & Ew & Hw).
      assert (Hlast : lastOr prevOut (f m off whole) = Some "]"%char).
      { rewrite Ew. change ("["%char :: w ++ ["]"%char])%list
          with (("["%char :: w) ++ ["]"%char])%list. apply lastOr_snoc. }
      pose proof E as E0.
      apply app_eq_app in E as [l [[E1 E2]|[E1 E2]]].
      * destruct l as [|x l].
        -- rewrite app_nil_r in E1. cbn [app] in E2.
           apply (Hbehind []); rewrite ?app_nil_r; auto.
           right. rewrite Hlast. split; [reflexivity|exact Htrail_m].
        -- exfalso. rewrite Ew in E1.
           destruct pre' as [|c0 pre'].
           ++ cbn [app] in E1. injection E1 as <- _.
              destruct m' as [|c' m']; [congruence|].
              cbn [app] in E2. injection E2 as -> _.
              cbn [forallb] in Hmask. discriminate.
           ++ cbn [app] in E1. injection E1 as _ E1.
              (* [x :: l] is an end of [w ++ "]"] *)
              destruct (exists_last (l := x :: l) ltac:(discriminate))
                as (l0 & z & El).
              rewrite El, app_assoc in E1.
              apply app_inj_tail in E1 as [E1 <-].
              rewrite El, <- app_assoc in E2. cbn [app] in E2.
              apply (piece_not_in_placeholder m' post' l0 out); auto.
              rewrite E1, existsb_app in Hw.
              now apply orb_false_iff in Hw as [_ Hw].
      * apply (Hbehind l); auto.
        right. rewrite Hlast. split; [reflexivity|exact Htrail_m].
Qed.

End ScanFacts.

(** ** Patterns that match nowhere *)

Lemma matchAt_facts (re : RegExp) (prev : option ascii) (s : str) (n : nat) :
  In re allPatterns ->
  matchAt re prev s = Some n ->
  exists m s',
    s = (m ++ s')%list /\ n = List.length m /\
    xorb (isWordAt prev) (isWordAt (hd_error m)) = true /\
    xorb (isWordAt (lastOr None m)) (isWordAt (hd_error s')) = true /\
    existsb isKey m = true /\ forallb maskable m = true.
Proof.
  intros Hre H. destruct (stagePattern_In re Hre) as (Hb & Hn & Ho & _).
  pose proof H as H0.
  apply (matchAt_bounded isKey _ _ _ _ Hb) in H
    as (m & s' & -> & -> & Hl & Ht & Hk).
  specialize (Hk Hn). pose proof (key_nonempty m Hk) as Hne.
  exists m, s'. repeat split; auto.
  - now rewrite hd_error_app_nonempty in Hl.
  - now rewrite (lastOr_nonempty None prev m Hne).
  - apply (matchedBy_only maskable re); [exact Ho|]. now exists prev, s'.
Qed.

(** A candidate for the pattern [p] in what a replacement has written
    stands in what it has read. *)
Lemma candidate_survives (p re : RegExp) (f : str -> nat -> str -> str)
  (y pre' post0' : str) (n : nat) :
  In p allPatterns -> In re allPatterns ->
  (forall m off, f m off y = m \/ In (f m off y) PLACEHOLDERS) ->
  replace re f y = (pre' ++ post0')%list ->
  matchAt p (lastOr None pre') post0' = Some n ->
  exists pre m' post,
    y = (pre ++ m' ++ post)%list /\
    matchAt p (lastOr None pre) (m' ++ post) <> None /\
    ((forall m off, forallb maskable m = true -> f m off y <> m) ->
     matchAt re (lastOr None pre) (m' ++ post) = None).
Proof.
  intros Hp Hre Hf E Hm.
  destruct (matchAt_facts p _ _ _ Hp Hm)
    as (m' & post' & -> & -> & Hl & Ht & Hk & Hmask).
  destruct (scan_align re f y Hre Hf None y _ (replace_scan re f y Hre)
              None pre' m' post' (or_introl eq_refl) E Hmask Hk Hl Ht)
    as (pre & post & Ey & Hpre & Hpost & Hstart).
  exists pre, m', post. split; [exact Ey|]. split; [|exact Hstart].
  destruct (stagePattern_In p Hp) as (_ & _ & _ & He).
  apply (matchAt_replay p (lastOr None pre') m' post' He Hm); auto.
Qed.

(** A pattern that matches nowhere in a text matches nowhere in it after a
    replacement of the masker. *)
Lemma nomatch_step (p re : RegExp) (f : str -> nat -> str -> str) (y : str) :
  In p allPatterns -> In re allPatterns ->
  (forall m off, f m off y = m \/ In (f m off y) PLACEHOLDERS) ->
  NoMatch p y -> NoMatch p (replace re f y).
Proof.
  intros Hp Hre Hf Hno pre' post0' E.
  destruct (matchAt p (lastOr None pre') post0') as [n|] eqn:Hm;
    [exfalso|reflexivity].
  destruct (candidate_survives p re f y pre' post0' n Hp Hre Hf E Hm)
    as (pre & m' & post & Ey & Hfound & _).
  apply Hfound. now apply (Hno pre (m' ++ post)%list).
Qed.

(** After all its matches have been replaced by a placeholder a pattern
    matches nowhere. *)
Lemma nomatch_after (p : RegExp) (P y : str) :
  In p allPatterns -> In P PLACEHOLDERS ->
  NoMatch p (replaceWith p P y).
Proof.
  intros Hp HP pre' post0' E.
  destruct (matchAt p (lastOr None pre') post0') as [n|] eqn:Hm;
    [exfalso|reflexivity].
  destruct (candidate_survives p p (fun _ _ _ => P) y pre' post0' n Hp Hp
              (fun _ _ => or_intror HP) E Hm)
    as (pre & m' & post & Ey & Hfound & Hstart).
  apply Hfound, Hstart. intros m _ Hmask ->.
  destruct (placeholder_shape _ HP) as (w & -> & _).
  cbn [forallb] in Hmask. discriminate.
Qed.


(** ** The first result under a second call *)

Lemma replaceWith_nomatch (p : RegExp) (P x : str) :
  NoMatch p x -> replaceWith p P x = x.
Proof.
  intros H. unfold replaceWith, replace. apply replaceFrom_unmatched. exact H.
Qed.

Lemma stable_fold_fixed (P : str) (l : list RegExp) :
  In P PLACEHOLDERS ->
  (forall q, In q l -> In q allPatterns) ->
  forall S x,
    (forall q, In q S -> In q allPatterns) ->
    Stable S x ->
    Stable (S ++ l) (fold_left (fun t p => replaceWith p P t) l x).
Proof.
  intros HP. induction l as [|p l IH]; intros Hl S x HS Hx; cbn [fold_left].
  - now rewrite app_nil_r.
  - replace (S ++ p :: l)%list with ((S ++ [p]) ++ l)%list
      by (rewrite <- app_assoc; reflexivity).
    apply IH.
    + intros q Hq. apply Hl. now right.
    + intros q Hq. apply in_app_or in Hq as [Hq|[<-|[]]]; [now apply HS|].
      apply Hl. now left.
    + intros q Hq. apply in_app_or in Hq as [Hq|[<-|[]]].
      * unfold replaceWith.
        apply nomatch_step;
          [now apply HS|apply Hl; now left|intros m off; now right
          |now apply Hx].
      * apply nomatch_after; [apply Hl; now left|exact HP].
Qed.

Lemma stable_phonePass (S : list RegExp) (x : str) :
  (forall q, In q S -> In q allPatterns) ->
  Stable S x -> Stable S (phonePass x).
Proof.
  intros HS Hx. unfold phonePass.
  apply (fold_invariant (Stable S)); [|exact Hx].
  intros s p Hp Hs q Hq.
  apply nomatch_step;
    [now apply HS|now apply In_phone_allPatterns
    |intros m off; apply phoneReplacer_ok|now apply Hs].
Qed.

Lemma In_fixedPatterns_staged (q : RegExp) :
  In q fixedPatterns ->
  In q ((([emailPattern] ++ creditCardPatterns) ++ addressPatterns)
          ++ [ssnPattern]).
Proof.
  unfold fixedPatterns. rewrite !in_app_iff. cbn [In].
  rewrite !in_app_iff. cbn [In]. tauto.
Qed.

Lemma staged_allPatterns :
  (forall q, In q [emailPattern] -> In q allPatterns) /\
  (forall q, In q creditCardPatterns -> In q allPatterns) /\
  (forall q, In q addressPatterns -> In q allPatterns) /\
  (forall q, In q [ssnPattern] -> In q allPatterns).
Proof.
  repeat split; intros q Hq; apply In_fixed_allPatterns; unfold fixedPatterns.
  - destruct Hq as [<-|[]]. now left.
  - right. apply in_or_app. now left.
  - right. apply in_or_app. right. apply in_or_app. now left.
  - right. apply in_or_app. right. apply in_or_app. now right.
Qed.

(** In the result of the masker none of the patterns replaced by a fixed
    placeholder matches any more. *)
Lemma first_result_stable (fuel : nat) (env : option str) (t r : str) :
  isMaskingEnabled env = true ->
  maskSensitiveInfo fuel env t = Some r ->
  Stable fixedPatterns r.
Proof.
  intros Hen H. unfold maskSensitiveInfo in H. rewrite Hen in H.
  cbn [negb] in H.
  destruct (phoneLoop fuel [] (maskBeforeLoop t)) as [m|] eqn:E; [|discriminate].
  injection H as <-. apply phoneLoop_passes in E as [n ->].
  destruct staged_allPatterns as (He & Hc & Ha & Hs).
  assert (Hin2 : forall q, In q ([emailPattern] ++ creditCardPatterns)
                           -> In q allPatterns).
  { intros q Hq. apply in_app_or in Hq as [Hq|Hq]; auto. }
  assert (Hin3 : forall q,
            In q (([emailPattern] ++ creditCardPatterns) ++ addressPatterns)
            -> In q allPatterns).
  { intros q Hq. apply in_app_or in Hq as [Hq|Hq]; auto. }
  assert (H1 : Stable [emailPattern]
                 (replaceWith emailPattern EMAIL_REDACTED t)).
  { intros q [<-|[]]. apply nomatch_after; [apply He; now left|now left]. }
  assert (H2 : Stable ([emailPattern] ++ creditCardPatterns)
                 (maskBeforeLoop t)).
  { unfold maskBeforeLoop. cbv zeta. rewrite email_guard_redundant.
    apply stable_phonePass; [exact Hin2|].
    apply (stable_fold_fixed CARD_REDACTED creditCardPatterns); auto.
    unfold PLACEHOLDERS. cbn [In]. tauto. }
  assert (H3 : Stable ([emailPattern] ++ creditCardPatterns)
                 (passes n (maskBeforeLoop t))).
  { apply (passes_invariant
             (Stable ([emailPattern] ++ creditCardPatterns)));
      [|exact H2].
    intros s Hs'. now apply stable_phonePass. }
  intros q Hq. apply In_fixedPatterns_staged in Hq. revert q Hq.
  unfold maskAfterLoop. cbv zeta.
  apply (stable_fold_fixed SSN_REDACTED [ssnPattern]
           ltac:(unfold PLACEHOLDERS; cbn [In]; tauto) Hs
           (([emailPattern] ++ creditCardPatterns) ++ addressPatterns)
           _ Hin3).
  apply (stable_fold_fixed ADDRESS_REDACTED addressPatterns); auto.
  unfold PLACEHOLDERS. cbn [In]. tauto.
Qed.

Lemma stable_fold_id (P : str) (l : list RegExp) (x : str) :
  (forall q, In q l -> NoMatch q x) ->
  fold_left (fun t p => replaceWith p P t) l x = x.
Proof.
  intros H. apply (fold_replace_id isDigit). intros p Hp.
  apply replaceWith_nomatch. now apply H.
Qed.

Lemma stable_stages (r : str) :
  Stable fixedPatterns r ->
  maskBeforeLoop r = phonePass r /\ maskAfterLoop r = r.
Proof.
  intros H. unfold Stable, fixedPatterns in H. split.
  - unfold maskBeforeLoop. cbv zeta. rewrite email_guard_redundant.
    rewrite (replaceWith_nomatch emailPattern) by (apply H; now left).
    rewrite stable_fold_id; [reflexivity|].
    intros q Hq. apply H. right. apply in_or_app. now left.
  - unfold maskAfterLoop. cbv zeta. rewrite stable_fold_id.
    + apply replaceWith_nomatch. apply H. right. apply in_or_app. right.
      apply in_or_app. right. now left.
    + intros q Hq. apply H. right. apply in_or_app. right.
      apply in_or_app. now left.
Qed.

Lemma phoneLoop_fixed (fuel : nat) (r : str) :
  phonePass r = r -> phoneLoop (S fuel) [] r = Some r.
Proof.
  intros H. rewrite phoneLoop_S.
  destruct (str_eqb [] r); [reflexivity|]. rewrite H.
  destruct fuel; [rewrite phoneLoop_O|rewrite phoneLoop_S];
    now rewrite str_eqb_refl.
Qed.

Lemma phoneLoop_runs (fuel : nat) (prev m r : str) :
  phoneLoop fuel prev m = Some r -> (digitRuns r <= digitRuns m)%nat.
Proof.
  intros H. apply phoneLoop_passes in H as [n ->].
  apply (passes_invariant (fun x => (digitRuns x <= digitRuns m)%nat)); [|lia].
  intros s Hs. pose proof (proj1 (phonePass_runs s)). lia.
Qed.

Lemma maskAfterLoop_runs (m : str) :
  (digitRuns (maskAfterLoop m) <= digitRuns m)%nat.
Proof.
  pose proof fixed_patterns_numeric as Hnum. rewrite Forall_forall in Hnum.
  unfold maskAfterLoop. cbv zeta. etransitivity.
  - destruct (Hnum ssnPattern ltac:(now left)) as [Hb Hn].
    apply (replaceWith_runs_le ssnPattern SSN_REDACTED isDigit _ Hb Hn).
    split; [discriminate|reflexivity].
  - apply (replaceWith_fold_runs_le ADDRESS_REDACTED addressPatterns).
    + split; [discriminate|reflexivity].
    + apply Forall_forall. intros p Hp. apply Hnum. right.
      apply in_or_app. now right.
Qed.

(** The second call on a result: it returns the result itself when the
    phone pass finds nothing to redact in it, and another text when it
    does. *)
Lemma second_call (env : option str) (r : str) :
  isMaskingEnabled env = true ->
  Stable fixedPatterns r ->
  (phonePass r = r ->
   forall fuel, maskSensitiveInfo (S fuel) env r = Some r) /\
  (phonePass r <> r ->
   forall fuel r2, maskSensitiveInfo fuel env r = Some r2 ->
     (digitRuns r2 < digitRuns r)%nat).
Proof.
  intros Hen Hst. destruct (stable_stages r Hst) as [Hb Ha]. split.
  - intros Hp fuel. unfold maskSensitiveInfo. rewrite Hen. cbn [negb].
    now rewrite Hb, Hp, (phoneLoop_fixed fuel r Hp), Ha.
  - intros Hp fuel r2 H. unfold maskSensitiveInfo in H. rewrite Hen in H.
    cbn [negb] in H. rewrite Hb in H.
    destruct (phoneLoop fuel [] (phonePass r)) as [m|] eqn:E; [|discriminate].
    injection H as <-.
    pose proof (phoneLoop_runs _ _ _ _ E) as H1.
    pose proof (maskAfterLoop_runs m) as H2.
    pose proof (proj2 (phonePass_runs r) Hp) as H3. lia.
Qed.

(** The over-long number: a candidate of more than fifteen digits is kept
    by the first call; the placeholder written for its last group shortens
    it, and the second call redacts what is left. *)
Example mask_not_idempotent_long_number :
  maskSensitiveInfo 2 None (lit "a+1.2.3.4.5.6.7.8.9.0.1.2.3.4.5.12345")
  = Some (lit "a+1.2.3.4.5.6.7.8.9.0.1.2.3.4.5.[ADDRESS REDACTED]") /\
  maskSensitiveInfo 2 None
    (lit "a+1.2.3.4.5.6.7.8.9.0.1.2.3.4.5.[ADDRESS REDACTED]")
  = Some (lit "a[PHONE REDACTED].[ADDRESS REDACTED]").
Proof. split; vm_compute; reflexivity. Qed.


